(** * Cohort analysis pipeline of [app.py]: model and verified properties

    The development embeds [process_csv] of [src/app.py], the function that
    turns an uploaded transaction table into the four cohort reports
    (average LTV, monthly revenue, repeat purchase rate, cohort sizes).

    The pandas operations the function calls are given as list programs:
    a frame is a list of rows, [groupby] yields its groups in ascending key
    order, [merge] is an inner join that keeps the order of the left frame,
    [pivot_table] averages the rows of a cell and fills the empty cells.
    Amounts are rationals ([Qc]).  The frames are given first in exact
    arithmetic, on which the shape, the order and the counts of the reports
    are settled.  The sums of lines 47 to 73 are then given in float64, as
    pandas rounds them, and what is claimed of the values of those sums is
    settled there. *)

From Stdlib Require Import String Ascii Bool ZArith QArith Qcanon Lia List.
From Stdlib Require Import Sorting.Sorted Permutation.
Import ListNotations.

Set Implicit Arguments.

Local Open Scope Z_scope.

(** ** Values of a frame *)

(** A pandas [Timestamp], by its calendar fields; [nanosecond] counts from
    midnight. *)
Record Timestamp := mkTimestamp {
  year : Z;
  month : Z;
  day : Z;
  nanosecond : Z
}.

Definition ts_compare (a b : Timestamp) : comparison :=
  match year a ?= year b with
  | Eq => match month a ?= month b with
          | Eq => match day a ?= day b with
                  | Eq => nanosecond a ?= nanosecond b
                  | c => c
                  end
          | c => c
          end
  | c => c
  end.

(** [a > b] on timestamps. *)
Definition ts_gtb (a b : Timestamp) : bool :=
  match ts_compare a b with Gt => true | _ => false end.

Definition ts_min (a b : Timestamp) : Timestamp :=
  if ts_gtb a b then b else a.

(** [Timestamp.to_period('M')]: a monthly period is held by pandas as its
    ordinal, the number of months since January 1970. *)
Definition to_period_M (t : Timestamp) : Z :=
  (year t - 1970) * 12 + (month t - 1).

(** [Period - Period] for monthly periods gives an offset of [n] months;
    [.n] reads the count. *)
Definition period_diff_n (p q : Z) : Z := p - q.

Definition Timestamp_eqb (a b : Timestamp) : bool :=
  match ts_compare a b with Eq => true | _ => false end.

Definition Qc_eqb (x y : Qc) : bool := Qeq_bool x y.

(** A field of the table as [read_csv] and the conversions of [process_csv]
    see it: text that is neither a date nor a number, text that
    [pd.to_datetime] reads as a timestamp, a number, or an empty field
    (NaN).  A numeric field standing in the date column, which pandas would
    count from the epoch, is presented as [CDate]. *)
Inductive cell :=
| CStr (s : string)
| CDate (t : Timestamp)
| CNum (x : Qc)
| CNaN.

Definition cell_eqb (a b : cell) : bool :=
  match a, b with
  | CStr s, CStr s' => String.eqb s s'
  | CDate t, CDate t' => Timestamp_eqb t t'
  | CNum x, CNum x' => Qc_eqb x x'
  | CNaN, CNaN => true
  | _, _ => false
  end.

Definition isna (c : cell) : bool :=
  match c with CNaN => true | _ => false end.

(** ** Exceptions *)

Inductive exn :=
| KeyError (label : string)
| ValueError.

Inductive result (A : Type) :=
| Ok (a : A)
| Raise (e : exn).

Arguments Ok {A} a.
Arguments Raise {A} e.

Definition bind {A B} (m : result A) (k : A -> result B) : result B :=
  match m with
  | Ok a => k a
  | Raise e => Raise e
  end.

Notation "x <- m ;; k" := (bind m (fun x => k))
  (at level 61, m at next level, right associativity).

Fixpoint mapM {A B} (f : A -> result B) (l : list A) : result (list B) :=
  match l with
  | [] => Ok []
  | a :: tl =>
      b <- f a ;;
      bs <- mapM f tl ;;
      Ok (b :: bs)
  end.

(** ** Sums over rationals *)

Local Open Scope Qc_scope.

Definition Qcsum (l : list Qc) : Qc := fold_right Qcplus 0 l.

Definition Qc_of_nat (n : nat) : Qc := Q2Qc (inject_Z (Z.of_nat n)).

(** [mean] of the values that fall in one cell of a pivot table. *)
Definition mean (l : list Qc) : Qc := Qcsum l / Qc_of_nat (length l).

(** A float column holds NaN for an empty field; [sum] skips them.
    [nansum] adds exactly; [group_sum] adds in float64. *)
Definition nan_to_zero (x : option Qc) : Qc :=
  match x with Some v => v | None => 0 end.

Definition nansum (l : list (option Qc)) : Qc := Qcsum (map nan_to_zero l).

Local Close Scope Qc_scope.

(** ** Group keys in ascending order *)

Section SortedKeys.
Variable K : Type.
Variable ltb : K -> K -> bool.

(** Insert a key in an ascending list without repeating it. *)
Fixpoint insert_key (k : K) (l : list K) : list K :=
  match l with
  | [] => [k]
  | x :: tl =>
      if ltb k x then k :: x :: tl
      else if ltb x k then x :: insert_key k tl
      else x :: tl
  end.

(** The distinct keys of a column, ascending: the group keys of a
    [groupby] and the labels of a pivot table. *)
Definition sorted_unique (l : list K) : list K :=
  fold_right insert_key [] l.

Definition lt_key (a b : K) : Prop := ltb a b = true.
End SortedKeys.

Definition pair_ltb (a b : Z * Z) : bool :=
  (fst a <? fst b) || ((fst a =? fst b) && (snd a <? snd b)).

Definition pair_eqb (a b : Z * Z) : bool :=
  (fst a =? fst b) && (snd a =? snd b).

(** Distinct values of a column in order of first appearance (without
    NaN): the values [nunique] counts. *)
Fixpoint unique (l : list cell) : list cell :=
  match l with
  | [] => []
  | c :: tl =>
      let u := unique tl in
      if isna c then u else c :: filter (fun d => negb (cell_eqb c d)) u
  end.

Definition nunique (l : list cell) : nat := length (unique l).

(** ** The uploaded table *)

(** The frame [pd.read_csv] returns: the header and the rows of fields.
    A row shorter than the header reads as NaN beyond its end. *)
Record DataFrame := mkDataFrame {
  columns : list string;
  values : list (list cell)
}.

(** [df.iloc[:, :4]] *)
Definition iloc_first4 (df : DataFrame) : DataFrame :=
  {| columns := firstn 4 (columns df);
     values := map (firstn 4) (values df) |}.

(** [df.rename(columns={'day': 'purchase_date'})] *)
Definition rename_day (df : DataFrame) : DataFrame :=
  {| columns := map (fun c => if String.eqb c "day" then "purchase_date"%string
                              else c) (columns df);
     values := values df |}.

Fixpoint positions (label : string) (cols : list string) (i : nat) : list nat :=
  match cols with
  | [] => []
  | c :: tl =>
      if String.eqb c label then i :: positions label tl (S i)
      else positions label tl (S i)
  end.

(** Selecting one column by its label: a label that is absent raises
    [KeyError]; a label carried by two columns selects a frame, which none
    of the uses below accepts. *)
Definition get_loc (label : string) (cols : list string) : result nat :=
  match positions label cols 0 with
  | [] => Raise (KeyError label)
  | [i] => Ok i
  | _ => Raise ValueError
  end.

(** [pd.to_datetime] on one field; an empty field becomes NaT. *)
Definition to_datetime (c : cell) : result (option Timestamp) :=
  match c with
  | CDate t => Ok (Some t)
  | CNaN => Ok None
  | CStr _ => Raise ValueError
  | CNum _ => Raise ValueError
  end.

(** [astype(float)] on one field; an empty field stays NaN.  The number
    is kept as it is read; [total_sales64] is its float64. *)
Definition astype_float (c : cell) : result (option Qc) :=
  match c with
  | CNum x => Ok (Some x)
  | CNaN => Ok None
  | CStr _ => Raise ValueError
  | CDate _ => Raise ValueError
  end.

(** ** The transaction frame [df] *)

(** A row of [df] once lines 28 to 44 have run. *)
Record Row := mkRow {
  customer_email : cell;
  purchase_date : option Timestamp;
  first_purchase_date : option Timestamp;
  cohort_month : option Z;
  purchase_month : option Z;
  total_sales : option Qc
}.

(** [min] of a datetime column skips NaT and is NaT when nothing is left. *)
Fixpoint nanmin (l : list (option Timestamp)) : option Timestamp :=
  match l with
  | [] => None
  | None :: tl => nanmin tl
  | Some t :: tl =>
      match nanmin tl with
      | None => Some t
      | Some m => Some (ts_min t m)
      end
  end.

(** [df.groupby('customer_email')['purchase_date'].min().reset_index()]:
    one row per customer; rows without a customer belong to no group.  The
    groups are listed here in order of first appearance: the order of this
    frame is not observed, since the join below keeps the order of [df]. *)
Definition first_purchase (df : list (list cell * cell * option Timestamp))
  : list (cell * option Timestamp) :=
  map (fun k =>
         (k, nanmin (map snd
                       (filter (fun r => cell_eqb (snd (fst r)) k) df))))
      (unique (map (fun r => snd (fst r)) df)).

(** [pd.merge(df, first_purchase, on='customer_email')]: inner join. *)
Definition merge_first_purchase
    (df : list (list cell * cell * option Timestamp))
    (fp : list (cell * option Timestamp))
  : list (list cell * cell * option Timestamp * option Timestamp) :=
  flat_map (fun r =>
              map (fun m => (r, snd m))
                  (filter (fun m => cell_eqb (fst m) (snd (fst r))) fp))
           df.

(** [df] at line 31: each row of the table with its customer and its
    parsed date. *)
Definition with_customer (i_cust : nat) (rows : list (list cell))
    (dates : list (option Timestamp))
  : list (list cell * cell * option Timestamp) :=
  map (fun rd => (fst rd, nth i_cust (fst rd) CNaN, snd rd))
      (combine rows dates).

(** Lines 38 to 44 on one row of the joined frame. *)
Definition derive (i_sales : nat)
    (m : list cell * cell * option Timestamp * option Timestamp)
  : result Row :=
  let '(fields, cust, date, first) := m in
  amount <- astype_float (nth i_sales fields CNaN) ;;
  Ok {| customer_email := cust;
        purchase_date := date;
        first_purchase_date := first;
        cohort_month := option_map to_period_M first;
        purchase_month := option_map to_period_M date;
        total_sales := amount |}.

(** Lines 28 to 31: the rows of the table with the date parsed and the
    customer read, which the grouping and the join work on. *)
Definition transactions (df : DataFrame)
  : result (list (list cell * cell * option Timestamp)) :=
  i_date <- get_loc "purchase_date" (columns df) ;;
  dates <- mapM (fun r => to_datetime (nth i_date r CNaN)) (values df) ;;
  i_cust <- get_loc "customer_email" (columns df) ;;
  Ok (with_customer i_cust (values df) dates).

(** Lines 21 to 44 of [process_csv]. *)
Definition enrich (df0 : DataFrame) : result (list Row) :=
  let df := rename_day (iloc_first4 df0) in
  df1 <- transactions df ;;
  let merged := merge_first_purchase df1 (first_purchase df1) in
  (* a column of the table that is already called first_purchase_date is
     renamed by the join, with the joined one, and line 38 finds neither *)
  _ <- (if existsb (String.eqb "first_purchase_date") (columns df)
        then Raise (KeyError "first_purchase_date") else Ok tt) ;;
  i_sales <- get_loc "total_sales" (columns df) ;;
  mapM (derive i_sales) merged.

(** [df['purchase_date'] > df['first_purchase_date']]; a comparison with
    NaT is false. *)
Definition is_repeat_purchase (r : Row) : bool :=
  match purchase_date r, first_purchase_date r with
  | Some d, Some f => ts_gtb d f
  | _, _ => false
  end.

(** The key of a row under [groupby(['cohort_month', 'purchase_month'])];
    a row with a missing key belongs to no group. *)
Definition month_key (r : Row) : option (Z * Z) :=
  match cohort_month r, purchase_month r with
  | Some c, Some p => Some (c, p)
  | _, _ => None
  end.

Definition has_month_key (k : Z * Z) (r : Row) : bool :=
  match month_key r with
  | Some k' => pair_eqb k' k
  | None => false
  end.

Definition in_cohort (c : Z) (r : Row) : bool :=
  match cohort_month r with
  | Some c' => c' =? c
  | None => false
  end.

Fixpoint somes {A} (l : list (option A)) : list A :=
  match l with
  | [] => []
  | Some a :: tl => a :: somes tl
  | None :: tl => somes tl
  end.

(** ** Aggregation *)

(** Line 47: total spent by each cohort in each month, one row per
    (cohort_month, purchase_month), ascending. *)
Definition monthly_sum (df : list Row) : list (Z * Z * Qc) :=
  map (fun k => (k, nansum (map total_sales (filter (has_month_key k) df))))
      (sorted_unique pair_ltb (somes (map month_key df))).

(** Line 50: [groupby('cohort_month')['total_sales'].cumsum()], the running
    sum within each cohort, in the order of the rows; [acc] holds the sum
    reached so far in each cohort.  The sum is exact here and in float64
    in [groupby_cumsum64]. *)
Fixpoint groupby_cumsum (acc : Z -> Qc) (rows : list (Z * Z * Qc)) : list Qc :=
  match rows with
  | [] => []
  | (c, _, v) :: tl =>
      let s := (acc c + v)%Qc in
      s :: groupby_cumsum (fun c' => if c' =? c then s else acc c') tl
  end.

(** Lines 53 and 54: the number of distinct customers of each cohort. *)
Definition cohort_sizes (df : list Row) : list (Z * nat) :=
  map (fun c => (c, nunique (map customer_email (filter (in_cohort c) df))))
      (sorted_unique Z.ltb (somes (map cohort_month df))).

(** The size the join of lines 57 and 88 attaches to cohort [c]. *)
Definition cohort_size_of (df : list Row) (c : Z) : nat :=
  nunique (map customer_email (filter (in_cohort c) df)).

(** A row of [cohort_monthly_spend] after line 63. *)
Record Spend := mkSpend {
  spend_cohort_month : Z;
  spend_purchase_month : Z;
  spend_total_sales : Qc;
  cumulative_total_spent : Qc;
  cohort_size : nat;
  avg_cumulative_total_spent : Qc;
  months_since_initial_purchase : Z
}.

(** Lines 47 to 63. *)
Definition cohort_monthly_spend (df : list Row) : list Spend :=
  let sums := monthly_sum df in
  let cums := groupby_cumsum (fun _ => 0%Qc) sums in
  flat_map (fun sc =>
              let '(c, p, v, cum) := sc in
              map (fun cs =>
                     {| spend_cohort_month := c;
                        spend_purchase_month := p;
                        spend_total_sales := v;
                        cumulative_total_spent := cum;
                        cohort_size := snd cs;
                        avg_cumulative_total_spent :=
                          (cum / Qc_of_nat (snd cs))%Qc;
                        months_since_initial_purchase := period_diff_n p c |})
                  (filter (fun cs => fst cs =? c) (cohort_sizes df)))
           (combine sums cums).

(** A row of [repeat_purchasers] after line 94. *)
Record Repeat := mkRepeat {
  repeat_cohort_month : Z;
  repeat_purchase_month : Z;
  repeat_purchasers : nat;
  repeat_cohort_size : nat;
  repeat_purchase_rate : Qc;
  repeat_months_since_initial_purchase : Z
}.

(** Lines 81 to 94. *)
Definition repeat_purchasers_frame (df : list Row) : list Repeat :=
  let rep := filter is_repeat_purchase df in
  let counts :=
    map (fun k => (k, nunique (map customer_email
                                   (filter (has_month_key k) rep))))
        (sorted_unique pair_ltb (somes (map month_key rep))) in
  flat_map (fun kc =>
              let '(c, p, n) := kc in
              map (fun cs =>
                     {| repeat_cohort_month := c;
                        repeat_purchase_month := p;
                        repeat_purchasers := n;
                        repeat_cohort_size := snd cs;
                        repeat_purchase_rate :=
                          (Qc_of_nat n / Qc_of_nat (snd cs))%Qc;
                        repeat_months_since_initial_purchase :=
                          period_diff_n p c |})
                  (filter (fun cs => fst cs =? c) (cohort_sizes df)))
           counts.

(** ** Pivot tables *)

Record PivotTable := mkPivot {
  index : list Z;
  labels : list Z;
  matrix : list (list Qc)
}.

(** [pivot_table(index=, columns=, values=, fill_value=)] on rows given as
    (index, column, value): the default aggregation is the mean of the
    values that meet in a cell; a cell nothing falls in takes the fill
    value. *)
Definition pivot_cell (fill : Qc) (rows : list (Z * Z * Qc)) (i c : Z) : Qc :=
  match filter (fun r => pair_eqb (fst r) (i, c)) rows with
  | [] => fill
  | hit => mean (map snd hit)
  end.

Definition pivot_table (fill : Qc) (rows : list (Z * Z * Qc)) : PivotTable :=
  let idx := sorted_unique Z.ltb (map (fun r => fst (fst r)) rows) in
  let cols := sorted_unique Z.ltb (map (fun r => snd (fst r)) rows) in
  {| index := idx;
     labels := cols;
     matrix := map (fun i => map (pivot_cell fill rows i) cols) idx |}.

Definition ltv (df : list Row) : PivotTable :=
  pivot_table 0%Qc
    (map (fun s => (spend_cohort_month s, months_since_initial_purchase s,
                    avg_cumulative_total_spent s))
         (cohort_monthly_spend df)).

Definition revenue (df : list Row) : PivotTable :=
  pivot_table 0%Qc
    (map (fun s => (spend_cohort_month s, months_since_initial_purchase s,
                    spend_total_sales s))
         (cohort_monthly_spend df)).

Definition repeat_purchase_rate_table (df : list Row) : PivotTable :=
  pivot_table 0%Qc
    (map (fun r => (repeat_cohort_month r,
                    repeat_months_since_initial_purchase r,
                    repeat_purchase_rate r))
         (repeat_purchasers_frame df)).

(** ** The upload folder and [process_csv] *)

Inductive artifact :=
| Matrix (t : PivotTable)
| SizeTable (rows : list (Z * nat)).

(** The files of the upload folder, by path. *)
Definition Store := list (string * artifact).

(** A step of [process_csv]: it may write to the upload folder and may
    raise. *)
Definition IO (A : Type) : Type := Store -> Store * result A.

Definition pure {A} (a : A) : IO A := fun fs => (fs, Ok a).

Definition lift {A} (m : result A) : IO A := fun fs => (fs, m).

Definition then_ {A B} (m : IO A) (k : A -> IO B) : IO B :=
  fun fs =>
    match m fs with
    | (fs', Ok a) => k a fs'
    | (fs', Raise e) => (fs', Raise e)
    end.

Notation "x <~ m ;; k" := (then_ m (fun x => k))
  (at level 61, m at next level, right associativity).

(** [frame.to_csv(path)]: the file is created or replaced. *)
Definition to_csv (path : string) (a : artifact) : IO unit :=
  fun fs =>
    ((path, a) :: filter (fun e => negb (String.eqb (fst e) path)) fs, Ok tt).

Fixpoint read_file (path : string) (fs : Store) : option artifact :=
  match fs with
  | [] => None
  | (p, a) :: tl => if String.eqb p path then Some a else read_file path tl
  end.

Definition UPLOAD_FOLDER : string := "uploads".

(** [os.path.join(app.config['UPLOAD_FOLDER'], name)] *)
Definition path_join (dir name : string) : string := dir ++ "/" ++ name.

(** [process_csv], on the frame read from [file_path]: it leaves the four
    reports in the upload folder and returns their names, or raises. *)
Definition process_csv (df0 : DataFrame)
  : IO (string * string * string * string) :=
  df <~ lift (enrich df0) ;;
  let ltv := ltv df in
  let avg_csv_path := path_join UPLOAD_FOLDER "ltv.csv" in
  _ <~ to_csv avg_csv_path (Matrix ltv) ;;
  let revenue := revenue df in
  let total_csv_path := path_join UPLOAD_FOLDER "revenue_monthly.csv" in
  _ <~ to_csv total_csv_path (Matrix revenue) ;;
  let repeat_purchase_rate := repeat_purchase_rate_table df in
  let repeat_csv_path :=
    path_join UPLOAD_FOLDER "repeat_purchase_rate.csv" in
  _ <~ to_csv repeat_csv_path (Matrix repeat_purchase_rate) ;;
  let cohort_sizes := cohort_sizes df in
  let cohort_sizes_csv_path := path_join UPLOAD_FOLDER "cohort_sizes.csv" in
  _ <~ to_csv cohort_sizes_csv_path (SizeTable cohort_sizes) ;;
  pure ("ltv.csv", "revenue_monthly.csv", "repeat_purchase_rate.csv",
        "cohort_sizes.csv")%string.

(** Reading a report: [t.loc[i]] and [t.loc[i, c]]. *)
Fixpoint assoc {A} (k : Z) (keys : list Z) (vals : list A) : option A :=
  match keys, vals with
  | x :: ks, v :: vs => if x =? k then Some v else assoc k ks vs
  | _, _ => None
  end.

Definition row_at (t : PivotTable) (i : Z) : option (list Qc) :=
  assoc i (index t) (matrix t).

Definition cell_at (t : PivotTable) (i c : Z) : option Qc :=
  match row_at t i with
  | Some r => assoc c (labels t) r
  | None => None
  end.

(** The four names [process_csv] returns, and where the reports lie. *)
Definition report_names : string * string * string * string :=
  ("ltv.csv", "revenue_monthly.csv", "repeat_purchase_rate.csv",
   "cohort_sizes.csv")%string.

Definition ltv_path : string := path_join UPLOAD_FOLDER "ltv.csv".
Definition revenue_path : string := path_join UPLOAD_FOLDER "revenue_monthly.csv".
Definition repeat_path : string :=
  path_join UPLOAD_FOLDER "repeat_purchase_rate.csv".
Definition sizes_path : string := path_join UPLOAD_FOLDER "cohort_sizes.csv".

Definition report_paths : list string :=
  [ltv_path; revenue_path; repeat_path; sizes_path].

(** A pivot table without rows or columns. *)
Definition empty_pivot : PivotTable :=
  {| index := []; labels := []; matrix := [] |}.

Definition is_ok {A} (m : result A) : bool :=
  match m with Ok _ => true | Raise _ => false end.

(** The header lines 28 to 44 accept: each of purchase_date (day,
    renamed), customer_email and total_sales names exactly one of the
    first four columns, and none of them is called first_purchase_date. *)
Definition expected_header (df0 : DataFrame) : bool :=
  let cols := columns (rename_day (iloc_first4 df0)) in
  is_ok (get_loc "purchase_date" cols)
  && is_ok (get_loc "customer_email" cols)
  && negb (existsb (String.eqb "first_purchase_date") cols)
  && is_ok (get_loc "total_sales" cols).

(** The folder [process_csv] leaves when the table is read without error. *)
Definition written (df : list Row) (fs : Store) : Store :=
  fst (to_csv sizes_path (SizeTable (cohort_sizes df))
    (fst (to_csv repeat_path (Matrix (repeat_purchase_rate_table df))
      (fst (to_csv revenue_path (Matrix (revenue df))
        (fst (to_csv ltv_path (Matrix (ltv df)) fs))))))).

(** ** Valid tables *)

Definition is_date (c : cell) : bool :=
  match c with CDate _ => true | _ => false end.

Definition is_number (c : cell) : bool :=
  match c with CNum _ => true | _ => false end.

Definition is_nonnegative (c : cell) : bool :=
  match c with CNum x => Qle_bool 0 x | _ => false end.

(** A table of transactions: the labels looked up are among the first
    four columns, and every row names its customer, has a purchase date
    that parses and a numeric sale amount. *)
Definition valid_input (df0 : DataFrame) : bool :=
  let df := rename_day (iloc_first4 df0) in
  match get_loc "purchase_date" (columns df),
        get_loc "customer_email" (columns df),
        get_loc "total_sales" (columns df) with
  | Ok i_date, Ok i_cust, Ok i_sales =>
      negb (existsb (String.eqb "first_purchase_date") (columns df))
      && forallb (fun r => is_date (nth i_date r CNaN)
                           && negb (isna (nth i_cust r CNaN))
                           && is_number (nth i_sales r CNaN))
                 (values df)
  | _, _, _ => false
  end.

(** No sale amount of the table is negative. *)
Definition nonnegative_amounts (df0 : DataFrame) : bool :=
  let df := rename_day (iloc_first4 df0) in
  match get_loc "total_sales" (columns df) with
  | Ok i_sales =>
      forallb (fun r => is_nonnegative (nth i_sales r CNaN)) (values df)
  | Raise _ => false
  end.

(** A row of [df] with its date and its amount. *)
Definition complete (r : Row) : Prop :=
  purchase_date r <> None /\ total_sales r <> None.

(** ** Sample tables *)

(** A header row and no transaction. *)
Definition header_only : DataFrame :=
  {| columns := ["customer_email"; "day"; "order_id"; "total_sales"]%string;
     values := [] |}.

Definition date (y m d : Z) : cell := CDate (mkTimestamp y m d 0).

Definition amount (n : Z) : cell := CNum (Q2Qc (inject_Z n)).

(** Three customers: A spends 10 in January and 20 in February, B spends 5
    in February, C spends 15 in January. *)
Definition three_customers_rows : list (list cell) :=
  [ [CStr "A"; date 2023 1 10; CStr "o1"; amount 10];
    [CStr "A"; date 2023 2 15; CStr "o2"; amount 20];
    [CStr "B"; date 2023 2 20; CStr "o3"; amount 5];
    [CStr "C"; date 2023 1 5; CStr "o4"; amount 15] ].

Definition three_customers : DataFrame :=
  {| columns := ["customer_email"; "day"; "order_id"; "total_sales"]%string;
     values := three_customers_rows |}.

(** The same rows under other header names. *)
Definition three_customers_renamed : DataFrame :=
  {| columns := ["customer"; "date"; "order"; "amount"]%string;
     values := three_customers_rows |}.

(** January and February 2023 as monthly periods. *)
Definition jan : Z := 636.
Definition feb : Z := 637.

Definition rat (n : Z) (d : positive) : Qc := Q2Qc (n # d).

(** The frame [df] of the three customers after line 44. *)
Definition three_customers_enriched : list Row :=
  Eval vm_compute in
    match enrich three_customers with
    | Ok df => df
    | Raise _ => []
    end.

(** ** Reading by position *)

(** The ingestion as the specification words it: the first four columns
    read by position, the first as the customer, the second as the date,
    the fourth as the amount, whatever the header says. *)
Definition enrich_positional (df0 : DataFrame) : result (list Row) :=
  let rows := map (firstn 4) (values df0) in
  dates <- mapM (fun r => to_datetime (nth 1 r CNaN)) rows ;;
  let df1 := with_customer 0 rows dates in
  mapM (derive 3) (merge_first_purchase df1 (first_purchase df1)).

(** The names a third column must not carry for the other three to be
    found, each once, and for line 38 to find the joined column. *)
Definition reserved_labels : list string :=
  ["day"; "purchase_date"; "customer_email"; "total_sales";
   "first_purchase_date"]%string.

(** ** Frames in closed form *)

Definition spend_row (df : list Row) (sc : Z * Z * Qc * Qc) : Spend :=
  let '(c, p, v, cum) := sc in
  {| spend_cohort_month := c;
     spend_purchase_month := p;
     spend_total_sales := v;
     cumulative_total_spent := cum;
     cohort_size := cohort_size_of df c;
     avg_cumulative_total_spent := (cum / Qc_of_nat (cohort_size_of df c))%Qc;
     months_since_initial_purchase := period_diff_n p c |}.

Definition repeat_row (df : list Row) (kc : Z * Z * nat) : Repeat :=
  let '(c, p, n) := kc in
  {| repeat_cohort_month := c;
     repeat_purchase_month := p;
     repeat_purchasers := n;
     repeat_cohort_size := cohort_size_of df c;
     repeat_purchase_rate := (Qc_of_nat n / Qc_of_nat (cohort_size_of df c))%Qc;
     repeat_months_since_initial_purchase := period_diff_n p c |}.

Definition repeat_counts (df : list Row) : list (Z * Z * nat) :=
  let rep := filter is_repeat_purchase df in
  map (fun k => (k, nunique (map customer_email (filter (has_month_key k) rep))))
      (sorted_unique pair_ltb (somes (map month_key rep))).

Definition spend_cell (s : Spend) : Z * Z :=
  (spend_cohort_month s, months_since_initial_purchase s).

Definition repeat_cell (r : Repeat) : Z * Z :=
  (repeat_cohort_month r, repeat_months_since_initial_purchase r).

Definition spend_key (s : Spend) : Z * Z :=
  (spend_cohort_month s, spend_purchase_month s).

Definition months_upto (s : Spend) (k : Z * Z) : bool :=
  (fst k =? spend_cohort_month s) && (snd k <=? spend_purchase_month s).

(** The first purchase date the join attaches to customer [k]. *)
Definition first_purchase_of
    (df : list (list cell * cell * option Timestamp)) (k : cell)
  : option Timestamp :=
  nanmin (map snd (filter (fun r => cell_eqb (snd (fst r)) k) df)).

(** ** The upload guard *)

Definition ALLOWED_EXTENSIONS : list string := ["csv"%string].

(** [sep in s] *)
Fixpoint contains (sep : ascii) (s : string) : bool :=
  match s with
  | EmptyString => false
  | String c tl => Ascii.eqb c sep || contains sep tl
  end.

(** [s.rsplit(sep, 1)]: the text around the last separator, or [s] alone
    when it has none. *)
Fixpoint rsplit1 (sep : ascii) (s : string) : list string :=
  match s with
  | EmptyString => [EmptyString]
  | String c tl =>
      match rsplit1 sep tl with
      | [t] => if Ascii.eqb c sep then [EmptyString; t] else [String c t]
      | h :: rest => String c h :: rest
      | [] => []
      end
  end.

(** [str.lower] on the letters A to Z.  No other character has a letter
    of an allowed extension as its lower case, so the test of
    [allowed_file] sees no more of [str.lower] than this. *)
Definition lower_ascii (c : ascii) : ascii :=
  let n := nat_of_ascii c in
  if (65 <=? n)%nat && (n <=? 90)%nat then ascii_of_nat (n + 32) else c.

Fixpoint lower (s : string) : string :=
  match s with
  | EmptyString => EmptyString
  | String c tl => String (lower_ascii c) (lower tl)
  end.

(** [allowed_file]: the index [1] is taken only when the name has a dot,
    and then the split has two parts. *)
Definition allowed_file (filename : string) : bool :=
  contains "." filename
  && match nth_error (rsplit1 "." filename) 1 with
     | Some ext => existsb (String.eqb (lower ext)) ALLOWED_EXTENSIONS
     | None => false
     end.

(** The three customers and a row that names no customer and carries
    text for an amount. *)
Definition with_anonymous_row : DataFrame :=
  {| columns := ["customer_email"; "day"; "order_id"; "total_sales"]%string;
     values := [CNaN; date 2023 3 1; CStr "o5"; CStr "n/a"]
               :: three_customers_rows |}.

(** The cells of row [c] of a matrix under the labels up to [o]. *)
Definition cells_upto (t : PivotTable) (c o : Z) : list Qc :=
  match row_at t c with
  | Some row => map snd (filter (fun lv => fst lv <=? o) (combine (labels t) row))
  | None => []
  end.

(** The rows that belong to a cohort: those whose customer has a dated
    purchase. *)
Definition has_cohort (r : Row) : bool :=
  match cohort_month r with Some _ => true | None => false end.

(** The cohort month of a customer, read off the first of its rows. *)
Definition cohort_of (df : list Row) (k : cell) : option Z :=
  match find (fun r => cell_eqb (customer_email r) k) df with
  | Some r => cohort_month r
  | None => None
  end.

Definition customer_in_cohort (df : list Row) (c : Z) (k : cell) : bool :=
  match cohort_of df k with
  | Some c' => c' =? c
  | None => false
  end.

(** What lines 21 to 44 need of a table: the three labels, each once
    among the first four columns, no column called first_purchase_date,
    a date or an empty field in every row, and a number or an empty field
    as the amount of every row that names a customer. *)
Definition readable (df0 : DataFrame) : Prop :=
  exists i_date i_cust i_sales,
    get_loc "purchase_date" (columns (rename_day (iloc_first4 df0))) = Ok i_date /\
    get_loc "customer_email" (columns (rename_day (iloc_first4 df0))) = Ok i_cust /\
    get_loc "total_sales" (columns (rename_day (iloc_first4 df0))) = Ok i_sales /\
    existsb (String.eqb "first_purchase_date")
            (columns (rename_day (iloc_first4 df0))) = false /\
    (forall row, In row (values (rename_day (iloc_first4 df0))) ->
       exists d, to_datetime (nth i_date row CNaN) = Ok d) /\
    (forall row, In row (values (rename_day (iloc_first4 df0))) ->
       isna (nth i_cust row CNaN) = false ->
       exists x, astype_float (nth i_sales row CNaN) = Ok x).

(** The exceptions [process_csv] can raise. *)
Definition process_csv_errors : list exn :=
  [KeyError "purchase_date"; KeyError "customer_email";
   KeyError "first_purchase_date"; KeyError "total_sales"; ValueError].

(** A file of the folder that is not one of the four reports. *)
Definition not_a_report (e : string * artifact) : bool :=
  negb (existsb (String.eqb (fst e)) report_paths).

(** ** The web handlers *)

(** An uploaded part of a request: its file name and its bytes. *)
Record FileStorage := mkFileStorage {
  filename : string;
  stream : string
}.

(** What the handlers read of a request. *)
Record Request := mkRequest {
  url : string;
  files : list (string * FileStorage)
}.

(** [request.files[name]]: the first part of that name. *)
Fixpoint files_get (name : string) (parts : list (string * FileStorage))
  : option FileStorage :=
  match parts with
  | [] => None
  | (n, f) :: tl => if String.eqb n name then Some f else files_get name tl
  end.

Inductive response :=
| Redirect (location : string)
| Json (avg_csv_path total_csv_path repeat_csv_path cohort_sizes_csv_path : string)
| Attachment (body : string).

(** What leaves a handler uncaught. *)
Inductive error :=
| Uncaught (e : exn)
| FileNotFoundError (path : string)
| IsADirectoryError (path : string).

Inductive outcome (A : Type) :=
| Returned (a : A)
| Failed (e : error).

Arguments Returned {A} a.
Arguments Failed {A} e.

(** The upload folder as the handlers share it: the bytes of the uploads
    and of the reports, by path. *)
Definition Folder := list (string * string).

(** [file.save(path)] and a report written to [path]: the file is created
    or replaced. *)
Definition save (path body : string) (fd : Folder) : Folder :=
  (path, body) :: filter (fun e => negb (String.eqb (fst e) path)) fd.

Fixpoint read_folder (path : string) (fd : Folder) : option string :=
  match fd with
  | [] => None
  | (p, b) :: tl => if String.eqb p path then Some b else read_folder path tl
  end.

(** [download_file]: the file of that name in the upload folder, as an
    attachment.  The route gives a name without a slash, which
    [path_join] puts under the folder; the application runs in the
    directory of its module, so that [send_file] resolves the folder as
    the writes do. *)
Definition download_file (name : string) (fd : Folder) : outcome response :=
  match read_folder (path_join UPLOAD_FOLDER name) fd with
  | Some body => Returned (Attachment body)
  | None => Failed (FileNotFoundError (path_join UPLOAD_FOLDER name))
  end.

Section Web.
(** Of werkzeug and pandas the handlers use [secure_filename], the parser
    of [pd.read_csv] and the text [to_csv] writes; they are left open. *)
Variable secure_filename : string -> string.
Variable read_csv : string -> result DataFrame.
Variable render : artifact -> string.

(** [process_csv(file_path)] in the shared folder: the table is read from
    the file, and the reports [process_csv] writes, which depend on the
    table alone, are written in the same order over what the folder
    holds. *)
Definition process_csv_at (file_path : string) (fd : Folder)
  : Folder * outcome (string * string * string * string) :=
  match read_folder file_path fd with
  | None => (fd, Failed (FileNotFoundError file_path))
  | Some body =>
      match read_csv body with
      | Raise e => (fd, Failed (Uncaught e))
      | Ok df0 =>
          let '(out, r) := process_csv df0 [] in
          (fold_right (fun e fd' => save (fst e) (render (snd e)) fd') fd out,
           match r with
           | Ok names => Returned names
           | Raise e => Failed (Uncaught e)
           end)
      end
  end.

(** [upload_file]: a [FileStorage] is true when its name is not empty.
    A secured name that is empty makes [file_path] the folder itself,
    which [file.save] cannot open for writing. *)
Definition upload_file (request : Request) (fd : Folder)
  : Folder * outcome response :=
  match files_get "file" (files request) with
  | None => (fd, Returned (Redirect (url request)))
  | Some file =>
      if String.eqb (filename file) ""
      then (fd, Returned (Redirect (url request)))
      else if negb (String.eqb (filename file) "")
              && allowed_file (filename file)
      then
        let name := secure_filename (filename file) in
        let file_path := path_join UPLOAD_FOLDER name in
        if String.eqb name "" then (fd, Failed (IsADirectoryError file_path))
        else
          let fd := save file_path (stream file) fd in
          match process_csv_at file_path fd with
          | (fd', Returned (avg, total, rep, sizes)) =>
              (fd', Returned (Json avg total rep sizes))
          | (fd', Failed e) => (fd', Failed e)
          end
      else (fd, Returned (Redirect (url request)))
  end.
End Web.

(** An upload of the three customers under the name of a report. *)
Definition upload_as_ltv : Request :=
  {| url := "/";
     files := [("file"%string,
                {| filename := "ltv.csv"; stream := "three customers" |})] |}.

(** ** Customers and calendar *)

(** The rows of the customer of [r]. *)
Definition of_customer (r : Row) (df : list Row) : list Row :=
  filter (fun r' => cell_eqb (customer_email r') (customer_email r)) df.

(** The months of a calendar: what every pandas [Timestamp] satisfies. *)
Definition calendar_month (t : Timestamp) : Prop := 1 <= month t <= 12.

(** ** Double precision *)

(** Lines 44 to 73 compute on float64 columns.  A finite float64 is kept
    here as the rational number it denotes, and an operation gives the
    float64 nearest to its exact result, ties going to the even
    significand.  The frames defined above carry the same computation
    without the rounding; the ones below round as pandas does.  A result
    beyond the largest float64, an infinity in pandas, is outside the
    model: [is_float64] holds of no such number. *)

(** [num / den] over [2 ^ k], as a fraction. *)
Definition scale2 (num den k : Z) : Z * Z :=
  if 0 <=? k then (num, den * 2 ^ k) else (num * 2 ^ (- k), den).

(** The exponent [e] with [2 ^ e <= num / den < 2 ^ (e + 1)], for
    positive [num] and [den]. *)
Definition floor_log2 (num den : Z) : Z :=
  let e0 := Z.log2 num - Z.log2 den in
  let '(n, d) := scale2 num den e0 in
  if d <=? n then e0 else e0 - 1.

(** The nearest float64: 53 significant bits, the last of them no finer
    than [2 ^ -1074], ties to even. *)
Definition round64_Q (x : Q) : Q :=
  let a := Z.abs (Qnum x) in
  if a =? 0 then 0%Q
  else
    let e := floor_log2 a (Zpos (Qden x)) in
    let q := Z.max (e - 52) (-1074) in
    let '(n, d) := scale2 a (Zpos (Qden x)) q in
    let m := n / d in
    let m' := match 2 * (n mod d) ?= d with
              | Lt => m
              | Gt => m + 1
              | Eq => if Z.even m then m else m + 1
              end in
    let v := if 0 <=? q then inject_Z (m' * 2 ^ q)
             else (m' # Z.to_pos (2 ^ (- q)))%Q in
    if 0 <? Qnum x then v else Qopp v.

Definition round64 (x : Qc) : Qc := Q2Qc (round64_Q x).

(** The largest float64. *)
Definition max_float64 : Q := inject_Z ((2 ^ 53 - 1) * 2 ^ 971).

Definition is_float64 (x : Qc) : bool :=
  Qc_eqb (round64 x) x
  && Qle_bool (Qopp max_float64) x && Qle_bool x max_float64.

Definition add64 (x y : Qc) : Qc := round64 (x + y)%Qc.
Definition sub64 (x y : Qc) : Qc := round64 (x - y)%Qc.
Definition div64 (x y : Qc) : Qc := round64 (x / y)%Qc.

(** Line 44: the amount of a row as [astype(float)] leaves it. *)
Definition total_sales64 (r : Row) : option Qc :=
  option_map round64 (total_sales r).

(** One step of the compensated (Kahan) summation by which pandas adds
    the float64 values of a group, in [sum] and in [cumsum]: the sum and
    the compensation reached, then the value met. *)
Definition kahan_step (sc : Qc * Qc) (val : Qc) : Qc * Qc :=
  let '(sumx, compensation) := sc in
  let y := sub64 val compensation in
  let t := add64 sumx y in
  (t, sub64 (sub64 t sumx) y).

(** [sum] of one group of a float64 column, in the order of the rows:
    NaN is skipped and the sum of no value is 0. *)
Definition group_sum (l : list (option Qc)) : Qc :=
  fst (fold_left kahan_step (somes l) (0%Qc, 0%Qc)).

(** Line 47 in float64. *)
Definition monthly_sum64 (df : list Row) : list (Z * Z * Qc) :=
  map (fun k => (k, group_sum (map total_sales64 (filter (has_month_key k) df))))
      (sorted_unique pair_ltb (somes (map month_key df))).

(** Line 50 in float64: [acc] holds the sum and the compensation reached
    in each cohort. *)
Fixpoint groupby_cumsum64 (acc : Z -> Qc * Qc) (rows : list (Z * Z * Qc))
  : list Qc :=
  match rows with
  | [] => []
  | (c, _, v) :: tl =>
      let sc := kahan_step (acc c) v in
      fst sc :: groupby_cumsum64 (fun c' => if c' =? c then sc else acc c') tl
  end.

(** Lines 47 to 63 in float64. *)
Definition cohort_monthly_spend64 (df : list Row) : list Spend :=
  let sums := monthly_sum64 df in
  let cums := groupby_cumsum64 (fun _ => (0%Qc, 0%Qc)) sums in
  flat_map (fun sc =>
              let '(c, p, v, cum) := sc in
              map (fun cs =>
                     {| spend_cohort_month := c;
                        spend_purchase_month := p;
                        spend_total_sales := v;
                        cumulative_total_spent := cum;
                        cohort_size := snd cs;
                        avg_cumulative_total_spent :=
                          div64 cum (Qc_of_nat (snd cs));
                        months_since_initial_purchase := period_diff_n p c |})
                  (filter (fun cs => fst cs =? c) (cohort_sizes df)))
           (combine sums cums).

(** Lines 66 and 73 in float64; each cell holds the one value that falls
    in it, of which the mean is that value. *)
Definition ltv64 (df : list Row) : PivotTable :=
  pivot_table 0%Qc
    (map (fun s => (spend_cohort_month s, months_since_initial_purchase s,
                    avg_cumulative_total_spent s))
         (cohort_monthly_spend64 df)).

Definition revenue64 (df : list Row) : PivotTable :=
  pivot_table 0%Qc
    (map (fun s => (spend_cohort_month s, months_since_initial_purchase s,
                    spend_total_sales s))
         (cohort_monthly_spend64 df)).

Definition spend_row64 (df : list Row) (sc : Z * Z * Qc * Qc) : Spend :=
  let '(c, p, v, cum) := sc in
  {| spend_cohort_month := c;
     spend_purchase_month := p;
     spend_total_sales := v;
     cumulative_total_spent := cum;
     cohort_size := cohort_size_of df c;
     avg_cumulative_total_spent := div64 cum (Qc_of_nat (cohort_size_of df c));
     months_since_initial_purchase := period_diff_n p c |}.

(** A row of [cohort_monthly_spend] without its average. *)
Definition sums_of (s : Spend) : Z * Z * Qc * Qc * nat * Z :=
  (spend_cohort_month s, spend_purchase_month s, spend_total_sales s,
   cumulative_total_spent s, cohort_size s, months_since_initial_purchase s).

(** No addition of the sum of [l] onto [acc] is rounded: every value and
    every sum reached is a float64. *)
Fixpoint adds_exactly (acc : Qc) (l : list Qc) : bool :=
  match l with
  | [] => true
  | v :: tl =>
      is_float64 v && is_float64 (acc + v)%Qc && adds_exactly (acc + v)%Qc tl
  end.

(** The same for the running sums of line 50. *)
Fixpoint cumsum_exactly (acc : Z -> Qc) (rows : list (Z * Z * Qc)) : bool :=
  match rows with
  | [] => true
  | (c, _, v) :: tl =>
      is_float64 v && is_float64 (acc c + v)%Qc
      && cumsum_exactly (fun c' => if c' =? c then (acc c + v)%Qc else acc c') tl
  end.

(** No addition of the monthly totals of line 47 is rounded on the frame
    [df]. *)
Definition totals_exactly (df : list Row) : bool :=
  forallb (fun k => adds_exactly 0%Qc
                      (somes (map total_sales (filter (has_month_key k) df))))
          (sorted_unique pair_ltb (somes (map month_key df))).

(** No addition of lines 47 and 50 is rounded on the frame [df]: whole
    amounts of moderate size are the plain case. *)
Definition sums_exactly (df : list Row) : bool :=
  totals_exactly df && cumsum_exactly (fun _ => 0%Qc) (monthly_sum df).

(** ** Whole amounts *)

Definition Qc_of_Z (z : Z) : Qc := Q2Qc (inject_Z z).

Definition Zsum (l : list Z) : Z := fold_right Z.add 0 l.

Definition abs_sum (l : list Z) : Z := fold_right Z.add 0 (map Z.abs l).

(** The amount of a row when it is a whole number; 0 for NaN, which the
    sums skip. *)
Definition amount_num (r : Row) : Z :=
  match total_sales r with Some x => Qnum x | None => 0 end.

Definition whole_amount (r : Row) : bool :=
  match total_sales r with
  | Some x => (Qden x =? 1)%positive
  | None => true
  end.

(** Every amount of the frame is a whole number, and the absolute values
    of the amounts add up to less than [2 ^ 53]. *)
Definition whole_amounts (df : list Row) : bool :=
  forallb whole_amount df && (abs_sum (map amount_num df) <? 2 ^ 53).

(** The monthly totals of whole amounts, as integers. *)
Definition monthly_num (df : list Row) : list (Z * Z * Z) :=
  map (fun k => (k, Zsum (map amount_num (filter (has_month_key k) df))))
      (sorted_unique pair_ltb (somes (map month_key df))).

(** The float64 that [read_csv] reads for the decimal [n / d]. *)
Definition decimal (n : Z) (d : positive) : cell := CNum (round64 (rat n d)).

(** One customer: 0.1 in January, then 0.1 and 0.4 in February. *)
Definition tenths : DataFrame :=
  {| columns := ["customer_email"; "day"; "order_id"; "total_sales"]%string;
     values := [ [CStr "A"; date 2023 1 10; CStr "o1"; decimal 1 10];
                 [CStr "A"; date 2023 2 5; CStr "o2"; decimal 1 10];
                 [CStr "A"; date 2023 2 20; CStr "o3"; decimal 4 10] ] |}.

(** One customer: 0.05 in January, 0.15 in February and an order of 0 in
    March. *)
Definition free_order : DataFrame :=
  {| columns := ["customer_email"; "day"; "order_id"; "total_sales"]%string;
     values := [ [CStr "A"; date 2023 1 10; CStr "o1"; decimal 5 100];
                 [CStr "A"; date 2023 2 10; CStr "o2"; decimal 15 100];
                 [CStr "A"; date 2023 3 10; CStr "o3"; amount 0] ] |}.

Definition tenths_enriched : list Row :=
  Eval vm_compute in
    match enrich tenths with
    | Ok df => df
    | Raise _ => []
    end.

Definition free_order_enriched : list Row :=
  Eval vm_compute in
    match enrich free_order with
    | Ok df => df
    | Raise _ => []
    end.

(** The sum of float64 values taken from left to right. *)
Definition sum64 (l : list Qc) : Qc := fold_left add64 l 0%Qc.

(** * Properties *)

(** ** Ascending keys *)

Section SortedKeysFacts.
Variable K : Type.
Variable ltb : K -> K -> bool.
Hypothesis ltb_irrefl : forall a, ltb a a = false.
Hypothesis ltb_trans :
  forall a b c, ltb a b = true -> ltb b c = true -> ltb a c = true.
Hypothesis ltb_total :
  forall a b, ltb a b = false -> ltb b a = false -> a = b.

Lemma In_insert_key k l y :
  In y (insert_key ltb k l) <-> y = k \/ In y l.
Proof.
  induction l as [|x tl IH]; simpl.
  - intuition.
  - destruct (ltb k x) eqn:Hkx; simpl.
    + intuition.
    + destruct (ltb x k) eqn:Hxk; simpl.
      * rewrite IH. intuition.
      * assert (k = x) by (apply ltb_total; assumption). subst.
        intuition.
Qed.

Lemma In_sorted_unique l y : In y (sorted_unique ltb l) <-> In y l.
Proof.
  induction l as [|x tl IH]; simpl.
  - reflexivity.
  - rewrite In_insert_key, IH. intuition.
Qed.

Lemma insert_key_sorted k l :
  StronglySorted (lt_key ltb) l -> StronglySorted (lt_key ltb) (insert_key ltb k l).
Proof.
  induction 1 as [|x tl Hs IH Hall]; simpl.
  - repeat constructor.
  - destruct (ltb k x) eqn:Hkx.
    + constructor; [constructor; assumption|].
      constructor; [exact Hkx|].
      rewrite Forall_forall in *. intros y Hy.
      eapply ltb_trans; [exact Hkx | apply Hall, Hy].
    + destruct (ltb x k) eqn:Hxk.
      * constructor; [exact IH|].
        rewrite Forall_forall in *. intros y Hy.
        apply In_insert_key in Hy. destruct Hy as [->|Hy]; auto.
      * constructor; assumption.
Qed.

Lemma sorted_unique_sorted l : StronglySorted (lt_key ltb) (sorted_unique ltb l).
Proof.
  induction l; simpl; [constructor | apply insert_key_sorted; assumption].
Qed.

Lemma sorted_NoDup l : StronglySorted (lt_key ltb) l -> NoDup l.
Proof.
  induction 1 as [|x tl Hs IH Hall]; constructor; auto.
  intro Hin. rewrite Forall_forall in Hall.
  specialize (Hall x Hin). unfold lt_key in Hall.
  rewrite ltb_irrefl in Hall. discriminate.
Qed.

Lemma sorted_unique_NoDup l : NoDup (sorted_unique ltb l).
Proof. apply sorted_NoDup, sorted_unique_sorted. Qed.
End SortedKeysFacts.

Lemma pair_eqb_eq a b : pair_eqb a b = true <-> a = b.
Proof.
  destruct a as [a1 a2], b as [b1 b2]; unfold pair_eqb; simpl.
  rewrite andb_true_iff, !Z.eqb_eq. split.
  - intros [-> ->]. reflexivity.
  - intros [= -> ->]. auto.
Qed.

Lemma pair_eqb_refl a : pair_eqb a a = true.
Proof. apply pair_eqb_eq. reflexivity. Qed.

Lemma pair_ltb_irrefl a : pair_ltb a a = false.
Proof.
  unfold pair_ltb. rewrite Z.ltb_irrefl, Z.eqb_refl, Z.ltb_irrefl. reflexivity.
Qed.

Lemma pair_ltb_spec a b :
  pair_ltb a b = true <->
  (fst a < fst b \/ (fst a = fst b /\ snd a < snd b)).
Proof.
  unfold pair_ltb.
  rewrite orb_true_iff, andb_true_iff, !Z.ltb_lt, Z.eqb_eq. reflexivity.
Qed.

Lemma pair_ltb_trans a b c :
  pair_ltb a b = true -> pair_ltb b c = true -> pair_ltb a c = true.
Proof. rewrite !pair_ltb_spec. lia. Qed.

Lemma pair_ltb_total a b :
  pair_ltb a b = false -> pair_ltb b a = false -> a = b.
Proof.
  intros H1 H2.
  assert (N1 : ~ (fst a < fst b \/ (fst a = fst b /\ snd a < snd b))).
  { rewrite <- pair_ltb_spec, H1. discriminate. }
  assert (N2 : ~ (fst b < fst a \/ (fst b = fst a /\ snd b < snd a))).
  { rewrite <- pair_ltb_spec, H2. discriminate. }
  destruct a, b; simpl in *. f_equal; lia.
Qed.

Lemma Zltb_trans a b c : (a <? b) = true -> (b <? c) = true -> (a <? c) = true.
Proof. rewrite !Z.ltb_lt. lia. Qed.

Lemma Zltb_total a b : (a <? b) = false -> (b <? a) = false -> a = b.
Proof. rewrite !Z.ltb_ge. lia. Qed.

Lemma In_month_keys k l :
  In k (sorted_unique pair_ltb l) <-> In k l.
Proof. apply In_sorted_unique, pair_ltb_total. Qed.

Lemma In_months c l : In c (sorted_unique Z.ltb l) <-> In c l.
Proof. apply In_sorted_unique, Zltb_total. Qed.

Lemma month_keys_sorted l :
  StronglySorted (lt_key pair_ltb) (sorted_unique pair_ltb l).
Proof. apply sorted_unique_sorted; [apply pair_ltb_trans | apply pair_ltb_total]. Qed.

Lemma month_keys_NoDup l : NoDup (sorted_unique pair_ltb l).
Proof.
  apply sorted_unique_NoDup;
    [apply pair_ltb_irrefl | apply pair_ltb_trans | apply pair_ltb_total].
Qed.

Lemma months_sorted l : StronglySorted (lt_key Z.ltb) (sorted_unique Z.ltb l).
Proof. apply sorted_unique_sorted; [apply Zltb_trans | apply Zltb_total]. Qed.

Lemma months_NoDup l : NoDup (sorted_unique Z.ltb l).
Proof.
  apply sorted_unique_NoDup;
    [apply Z.ltb_irrefl | apply Zltb_trans | apply Zltb_total].
Qed.

(** ** Lists *)

Lemma In_somes {A} (a : A) l : In a (somes l) <-> In (Some a) l.
Proof.
  induction l as [|[x|] tl IH]; simpl.
  - reflexivity.
  - rewrite IH. split; intros [H|H]; auto; left; congruence.
  - rewrite IH. split; [auto | intros [H|H]; [discriminate | auto]].
Qed.

Lemma flat_map_singleton {A B} (f : A -> list B) (g : A -> B) l :
  (forall x, In x l -> f x = [g x]) -> flat_map f l = map g l.
Proof.
  induction l as [|x tl IH]; simpl; intros H.
  - reflexivity.
  - rewrite (H x) by auto. simpl. f_equal. apply IH. auto.
Qed.

Lemma filter_nil {A} (f : A -> bool) l :
  (forall x, In x l -> f x = false) -> filter f l = [].
Proof.
  induction l as [|x tl IH]; simpl; intros H.
  - reflexivity.
  - rewrite (H x) by auto. apply IH. auto.
Qed.

(** In a list whose keys are pairwise distinct, selecting by the key of a
    member returns that member alone. *)
Lemma filter_unique_key {A K} (key : A -> K) (eqb : K -> K -> bool) l x :
  (forall a b, eqb a b = true <-> a = b) ->
  NoDup (map key l) -> In x l ->
  filter (fun y => eqb (key y) (key x)) l = [x].
Proof.
  intros Heq. induction l as [|y tl IH]; simpl; intros Hnd Hin.
  - contradiction.
  - inversion Hnd as [|? ? Hnotin Hnd']; subst.
    destruct Hin as [->|Hin].
    + rewrite (proj2 (Heq _ _) eq_refl). f_equal.
      apply filter_nil. intros z Hz.
      destruct (eqb (key z) (key x)) eqn:E; [|reflexivity].
      apply Heq in E. exfalso. apply Hnotin. rewrite <- E.
      apply in_map, Hz.
    + destruct (eqb (key y) (key x)) eqn:E.
      * apply Heq in E. exfalso. apply Hnotin. rewrite E.
        apply in_map, Hin.
      * apply IH; assumption.
Qed.

Lemma assoc_map {A} (f : Z -> A) k keys :
  In k keys -> assoc k keys (map f keys) = Some (f k).
Proof.
  induction keys as [|x tl IH]; simpl; intros H.
  - contradiction.
  - destruct (x =? k) eqn:E.
    + apply Z.eqb_eq in E. subst. reflexivity.
    + destruct H as [->|H]; [rewrite Z.eqb_refl in E; discriminate|].
      apply IH, H.
Qed.

Lemma assoc_notin {A} k keys (vals : list A) :
  ~ In k keys -> assoc k keys vals = None.
Proof.
  revert vals. induction keys as [|x tl IH]; simpl; intros vals H.
  - reflexivity.
  - destruct vals as [|v vs]; [reflexivity|].
    destruct (x =? k) eqn:E.
    + apply Z.eqb_eq in E. exfalso. auto.
    + apply IH. auto.
Qed.

(** ** Rational sums *)

Lemma Qc_of_nat_1 : Qc_of_nat 1 = 1%Qc.
Proof. apply Qc_is_canon. reflexivity. Qed.

Lemma mean_singleton v : mean [v] = v.
Proof.
  unfold mean. simpl. rewrite Qc_of_nat_1, Qcplus_0_r.
  unfold Qcdiv. field. apply Q_apart_0_1.
Qed.

Lemma Qcsum_app l l' : Qcsum (l ++ l') = (Qcsum l + Qcsum l')%Qc.
Proof.
  induction l as [|x tl IH]; simpl.
  - rewrite Qcplus_0_l. reflexivity.
  - rewrite IH. apply Qcplus_assoc.
Qed.

Lemma Qcsum_nonneg l : Forall (fun x => (0 <= x)%Qc) l -> (0 <= Qcsum l)%Qc.
Proof.
  induction 1 as [|x tl Hx _ IH]; simpl.
  - apply Qcle_refl.
  - replace 0%Qc with (0 + 0)%Qc by apply Qcplus_0_l.
    apply Qcplus_le_compat; assumption.
Qed.

(** ** The aggregated frames *)

Lemma month_key_cohort r k : month_key r = Some k -> cohort_month r = Some (fst k).
Proof.
  unfold month_key. destruct (cohort_month r), (purchase_month r); try discriminate.
  intros [= <-]. reflexivity.
Qed.

Lemma month_key_purchase r k :
  month_key r = Some k -> purchase_month r = Some (snd k).
Proof.
  unfold month_key. destruct (cohort_month r), (purchase_month r); try discriminate.
  intros [= <-]. reflexivity.
Qed.

Lemma In_month_key_cohort df k :
  In k (somes (map month_key df)) -> In (fst k) (somes (map cohort_month df)).
Proof.
  rewrite !In_somes, !in_map_iff. intros (r & Hk & Hr).
  exists r. split; [apply month_key_cohort, Hk | exact Hr].
Qed.

(** Every cohort has exactly one row in [cohort_sizes]. *)
Lemma cohort_sizes_lookup df c :
  In c (somes (map cohort_month df)) ->
  filter (fun cs => fst cs =? c) (cohort_sizes df) = [(c, cohort_size_of df c)].
Proof.
  intros Hc. unfold cohort_sizes.
  change (fun c0 => (c0, nunique (map customer_email (filter (in_cohort c0) df))))
    with (fun c0 => (c0, cohort_size_of df c0)).
  set (mk := fun c0 => (c0, cohort_size_of df c0)).
  change (c, cohort_size_of df c) with (mk c).
  change (fun cs : Z * nat => fst cs =? c)
    with (fun cs : Z * nat => Z.eqb (fst cs) (fst (mk c))).
  apply filter_unique_key.
  - intros a b. apply Z.eqb_eq.
  - rewrite map_map. simpl. rewrite map_id. apply months_NoDup.
  - apply in_map, In_months, Hc.
Qed.

Lemma cohort_sizes_absent df c :
  ~ In c (somes (map cohort_month df)) ->
  filter (fun cs => fst cs =? c) (cohort_sizes df) = [].
Proof.
  intros Hc. apply filter_nil. intros [c' n] Hin. simpl.
  apply Z.eqb_neq. intros ->. apply Hc.
  unfold cohort_sizes in Hin. apply in_map_iff in Hin.
  destruct Hin as (c0 & [= <- _] & Hin). rewrite In_months in Hin. exact Hin.
Qed.

Lemma groupby_cumsum_length rows : forall acc,
  length (groupby_cumsum acc rows) = length rows.
Proof.
  induction rows as [|[[c p] v] tl IH]; simpl; intros acc.
  - reflexivity.
  - rewrite IH. reflexivity.
Qed.

Lemma monthly_sum_keys df :
  map fst (monthly_sum df) = sorted_unique pair_ltb (somes (map month_key df)).
Proof. unfold monthly_sum. rewrite map_map. simpl. apply map_id. Qed.

(** The join of line 57 keeps every row of the monthly sums, once. *)
Lemma cohort_monthly_spend_rows df :
  cohort_monthly_spend df =
  map (spend_row df)
      (combine (monthly_sum df)
               (groupby_cumsum (fun _ => 0%Qc) (monthly_sum df))).
Proof.
  unfold cohort_monthly_spend. apply flat_map_singleton.
  intros [[[c p] v] cum] Hin.
  rewrite cohort_sizes_lookup; [reflexivity|].
  apply in_combine_l in Hin.
  apply (in_map fst) in Hin. rewrite monthly_sum_keys in Hin. simpl in Hin.
  rewrite In_month_keys in Hin. apply In_month_key_cohort in Hin. exact Hin.
Qed.

Lemma map_fst_combine {A B} (l : list A) (l' : list B) :
  length l = length l' -> map fst (combine l l') = l.
Proof.
  revert l'. induction l as [|x tl IH]; intros [|y tl']; simpl; intros H;
    try discriminate; try reflexivity.
  f_equal. apply IH. lia.
Qed.

Lemma spend_keys df :
  map (fun s => (spend_cohort_month s, spend_purchase_month s))
      (cohort_monthly_spend df)
  = sorted_unique pair_ltb (somes (map month_key df)).
Proof.
  rewrite cohort_monthly_spend_rows, map_map.
  rewrite <- monthly_sum_keys.
  transitivity (map fst (map fst (combine (monthly_sum df)
                  (groupby_cumsum (fun _ => 0%Qc) (monthly_sum df))))).
  - rewrite map_map. apply map_ext. intros [[[c p] v] cum]. reflexivity.
  - rewrite map_fst_combine by (symmetry; apply groupby_cumsum_length).
    reflexivity.
Qed.

Lemma repeat_counts_keys df :
  map fst (repeat_counts df)
  = sorted_unique pair_ltb
      (somes (map month_key (filter is_repeat_purchase df))).
Proof. unfold repeat_counts. rewrite map_map. simpl. apply map_id. Qed.

(** The join of line 88 keeps every row of the repeat counts, once. *)
Lemma repeat_purchasers_frame_rows df :
  repeat_purchasers_frame df = map (repeat_row df) (repeat_counts df).
Proof.
  unfold repeat_purchasers_frame. fold (repeat_counts df).
  apply flat_map_singleton.
  intros [[c p] n] Hin.
  rewrite cohort_sizes_lookup; [reflexivity|].
  apply (in_map fst) in Hin. rewrite repeat_counts_keys in Hin. simpl in Hin.
  rewrite In_month_keys in Hin.
  rewrite In_somes, in_map_iff in Hin. destruct Hin as (r & Hk & Hr).
  apply filter_In in Hr. destruct Hr as [Hr _].
  rewrite In_somes, in_map_iff. exists r. split; [|exact Hr].
  apply month_key_cohort in Hk. exact Hk.
Qed.

Lemma repeat_keys df :
  map (fun r => (repeat_cohort_month r, repeat_purchase_month r))
      (repeat_purchasers_frame df)
  = sorted_unique pair_ltb
      (somes (map month_key (filter is_repeat_purchase df))).
Proof.
  rewrite repeat_purchasers_frame_rows, map_map, <- repeat_counts_keys.
  apply map_ext. intros [[c p] n]. reflexivity.
Qed.

(** ** Pivot tables *)

Lemma cell_at_pivot fill rows i c :
  In i (map (fun r => fst (fst r)) rows) ->
  In c (map (fun r => snd (fst r)) rows) ->
  cell_at (pivot_table fill rows) i c = Some (pivot_cell fill rows i c).
Proof.
  intros Hi Hc. unfold cell_at, row_at, pivot_table. simpl.
  rewrite assoc_map by (apply In_months, Hi).
  apply assoc_map. apply In_months, Hc.
Qed.

Lemma cell_at_no_row fill rows i c :
  ~ In i (map (fun r => fst (fst r)) rows) ->
  cell_at (pivot_table fill rows) i c = None.
Proof.
  intros Hi. unfold cell_at, row_at, pivot_table. simpl.
  rewrite assoc_notin; [reflexivity|]. rewrite In_months. exact Hi.
Qed.

(** A cell that exactly one row falls in holds the value of that row. *)
Lemma pivot_cell_single {A} (key : A -> Z * Z) (val : A -> Qc) fill l x :
  NoDup (map key l) -> In x l ->
  pivot_cell fill (map (fun y => (key y, val y)) l) (fst (key x)) (snd (key x))
  = val x.
Proof.
  intros Hnd Hin. unfold pivot_cell.
  assert (E : filter (fun r : Z * Z * Qc =>
                        pair_eqb (fst r) (fst (key x), snd (key x)))
                     (map (fun y => (key y, val y)) l)
              = [(key x, val x)]).
  { rewrite <- surjective_pairing.
    change (key x, val x) with ((fun y => (key y, val y)) x).
    set (kv := fun y => (key y, val y)).
    change (fun r : Z * Z * Qc => pair_eqb (fst r) (key x))
      with (fun r : Z * Z * Qc => pair_eqb (fst r) (fst (kv x))).
    apply filter_unique_key.
    - apply pair_eqb_eq.
    - rewrite map_map. exact Hnd.
    - apply in_map, Hin. }
  rewrite E. simpl. apply mean_singleton.
Qed.

Lemma offset_key_injective (a b : Z * Z) :
  (fst a, period_diff_n (snd a) (fst a)) = (fst b, period_diff_n (snd b) (fst b)) ->
  a = b.
Proof.
  destruct a, b. unfold period_diff_n. simpl. intros [= -> H]. f_equal. lia.
Qed.

Lemma NoDup_offset_keys (l : list (Z * Z)) :
  NoDup l -> NoDup (map (fun k => (fst k, period_diff_n (snd k) (fst k))) l).
Proof.
  induction 1 as [|k tl Hnotin Hnd IH]; simpl; constructor; auto.
  rewrite in_map_iff. intros (k' & E & Hin).
  apply offset_key_injective in E. subst. auto.
Qed.

Lemma spend_offset s df :
  In s (cohort_monthly_spend df) ->
  months_since_initial_purchase s
  = period_diff_n (spend_purchase_month s) (spend_cohort_month s).
Proof.
  rewrite cohort_monthly_spend_rows, in_map_iff.
  intros ([[[c p] v] cum] & <- & _). reflexivity.
Qed.

Lemma repeat_offset r df :
  In r (repeat_purchasers_frame df) ->
  repeat_months_since_initial_purchase r
  = period_diff_n (repeat_purchase_month r) (repeat_cohort_month r).
Proof.
  rewrite repeat_purchasers_frame_rows, in_map_iff.
  intros ([[c p] n] & <- & _). reflexivity.
Qed.

Lemma spend_cells_NoDup df : NoDup (map spend_cell (cohort_monthly_spend df)).
Proof.
  assert (E : map spend_cell (cohort_monthly_spend df)
              = map (fun k => (fst k, period_diff_n (snd k) (fst k)))
                    (map (fun s => (spend_cohort_month s, spend_purchase_month s))
                         (cohort_monthly_spend df))).
  { rewrite map_map. apply map_ext_in. intros s Hs. unfold spend_cell. simpl.
    rewrite (spend_offset _ _ Hs). reflexivity. }
  rewrite E, spend_keys. apply NoDup_offset_keys, month_keys_NoDup.
Qed.

Lemma repeat_cells_NoDup df :
  NoDup (map repeat_cell (repeat_purchasers_frame df)).
Proof.
  assert (E : map repeat_cell (repeat_purchasers_frame df)
              = map (fun k => (fst k, period_diff_n (snd k) (fst k)))
                    (map (fun r => (repeat_cohort_month r, repeat_purchase_month r))
                         (repeat_purchasers_frame df))).
  { rewrite map_map. apply map_ext_in. intros r Hr. unfold repeat_cell. simpl.
    rewrite (repeat_offset _ _ Hr). reflexivity. }
  rewrite E, repeat_keys. apply NoDup_offset_keys, month_keys_NoDup.
Qed.

(** ** Offsets within a cohort *)

(** C10. Within a cohort month, distinct purchase months have distinct
    offsets, so every (cohort month, offset) cell of the three pivot tables
    is fed by exactly one aggregate row and the mean taken by the pivot
    returns the value of that row unchanged. *)
Theorem pivot_cells_from_one_row (df : list Row) :
  (forall c p p', period_diff_n p c = period_diff_n p' c -> p = p') /\
  (forall s, In s (cohort_monthly_spend df) ->
     filter (fun s' => pair_eqb (spend_cell s') (spend_cell s))
            (cohort_monthly_spend df) = [s] /\
     cell_at (ltv df) (spend_cohort_month s) (months_since_initial_purchase s)
       = Some (avg_cumulative_total_spent s) /\
     cell_at (revenue df) (spend_cohort_month s) (months_since_initial_purchase s)
       = Some (spend_total_sales s)) /\
  (forall r, In r (repeat_purchasers_frame df) ->
     filter (fun r' => pair_eqb (repeat_cell r') (repeat_cell r))
            (repeat_purchasers_frame df) = [r] /\
     cell_at (repeat_purchase_rate_table df) (repeat_cohort_month r)
             (repeat_months_since_initial_purchase r)
       = Some (repeat_purchase_rate r)).
Proof.
  split; [|split].
  - unfold period_diff_n. intros. lia.
  - intros s Hs. split; [|split].
    + apply filter_unique_key;
        [apply pair_eqb_eq | apply spend_cells_NoDup | exact Hs].
    + unfold ltv. rewrite cell_at_pivot.
      * f_equal.
        apply (pivot_cell_single spend_cell avg_cumulative_total_spent);
          [apply spend_cells_NoDup | exact Hs].
      * rewrite map_map. simpl.
        apply (in_map spend_cohort_month) in Hs. exact Hs.
      * rewrite map_map. simpl.
        apply (in_map months_since_initial_purchase) in Hs. exact Hs.
    + unfold revenue. rewrite cell_at_pivot.
      * f_equal.
        apply (pivot_cell_single spend_cell spend_total_sales);
          [apply spend_cells_NoDup | exact Hs].
      * rewrite map_map. simpl.
        apply (in_map spend_cohort_month) in Hs. exact Hs.
      * rewrite map_map. simpl.
        apply (in_map months_since_initial_purchase) in Hs. exact Hs.
  - intros r Hr. split.
    + apply filter_unique_key;
        [apply pair_eqb_eq | apply repeat_cells_NoDup | exact Hr].
    + unfold repeat_purchase_rate_table. rewrite cell_at_pivot.
      * f_equal.
        apply (pivot_cell_single repeat_cell repeat_purchase_rate);
          [apply repeat_cells_NoDup | exact Hr].
      * rewrite map_map. simpl.
        apply (in_map repeat_cohort_month) in Hr. exact Hr.
      * rewrite map_map. simpl.
        apply (in_map repeat_months_since_initial_purchase) in Hr. exact Hr.
Qed.

(** ** The running sum *)

Lemma sorted_middle {A} (R : A -> A -> Prop) pre x post :
  StronglySorted R (pre ++ x :: post) ->
  Forall (fun y => R y x) pre /\ Forall (R x) post.
Proof.
  induction pre as [|y tl IH]; simpl; intros H.
  - inversion H; subst. split; [constructor | assumption].
  - inversion H as [|? ? Hs Hall]; subst.
    destruct (IH Hs) as [Hpre Hpost]. split; [|exact Hpost].
    constructor; [|exact Hpre].
    rewrite Forall_forall in Hall. apply Hall.
    apply in_or_app. right. left. reflexivity.
Qed.

(** Each running sum is the sum carried into the cohort plus the totals of
    the rows of that cohort met so far, the current one included. *)
Lemma groupby_cumsum_prefix rows : forall acc r cum,
  In (r, cum) (combine rows (groupby_cumsum acc rows)) ->
  exists pre post,
    rows = pre ++ r :: post /\
    cum = (acc (fst (fst r))
           + Qcsum (map snd (filter (fun r' => fst (fst r') =? fst (fst r))
                                    (pre ++ [r]))))%Qc.
Proof.
  induction rows as [|[[c p] v] tl IH]; simpl; intros acc r cum Hin.
  - contradiction.
  - destruct Hin as [[= <- <-]|Hin].
    + exists [], tl. simpl. rewrite Z.eqb_refl. simpl.
      rewrite Qcplus_0_r. split; reflexivity.
    + apply IH in Hin. destruct Hin as (pre & post & -> & ->).
      exists ((c, p, v) :: pre), post. split; [reflexivity|].
      simpl. rewrite (Z.eqb_sym c).
      destruct (fst (fst r) =? c) eqn:E; simpl.
      * apply Z.eqb_eq in E. rewrite E.
        rewrite !Qcplus_assoc. reflexivity.
      * reflexivity.
Qed.

Lemma filter_ext_Forall {A} (f g : A -> bool) l :
  Forall (fun x => f x = g x) l -> filter f l = filter g l.
Proof.
  induction 1 as [|x tl Hx _ IH]; simpl; [reflexivity|].
  rewrite Hx, IH. reflexivity.
Qed.

(** In rows ascending by (cohort, month), the rows of a cohort met up to a
    row are those of that cohort with a month up to its month. *)
Lemma sorted_prefix_filter (pre post : list (Z * Z * Qc)) r :
  StronglySorted (lt_key pair_ltb) (map fst (pre ++ r :: post)) ->
  filter (fun r' => (fst (fst r') =? fst (fst r))
                    && (snd (fst r') <=? snd (fst r)))
         (pre ++ r :: post)
  = filter (fun r' => fst (fst r') =? fst (fst r)) (pre ++ [r]).
Proof.
  intros Hs. rewrite map_app in Hs. simpl in Hs.
  apply sorted_middle in Hs. destruct Hs as [Hpre Hpost].
  rewrite !filter_app. f_equal.
  - apply filter_ext_Forall. rewrite Forall_forall in *.
    intros x Hx. specialize (Hpre (fst x) (in_map fst _ _ Hx)).
    unfold lt_key in Hpre. apply pair_ltb_spec in Hpre.
    destruct (fst (fst x) =? fst (fst r)) eqn:E; [|reflexivity].
    apply Z.eqb_eq in E. simpl. apply Z.leb_le. lia.
  - simpl. rewrite Z.eqb_refl, Z.leb_refl. simpl. f_equal.
    apply filter_nil. intros x Hx. rewrite Forall_forall in Hpost.
    specialize (Hpost (fst x) (in_map fst _ _ Hx)).
    unfold lt_key in Hpost. apply pair_ltb_spec in Hpost.
    destruct (fst (fst x) =? fst (fst r)) eqn:E; [|reflexivity].
    apply Z.eqb_eq in E. simpl. apply Z.leb_gt. lia.
Qed.

Lemma monthly_sum_sorted df :
  StronglySorted (lt_key pair_ltb) (map fst (monthly_sum df)).
Proof. rewrite monthly_sum_keys. apply month_keys_sorted. Qed.

(** The cumulative total of a row of the monthly sums, as a sum over the
    months of its cohort up to its own. *)
Lemma cumsum_running df r cum :
  In (r, cum) (combine (monthly_sum df)
                       (groupby_cumsum (fun _ => 0%Qc) (monthly_sum df))) ->
  cum = Qcsum (map snd
                 (filter (fun r' => (fst (fst r') =? fst (fst r))
                                    && (snd (fst r') <=? snd (fst r)))
                         (monthly_sum df))).
Proof.
  intros Hin. apply groupby_cumsum_prefix in Hin.
  destruct Hin as (pre & post & E & ->).
  rewrite Qcplus_0_l.
  pose proof (monthly_sum_sorted df) as Hs. rewrite E in Hs |- *.
  rewrite sorted_prefix_filter by exact Hs. reflexivity.
Qed.

Lemma Qcsum_filter_le {A} (val : A -> Qc) (f g : A -> bool) l :
  (forall x, In x l -> f x = true -> g x = true) ->
  (forall x, In x l -> (0 <= val x)%Qc) ->
  (Qcsum (map val (filter f l)) <= Qcsum (map val (filter g l)))%Qc.
Proof.
  induction l as [|x tl IH]; simpl; intros Himp Hpos.
  - apply Qcle_refl.
  - assert (IH' : (Qcsum (map val (filter f tl))
                   <= Qcsum (map val (filter g tl)))%Qc)
      by (apply IH; auto).
    destruct (f x) eqn:Ef.
    + rewrite (Himp x) by auto. simpl.
      apply Qcplus_le_compat; [apply Qcle_refl | exact IH'].
    + destruct (g x); simpl; [|exact IH'].
      rewrite <- (Qcplus_0_l (Qcsum (map val (filter f tl)))).
      apply Qcplus_le_compat; [apply Hpos; auto | exact IH'].
Qed.

Lemma filter_map_comm {A B} (g : A -> B) (f : B -> bool) l :
  filter f (map g l) = map g (filter (fun a => f (g a)) l).
Proof.
  induction l as [|x tl IH]; simpl; [reflexivity|].
  destruct (f (g x)); simpl; rewrite IH; reflexivity.
Qed.

(** The totals of the rows of [cohort_monthly_spend] selected by their
    months are those of the monthly sums selected the same way. *)
Lemma spend_totals_filter df (P : Z * Z -> bool) :
  map spend_total_sales
      (filter (fun s => P (spend_key s)) (cohort_monthly_spend df))
  = map snd (filter (fun r => P (fst r)) (monthly_sum df)).
Proof.
  rewrite cohort_monthly_spend_rows.
  set (X := combine (monthly_sum df)
                    (groupby_cumsum (fun _ => 0%Qc) (monthly_sum df))).
  assert (E : monthly_sum df = map fst X).
  { unfold X. rewrite map_fst_combine;
      [reflexivity | symmetry; apply groupby_cumsum_length]. }
  rewrite E. rewrite !filter_map_comm, !map_map.
  replace (filter (fun a => P (spend_key (spend_row df a))) X)
    with (filter (fun a => P (fst (fst a))) X).
  - apply map_ext. intros [[[c p] v] cum]. reflexivity.
  - apply filter_ext. intros [[[c p] v] cum]. reflexivity.
Qed.

Lemma nansum_nonneg l :
  Forall (fun x => (0 <= nan_to_zero x)%Qc) l -> (0 <= nansum l)%Qc.
Proof.
  intros H. apply Qcsum_nonneg. rewrite Forall_forall in *.
  intros x Hx. apply in_map_iff in Hx. destruct Hx as (y & <- & Hy). auto.
Qed.

Lemma monthly_sum_nonneg df :
  Forall (fun r => (0 <= nan_to_zero (total_sales r))%Qc) df ->
  forall r, In r (monthly_sum df) -> (0 <= snd r)%Qc.
Proof.
  intros Hpos r Hr. unfold monthly_sum in Hr. apply in_map_iff in Hr.
  destruct Hr as (k & <- & _). simpl. apply nansum_nonneg.
  rewrite Forall_forall in *. intros x Hx.
  apply in_map_iff in Hx. destruct Hx as (row & <- & Hrow).
  apply filter_In in Hrow. apply Hpos, Hrow.
Qed.

(** The cumulative totals of a frame: its rows are ascending, each total
    is the sum of the monthly totals of the cohort up to that month, and
    without negative amounts the totals never decrease within a cohort. *)
Lemma cumulative_total_rows (df : list Row) :
  Forall (fun r => (0 <= nan_to_zero (total_sales r))%Qc) df ->
  StronglySorted (lt_key pair_ltb) (map spend_key (cohort_monthly_spend df)) /\
  (forall s, In s (cohort_monthly_spend df) ->
     cumulative_total_spent s
     = Qcsum (map spend_total_sales
                  (filter (fun s' => months_upto s (spend_key s'))
                          (cohort_monthly_spend df)))) /\
  (forall s1 s2,
     In s1 (cohort_monthly_spend df) -> In s2 (cohort_monthly_spend df) ->
     spend_cohort_month s1 = spend_cohort_month s2 ->
     (spend_purchase_month s1 <= spend_purchase_month s2
      \/ months_since_initial_purchase s1 <= months_since_initial_purchase s2) ->
     (cumulative_total_spent s1 <= cumulative_total_spent s2)%Qc).
Proof.
  intros Hpos.
  assert (Hrun : forall s, In s (cohort_monthly_spend df) ->
     cumulative_total_spent s
     = Qcsum (map snd (filter (fun r => months_upto s (fst r)) (monthly_sum df)))).
  { intros s Hs. rewrite cohort_monthly_spend_rows in Hs.
    apply in_map_iff in Hs. destruct Hs as ([[[c p] v] cum] & <- & Hin).
    apply cumsum_running in Hin. exact Hin. }
  split; [|split].
  - unfold spend_key. rewrite spend_keys. apply month_keys_sorted.
  - intros s Hs. rewrite (Hrun s Hs).
    rewrite (spend_totals_filter df (months_upto s)). reflexivity.
  - intros s1 s2 H1 H2 Hc Hle.
    assert (Hp : spend_purchase_month s1 <= spend_purchase_month s2).
    { destruct Hle as [Hle|Hle]; [exact Hle|].
      rewrite (spend_offset _ _ H1), (spend_offset _ _ H2) in Hle.
      unfold period_diff_n in Hle. lia. }
    rewrite (Hrun s1 H1), (Hrun s2 H2).
    apply Qcsum_filter_le.
    + intros r _. unfold months_upto. rewrite !andb_true_iff.
      rewrite !Z.eqb_eq, !Z.leb_le. lia.
    + intros r Hr. apply (monthly_sum_nonneg Hpos _ Hr).
Qed.

(** ** Sums over groups *)

Lemma Qcsum_map_zero {K} (keys : list K) : Qcsum (map (fun _ => 0%Qc) keys) = 0%Qc.
Proof.
  induction keys as [|k tl IH]; simpl; [reflexivity|].
  rewrite IH. apply Qcplus_0_l.
Qed.

Lemma Qcsum_map_plus {K} (f g : K -> Qc) keys :
  Qcsum (map (fun k => (f k + g k)%Qc) keys)
  = (Qcsum (map f keys) + Qcsum (map g keys))%Qc.
Proof.
  induction keys as [|k tl IH]; simpl.
  - rewrite Qcplus_0_l. reflexivity.
  - rewrite IH. ring.
Qed.

(** A value counted under the one key that selects it. *)
Lemma Qcsum_select_one {K} (f : K -> bool) (v : Qc) keys k0 :
  NoDup keys -> In k0 keys ->
  (forall k, In k keys -> (f k = true <-> k = k0)) ->
  Qcsum (map (fun k => if f k then v else 0%Qc) keys) = v.
Proof.
  induction keys as [|k tl IH]; simpl; intros Hnd Hin Hsel.
  - contradiction.
  - inversion Hnd as [|? ? Hnotin Hnd']; subst.
    destruct (f k) eqn:E.
    + assert (k = k0) by (apply Hsel; auto). subst.
      replace (Qcsum (map (fun k => if f k then v else 0%Qc) tl)) with 0%Qc.
      * apply Qcplus_0_r.
      * symmetry.
        transitivity (Qcsum (map (fun _ : K => 0%Qc) tl));
          [|apply Qcsum_map_zero].
        f_equal. apply map_ext_in. intros k Hk.
        destruct (f k) eqn:E'; [|reflexivity].
        exfalso. apply Hnotin.
        assert (k = k0) by (apply Hsel; auto). subst. exact Hk.
    + rewrite Qcplus_0_l. apply IH; auto.
      * destruct Hin as [->|Hin]; [|exact Hin].
        assert (f k0 = true) by (apply Hsel; auto). congruence.
Qed.

(** Summing group by group gives the sum of the whole column, when every
    row falls in the group of one key. *)
Lemma Qcsum_partition {A K} (sel : K -> A -> bool) (val : A -> Qc) keys l :
  (forall x, In x l ->
     Qcsum (map (fun k => if sel k x then val x else 0%Qc) keys) = val x) ->
  Qcsum (map (fun k => Qcsum (map val (filter (sel k) l))) keys)
  = Qcsum (map val l).
Proof.
  induction l as [|x tl IH]; simpl; intros H.
  - apply Qcsum_map_zero.
  - rewrite <- IH by auto.
    transitivity
      (Qcsum (map (fun k => if sel k x then val x else 0%Qc) keys)
       + Qcsum (map (fun k => Qcsum (map val (filter (sel k) tl))) keys))%Qc.
    + rewrite <- Qcsum_map_plus. f_equal. apply map_ext. intros k.
      destruct (sel k x); simpl;
        [reflexivity | rewrite Qcplus_0_l; reflexivity].
    + rewrite (H x) by auto. reflexivity.
Qed.

Lemma filter_filter {A} (f g : A -> bool) l :
  filter f (filter g l) = filter (fun x => g x && f x) l.
Proof.
  induction l as [|x tl IH]; simpl; [reflexivity|].
  destruct (g x); simpl; [destruct (f x); rewrite IH; reflexivity | exact IH].
Qed.

(** The mean a pivot takes over at most one row is the sum of the cell,
    and the fill value 0 is the sum of an empty cell. *)
Lemma pivot_cell_sum rows i c :
  NoDup (map fst rows) ->
  pivot_cell 0%Qc rows i c
  = Qcsum (map snd (filter (fun r => pair_eqb (fst r) (i, c)) rows)).
Proof.
  intros Hnd. unfold pivot_cell.
  destruct (filter (fun r => pair_eqb (fst r) (i, c)) rows) as [|x hit] eqn:E.
  - reflexivity.
  - assert (Hx : In x (filter (fun r => pair_eqb (fst r) (i, c)) rows))
      by (rewrite E; left; reflexivity).
    apply filter_In in Hx. destruct Hx as [Hx Hk]. apply pair_eqb_eq in Hk.
    assert (E' : filter (fun r => pair_eqb (fst r) (fst x)) rows = [x])
      by (apply filter_unique_key; [apply pair_eqb_eq | exact Hnd | exact Hx]).
    rewrite Hk, E in E'. rewrite E'. simpl.
    rewrite mean_singleton, Qcplus_0_r. reflexivity.
Qed.

(** The cells of one row of a pivot table add up to the values of the
    frame that carry its index. *)
Lemma pivot_row_sum rows i :
  NoDup (map fst rows) ->
  Qcsum (map (pivot_cell 0%Qc rows i)
             (sorted_unique Z.ltb (map (fun r => snd (fst r)) rows)))
  = Qcsum (map snd (filter (fun r => fst (fst r) =? i) rows)).
Proof.
  intros Hnd.
  set (cols := sorted_unique Z.ltb (map (fun r => snd (fst r)) rows)).
  set (mine := filter (fun r : Z * Z * Qc => fst (fst r) =? i) rows).
  rewrite <- (Qcsum_partition (fun c (r : Z * Z * Qc) => snd (fst r) =? c)
                              snd cols mine).
  - f_equal. apply map_ext. intros c. rewrite pivot_cell_sum by exact Hnd.
    unfold mine. rewrite filter_filter. reflexivity.
  - intros x Hx. apply Qcsum_select_one with (k0 := snd (fst x)).
    + apply months_NoDup.
    + apply In_months. apply in_map_iff. exists x. split; [reflexivity|].
      unfold mine in Hx. apply filter_In in Hx. apply Hx.
    + intros k _. rewrite Z.eqb_eq. split; congruence.
Qed.

(** ** Conservation of revenue *)

Lemma has_month_key_iff k r : has_month_key k r = true <-> month_key r = Some k.
Proof.
  unfold has_month_key. destruct (month_key r) as [k'|].
  - rewrite pair_eqb_eq. split; congruence.
  - split; discriminate.
Qed.

Lemma in_cohort_iff c r : in_cohort c r = true <-> cohort_month r = Some c.
Proof.
  unfold in_cohort. destruct (cohort_month r) as [c'|].
  - rewrite Z.eqb_eq. split; congruence.
  - split; discriminate.
Qed.

(** The monthly totals of a cohort add up to what its rows spent, when
    every row of the cohort has a purchase month. *)
Lemma monthly_sum_cohort_total df c :
  (forall r, In r df -> cohort_month r = Some c -> purchase_month r <> None) ->
  Qcsum (map snd (filter (fun r => fst (fst r) =? c) (monthly_sum df)))
  = nansum (map total_sales (filter (in_cohort c) df)).
Proof.
  intros Hpm. unfold monthly_sum, nansum.
  rewrite filter_map_comm, !map_map. simpl.
  set (keys := filter (fun k : Z * Z => fst k =? c)
                      (sorted_unique pair_ltb (somes (map month_key df)))).
  set (val := fun r : Row => nan_to_zero (total_sales r)).
  rewrite <- (Qcsum_partition has_month_key val keys (filter (in_cohort c) df)).
  - f_equal. apply map_ext_in. intros k Hk.
    unfold keys in Hk. apply filter_In in Hk. destruct Hk as [_ Hk].
    apply Z.eqb_eq in Hk.
    unfold nansum. rewrite map_map. fold val. do 2 f_equal.
    rewrite filter_filter. apply filter_ext. intros r.
    destruct (has_month_key k r) eqn:E; [|symmetry; apply andb_false_r].
    rewrite andb_true_r. symmetry. apply in_cohort_iff.
    apply has_month_key_iff, month_key_cohort in E. congruence.
  - intros r Hr. apply filter_In in Hr. destruct Hr as [Hr Hc].
    apply in_cohort_iff in Hc.
    destruct (purchase_month r) as [p|] eqn:Ep;
      [|exfalso; apply (Hpm r Hr Hc Ep)].
    assert (Hk : month_key r = Some (c, p))
      by (unfold month_key; rewrite Hc, Ep; reflexivity).
    apply Qcsum_select_one with (k0 := (c, p)).
    + apply NoDup_filter, month_keys_NoDup.
    + apply filter_In. split; [|simpl; apply Z.eqb_refl].
      apply In_month_keys, In_somes, in_map_iff. exists r. auto.
    + intros k _. rewrite has_month_key_iff, Hk. split; congruence.
Qed.

Lemma revenue_rows_NoDup df :
  NoDup (map fst
           (map (fun s => (spend_cohort_month s, months_since_initial_purchase s,
                           spend_total_sales s))
                (cohort_monthly_spend df))).
Proof. rewrite map_map. apply spend_cells_NoDup. Qed.

(** The cells of the row of cohort [c] in the revenue matrix add up to
    the monthly totals of that cohort. *)
Lemma revenue_row_total df c :
  In c (index (revenue df)) ->
  exists row,
    row_at (revenue df) c = Some row /\
    Qcsum row
    = Qcsum (map snd (filter (fun r => fst (fst r) =? c) (monthly_sum df))).
Proof.
  intros Hc. unfold revenue in *.
  set (rows := map (fun s => (spend_cohort_month s, months_since_initial_purchase s,
                              spend_total_sales s))
                   (cohort_monthly_spend df)) in *.
  exists (map (pivot_cell 0%Qc rows c) (labels (pivot_table 0%Qc rows))).
  split.
  - unfold row_at. simpl in *.
    apply (assoc_map
             (fun i => map (pivot_cell 0%Qc rows i)
                           (sorted_unique Z.ltb
                              (map (fun r : Z * Z * Qc => snd (fst r)) rows)))).
    exact Hc.
  - simpl. rewrite pivot_row_sum by apply revenue_rows_NoDup.
    unfold rows. rewrite filter_map_comm, map_map. simpl.
    f_equal. apply (spend_totals_filter df (fun k => fst k =? c)).
Qed.

Lemma revenue_index df c :
  In c (index (revenue df)) <->
  exists r, In r df /\ cohort_month r = Some c /\ purchase_month r <> None.
Proof.
  unfold revenue. simpl. rewrite In_months, map_map. simpl.
  change (In c (map (fun s => fst (spend_key s)) (cohort_monthly_spend df)) <->
          exists r, In r df /\ cohort_month r = Some c /\ purchase_month r <> None).
  rewrite <- (map_map spend_key fst). unfold spend_key. rewrite spend_keys.
  rewrite in_map_iff. split.
  - intros (k & <- & Hk). rewrite In_month_keys, In_somes, in_map_iff in Hk.
    destruct Hk as (r & Hk & Hr). exists r. split; [exact Hr|].
    split; [apply month_key_cohort, Hk|].
    apply month_key_purchase in Hk. congruence.
  - intros (r & Hr & Hc & Hp).
    destruct (purchase_month r) as [p|] eqn:Ep; [|congruence].
    exists (c, p). split; [reflexivity|].
    rewrite In_month_keys, In_somes, in_map_iff. exists r. split; [|exact Hr].
    unfold month_key. rewrite Hc, Ep. reflexivity.
Qed.

(** ** Reading the table *)

Lemma bind_Ok {A B} (m : result A) (k : A -> result B) b :
  bind m k = Ok b -> exists a, m = Ok a /\ k a = Ok b.
Proof. destruct m as [a|e]; simpl; [eauto | discriminate]. Qed.

Lemma mapM_Forall2 {A B} (f : A -> result B) l : forall l',
  mapM f l = Ok l' -> Forall2 (fun a b => f a = Ok b) l l'.
Proof.
  induction l as [|a tl IH]; simpl; intros l' H.
  - injection H as <-. constructor.
  - apply bind_Ok in H. destruct H as (b & Hb & H).
    apply bind_Ok in H. destruct H as (bs & Hbs & H).
    injection H as <-. constructor; auto.
Qed.

Lemma mapM_length {A B} (f : A -> result B) l l' :
  mapM f l = Ok l' -> length l' = length l.
Proof.
  intros H. apply mapM_Forall2 in H. symmetry.
  eapply Forall2_length. exact H.
Qed.

Lemma mapM_In {A B} (f : A -> result B) l l' b :
  mapM f l = Ok l' -> In b l' -> exists a, In a l /\ f a = Ok b.
Proof.
  intros H. apply mapM_Forall2 in H.
  induction H as [|a b' tl tl' Hab _ IH]; simpl; intros Hin.
  - contradiction.
  - destruct Hin as [->|Hin]; [eauto|].
    destruct (IH Hin) as (a' & Ha' & Hf). eauto.
Qed.

Lemma Timestamp_eqb_eq a b : Timestamp_eqb a b = true <-> a = b.
Proof.
  unfold Timestamp_eqb, ts_compare. destruct a as [y m d n], b as [y' m' d' n'].
  simpl. split.
  - destruct (y ?= y') eqn:Ey; try discriminate.
    destruct (m ?= m') eqn:Em; try discriminate.
    destruct (d ?= d') eqn:Ed; try discriminate.
    destruct (n ?= n') eqn:En; try discriminate.
    apply Z.compare_eq in Ey, Em, Ed, En. subst. reflexivity.
  - intros [= -> -> -> ->]. rewrite !Z.compare_refl. reflexivity.
Qed.

Lemma Qc_eqb_eq x y : Qc_eqb x y = true <-> x = y.
Proof.
  unfold Qc_eqb. rewrite Qeq_bool_iff. split.
  - apply Qc_is_canon.
  - intros ->. reflexivity.
Qed.

Lemma cell_eqb_eq a b : cell_eqb a b = true <-> a = b.
Proof.
  destruct a, b; simpl; try (split; [discriminate | congruence]).
  - rewrite String.eqb_eq. split; congruence.
  - rewrite Timestamp_eqb_eq. split; congruence.
  - rewrite Qc_eqb_eq. split; congruence.
  - split; reflexivity.
Qed.

Lemma cell_eqb_refl a : cell_eqb a a = true.
Proof. apply cell_eqb_eq. reflexivity. Qed.

Lemma In_unique c l : In c (unique l) <-> In c l /\ isna c = false.
Proof.
  induction l as [|x tl IH]; simpl.
  - tauto.
  - destruct (isna x) eqn:Ex.
    + rewrite IH. split.
      * intros [H1 H2]. auto.
      * intros [[->|H1] H2]; [congruence | auto].
    + simpl. rewrite filter_In, IH. split.
      * intros [->|[[H1 H2] _]]; auto.
      * intros [[->|H1] H2]; [auto|].
        destruct (cell_eqb x c) eqn:E.
        -- apply cell_eqb_eq in E. auto.
        -- right. auto.
Qed.

Lemma unique_NoDup l : NoDup (unique l).
Proof.
  induction l as [|x tl IH]; simpl.
  - constructor.
  - destruct (isna x); [exact IH|].
    constructor.
    + rewrite filter_In. intros [_ H]. rewrite cell_eqb_refl in H. discriminate.
    + apply NoDup_filter, IH.
Qed.

Lemma flat_map_filter {A B} (f : A -> list B) (p : A -> bool) (g : A -> B) l :
  (forall x, In x l -> f x = if p x then [g x] else []) ->
  flat_map f l = map g (filter p l).
Proof.
  induction l as [|x tl IH]; simpl; intros H.
  - reflexivity.
  - rewrite (H x) by auto. rewrite IH by auto.
    destruct (p x); reflexivity.
Qed.

(** The join in closed form: a row that names its customer meets exactly one
    row of [first_purchase], and a row without a customer meets none. *)
Lemma merge_first_purchase_rows df :
  merge_first_purchase df (first_purchase df)
  = map (fun r => (r, first_purchase_of df (snd (fst r))))
        (filter (fun r => negb (isna (snd (fst r)))) df).
Proof.
  unfold merge_first_purchase. apply flat_map_filter.
  intros r Hr. unfold first_purchase.
  change (fun k => (k, nanmin (map snd (filter (fun r0 => cell_eqb (snd (fst r0)) k) df))))
    with (fun k => (k, first_purchase_of df k)).
  set (mk := fun k => (k, first_purchase_of df k)).
  destruct (isna (snd (fst r))) eqn:Ena; simpl.
  - rewrite filter_nil; [reflexivity|].
    intros m Hm. apply in_map_iff in Hm. destruct Hm as (k & <- & Hk).
    apply In_unique in Hk. destruct Hk as [_ Hk]. simpl.
    destruct (cell_eqb k (snd (fst r))) eqn:E; [|reflexivity].
    apply cell_eqb_eq in E. congruence.
  - change (fun m : cell * option Timestamp => cell_eqb (fst m) (snd (fst r)))
      with (fun m : cell * option Timestamp =>
              cell_eqb (fst m) (fst (mk (snd (fst r))))).
    rewrite (filter_unique_key fst cell_eqb).
    + reflexivity.
    + apply cell_eqb_eq.
    + rewrite map_map. simpl. rewrite map_id. apply unique_NoDup.
    + apply in_map, In_unique. split; [|exact Ena].
      apply in_map_iff. exists r. auto.
Qed.

Lemma derive_fields i m r :
  derive i m = Ok r ->
  customer_email r = snd (fst (fst m)) /\
  purchase_date r = snd (fst m) /\
  first_purchase_date r = snd m /\
  cohort_month r = option_map to_period_M (first_purchase_date r) /\
  purchase_month r = option_map to_period_M (purchase_date r) /\
  astype_float (nth i (fst (fst (fst m))) CNaN) = Ok (total_sales r).
Proof.
  destruct m as [[[fields cust] date] first]. unfold derive. intros H.
  apply bind_Ok in H. destruct H as (amount & Ha & H).
  injection H as <-. simpl. auto 6.
Qed.

(** What [enrich] returns: the rows of the join, each with its months and
    its amount. *)
Lemma enrich_inv df0 df :
  enrich df0 = Ok df ->
  exists df1 i_sales,
    transactions (rename_day (iloc_first4 df0)) = Ok df1 /\
    mapM (derive i_sales) (merge_first_purchase df1 (first_purchase df1)) = Ok df.
Proof.
  unfold enrich. intros H.
  apply bind_Ok in H. destruct H as (df1 & H1 & H).
  apply bind_Ok in H. destruct H as (_ & _ & H).
  apply bind_Ok in H. destruct H as (i_sales & _ & H).
  eauto.
Qed.

Lemma enrich_months df0 df r :
  enrich df0 = Ok df -> In r df ->
  cohort_month r = option_map to_period_M (first_purchase_date r) /\
  purchase_month r = option_map to_period_M (purchase_date r).
Proof.
  intros H Hr. apply enrich_inv in H. destruct H as (df1 & i & _ & H).
  destruct (@mapM_In _ _ _ _ _ _ H Hr) as (m & _ & Hm).
  apply derive_fields in Hm. tauto.
Qed.

(** When every row has its date, the cells of a cohort's row of the
    revenue matrix add up to the amounts of the rows of that cohort. *)
Lemma revenue_conservation_rows (df0 : DataFrame) (df : list Row) (c : Z) :
  enrich df0 = Ok df ->
  Forall (fun r => purchase_date r <> None) df ->
  (exists r, In r df /\ cohort_month r = Some c) ->
  exists row,
    row_at (revenue df) c = Some row /\
    Qcsum row = nansum (map total_sales (filter (in_cohort c) df)).
Proof.
  intros He Hdates (r & Hr & Hc).
  assert (Hpm : forall x, In x df -> purchase_month x <> None).
  { intros x Hx. destruct (@enrich_months df0 df x He Hx) as [_ ->].
    rewrite Forall_forall in Hdates. specialize (Hdates x Hx).
    destruct (purchase_date x); [discriminate | congruence]. }
  assert (Hidx : In c (index (revenue df))).
  { apply revenue_index. exists r. auto. }
  destruct (revenue_row_total df c Hidx) as (row & Hrow & Hsum).
  exists row. split; [exact Hrow|].
  rewrite Hsum. apply monthly_sum_cohort_total. auto.
Qed.

(** ** The join with the first purchases *)

Lemma filter_all {A} (p : A -> bool) l :
  (forall x, In x l -> p x = true) -> filter p l = l.
Proof.
  induction l as [|x tl IH]; simpl; intros H; [reflexivity|].
  rewrite (H x) by auto. f_equal. apply IH. auto.
Qed.


Lemma transactions_length df txs :
  transactions df = Ok txs -> length txs = length (values df).
Proof.
  unfold transactions. intros H.
  apply bind_Ok in H. destruct H as (i_date & _ & H).
  apply bind_Ok in H. destruct H as (dates & Hd & H).
  apply bind_Ok in H. destruct H as (i_cust & _ & H).
  injection H as <-. unfold with_customer.
  rewrite length_map, length_combine.
  apply mapM_length in Hd. lia.
Qed.

Lemma enrich_first_purchase df0 df :
  enrich df0 = Ok df ->
  exists txs,
    transactions (rename_day (iloc_first4 df0)) = Ok txs /\
    map customer_email df
    = map (fun t => snd (fst t)) (filter (fun t => negb (isna (snd (fst t)))) txs) /\
    forall r, In r df ->
      first_purchase_date r = first_purchase_of txs (customer_email r).
Proof.
  intros H. apply enrich_inv in H. destruct H as (txs & i & Ht & H).
  exists txs. split; [exact Ht|].
  rewrite merge_first_purchase_rows in H. split.
  - apply mapM_Forall2 in H. revert H.
    generalize (filter (fun t : list cell * cell * option Timestamp =>
                          negb (isna (snd (fst t)))) txs).
    intros l H. remember (map _ l) as ml eqn:E. revert l E.
    induction H as [|m r ms rs Hm _ IH]; intros [|t tl] E; simpl in *;
      try discriminate; [reflexivity|].
    injection E as -> ->. apply derive_fields in Hm. simpl in Hm.
    f_equal; [tauto | apply IH; reflexivity].
  - intros r Hr. destruct (@mapM_In _ _ _ _ _ _ H Hr) as (m & Hm & Hd).
    apply in_map_iff in Hm. destruct Hm as (t & <- & _).
    apply derive_fields in Hd. simpl in Hd.
    destruct Hd as (-> & _ & -> & _). reflexivity.
Qed.

(** The cohort of a row is that of its customer: two rows of one customer
    have the same cohort month. *)
Lemma cohort_of_customer df0 df r1 r2 :
  enrich df0 = Ok df -> In r1 df -> In r2 df ->
  customer_email r1 = customer_email r2 ->
  cohort_month r1 = cohort_month r2.
Proof.
  intros He H1 H2 E.
  destruct (@enrich_months df0 df r1 He H1) as [-> _].
  destruct (@enrich_months df0 df r2 He H2) as [-> _].
  destruct (enrich_first_purchase _ He) as (txs & _ & _ & Hf).
  rewrite (Hf r1 H1), (Hf r2 H2), E. reflexivity.
Qed.


(** ** The upload folder *)

Lemma read_file_filter p q fs :
  p <> q ->
  read_file p (filter (fun e => negb (String.eqb (fst e) q)) fs) = read_file p fs.
Proof.
  intros Hpq. induction fs as [|[p' a] tl IH]; simpl; [reflexivity|].
  destruct (String.eqb p' q) eqn:Eq; simpl.
  - apply String.eqb_eq in Eq. subst.
    destruct (String.eqb q p) eqn:E; [|exact IH].
    apply String.eqb_eq in E. congruence.
  - rewrite IH. reflexivity.
Qed.

Lemma read_file_written p a fs : read_file p (fst (to_csv p a fs)) = Some a.
Proof. simpl. rewrite String.eqb_refl. reflexivity. Qed.

Lemma read_file_other p q a fs :
  p <> q -> read_file p (fst (to_csv q a fs)) = read_file p fs.
Proof.
  intros Hpq. simpl. destruct (String.eqb q p) eqn:E.
  - apply String.eqb_eq in E. congruence.
  - apply read_file_filter, Hpq.
Qed.

Lemma process_csv_run df0 fs :
  process_csv df0 fs
  = match enrich df0 with
    | Ok df => (written df fs, Ok report_names)
    | Raise e => (fs, Raise e)
    end.
Proof.
  unfold process_csv, then_, lift. destruct (enrich df0); reflexivity.
Qed.

Lemma written_reports df fs :
  read_file ltv_path (written df fs) = Some (Matrix (ltv df)) /\
  read_file revenue_path (written df fs) = Some (Matrix (revenue df)) /\
  read_file repeat_path (written df fs)
    = Some (Matrix (repeat_purchase_rate_table df)) /\
  read_file sizes_path (written df fs) = Some (SizeTable (cohort_sizes df)).
Proof.
  unfold written. split; [|split; [|split]].
  - rewrite !read_file_other by (vm_compute; discriminate).
    apply read_file_written.
  - rewrite !read_file_other by (vm_compute; discriminate).
    apply read_file_written.
  - rewrite !read_file_other by (vm_compute; discriminate).
    apply read_file_written.
  - apply read_file_written.
Qed.

(** C5. A run that raises leaves the upload folder as it found it, and a
    run that returns has written all four reports: the folder never holds
    a proper subset of the outputs of a run. *)
Theorem all_reports_or_none (df0 : DataFrame) (fs : Store) :
  (exists e, process_csv df0 fs = (fs, Raise e)) \/
  (exists fs' df,
     process_csv df0 fs = (fs', Ok report_names) /\
     read_file ltv_path fs' = Some (Matrix (ltv df)) /\
     read_file revenue_path fs' = Some (Matrix (revenue df)) /\
     read_file repeat_path fs' = Some (Matrix (repeat_purchase_rate_table df)) /\
     read_file sizes_path fs' = Some (SizeTable (cohort_sizes df))).
Proof.
  rewrite process_csv_run. destruct (enrich df0) as [df|e].
  - right. exists (written df fs), df. split; [reflexivity|].
    apply written_reports.
  - left. exists e. reflexivity.
Qed.

(** C9. Two runs on the same table end alike whatever the upload folder
    held before: they return the same result, and when they return, each
    of the four reports is the same in both folders, with its rows and
    columns in the same order. *)
Theorem runs_agree (df0 : DataFrame) (fs1 fs2 : Store) :
  snd (process_csv df0 fs1) = snd (process_csv df0 fs2) /\
  (forall names, snd (process_csv df0 fs1) = Ok names ->
     forall p, In p report_paths ->
       read_file p (fst (process_csv df0 fs1))
       = read_file p (fst (process_csv df0 fs2)) /\
       read_file p (fst (process_csv df0 fs1)) <> None).
Proof.
  rewrite !process_csv_run. destruct (enrich df0) as [df|e]; cbn [fst snd].
  - split; [reflexivity|]. intros _ _ p Hp.
    destruct (written_reports df fs1) as (A1 & B1 & C1 & D1).
    destruct (written_reports df fs2) as (A2 & B2 & C2 & D2).
    unfold report_paths in Hp. cbn [In] in Hp.
    destruct Hp as [<-|[<-|[<-|[<-|[]]]]]; split; congruence.
  - split; [reflexivity|]. intros names H. discriminate.
Qed.

(** ** A table without rows *)

Ltac in_list := simpl; repeat (first [left; reflexivity | right]).

Lemma get_loc_Raise label cols e :
  get_loc label cols = Raise e -> e = KeyError label \/ e = ValueError.
Proof.
  unfold get_loc. destruct (positions label cols 0) as [|i [|j tl]];
    intros [= <-]; auto.
Qed.

Lemma enrich_zero_rows df0 :
  values df0 = [] ->
  if expected_header df0 then enrich df0 = Ok []
  else exists e, enrich df0 = Raise e /\ In e process_csv_errors.
Proof.
  intros Hv. unfold expected_header, enrich, transactions, process_csv_errors.
  cbn [rename_day iloc_first4 values columns]. rewrite Hv. cbn [map mapM bind].
  set (cols := map _ (firstn 4 (columns df0))).
  destruct (get_loc "purchase_date" cols) as [i|e] eqn:Hi;
    cbn [bind is_ok andb].
  2:{ exists e. split; [reflexivity|].
      destruct (get_loc_Raise _ _ Hi) as [->| ->]; in_list. }
  destruct (get_loc "customer_email" cols) as [j|e] eqn:Hj;
    cbn [bind is_ok andb].
  2:{ exists e. split; [reflexivity|].
      destruct (get_loc_Raise _ _ Hj) as [->| ->]; in_list. }
  destruct (existsb (String.eqb "first_purchase_date") cols);
    cbn [bind negb andb].
  { eexists. split; [reflexivity|]. in_list. }
  destruct (get_loc "total_sales" cols) as [k|e] eqn:Hk; cbn [bind is_ok].
  2:{ exists e. split; [reflexivity|].
      destruct (get_loc_Raise _ _ Hk) as [->| ->]; in_list. }
  reflexivity.
Qed.

(** The counterexample to C4 as stated: on a table with a header and no
    row, [process_csv] raises nothing and writes the four reports. *)
Lemma header_only_returns :
  ~ (exists e, process_csv header_only [] = ([], Raise e)) /\
  snd (process_csv header_only []) = Ok report_names /\
  map fst (fst (process_csv header_only []))
  = [sizes_path; repeat_path; revenue_path; ltv_path].
Proof.
  split; [|split].
  - intros [e H]. vm_compute in H. discriminate.
  - reflexivity.
  - reflexivity.
Qed.

(** C4, amended. On a table with a header row and no transaction there is
    no exception for the empty input.  When each of customer_email,
    purchase_date (day, renamed) and total_sales is the name of exactly
    one of the first four columns and none of them is called
    first_purchase_date, [process_csv] returns the four names and writes
    the four reports, each without a row.  On any other header the lookup
    of a column raises, a KeyError for one of these four names or a
    ValueError, and nothing is written. *)
Theorem zero_rows_reports (df0 : DataFrame) (fs : Store) :
  values df0 = [] ->
  if expected_header df0 then
    process_csv df0 fs = (written [] fs, Ok report_names) /\
    read_file ltv_path (written [] fs) = Some (Matrix empty_pivot) /\
    read_file revenue_path (written [] fs) = Some (Matrix empty_pivot) /\
    read_file repeat_path (written [] fs) = Some (Matrix empty_pivot) /\
    read_file sizes_path (written [] fs) = Some (SizeTable [])
  else
    exists e,
      process_csv df0 fs = (fs, Raise e) /\
      In e [KeyError "purchase_date"; KeyError "customer_email";
            KeyError "first_purchase_date"; KeyError "total_sales";
            ValueError].
Proof.
  intros Hv. pose proof (enrich_zero_rows df0 Hv) as He.
  rewrite process_csv_run.
  destruct (expected_header df0).
  - rewrite He. split; [reflexivity|]. apply (written_reports [] fs).
  - destruct He as (e & -> & Hin). exists e. split; [reflexivity|exact Hin].
Qed.

Lemma zero_rows_reports_witness :
  values header_only = [] /\
  expected_header header_only = true /\
  process_csv header_only [] = (written [] [], Ok report_names) /\
  read_file sizes_path (written [] []) = Some (SizeTable []).
Proof.
  split; [reflexivity|]. split; [reflexivity|].
  pose proof (zero_rows_reports header_only [] eq_refl) as H.
  change (expected_header header_only) with true in H. cbv iota in H.
  split; apply H.
Defined.

(** ** Columns read by name *)

Lemma enrich_first4 t1 t2 :
  iloc_first4 t1 = iloc_first4 t2 -> enrich t1 = enrich t2.
Proof. unfold enrich. intros ->. reflexivity. Qed.

(** The counterexample to C1 as stated: the same rows under other header
    names are not read; the lookup of the date column raises. *)
Lemma header_names_matter :
  values three_customers = values three_customers_renamed /\
  enrich three_customers_renamed = Raise (KeyError "purchase_date") /\
  is_ok (enrich three_customers) = true /\
  ~ (forall t1 t2 : DataFrame,
       values t1 = values t2 ->
       length (columns t1) = length (columns t2) ->
       (4 <= length (columns t1))%nat ->
       enrich t1 = enrich t2).
Proof.
  split; [reflexivity|]. split; [reflexivity|]. split; [reflexivity|].
  intros H.
  specialize (H three_customers three_customers_renamed eq_refl eq_refl).
  assert (Hlen : (4 <= length (columns three_customers))%nat) by (simpl; lia).
  specialize (H Hlen).
  assert (E : is_ok (enrich three_customers)
              = is_ok (enrich three_customers_renamed)) by (rewrite H; reflexivity).
  vm_compute in E. discriminate.
Qed.

Lemma not_reserved x label :
  ~ In x reserved_labels -> In label reserved_labels ->
  String.eqb x label = false /\ String.eqb label x = false.
Proof.
  intros Hx Hl. split; apply String.eqb_neq; congruence.
Qed.

(** C1, amended. [process_csv] keeps the first four columns by position
    and then reads them by name.  Under the header customer_email, day (or
    purchase_date), any third name that is not one of the reserved ones,
    total_sales, the first column is the customer, the second the date and
    the fourth the amount; and tables that agree on their first four
    columns, header included, are read alike. *)
Theorem ingestion_reads_named_columns (df0 : DataFrame)
    (d x : string) (rest : list string) :
  columns df0 = "customer_email"%string :: d :: x :: "total_sales"%string :: rest ->
  d = "day"%string \/ d = "purchase_date"%string ->
  ~ In x reserved_labels ->
  enrich df0 = enrich_positional df0 /\
  (forall df0', iloc_first4 df0' = iloc_first4 df0 -> enrich df0' = enrich df0).
Proof.
  intros Hcols Hd Hx. split; [|intros df0'; apply enrich_first4].
  assert (Xday : String.eqb x "day" = false)
    by (apply (not_reserved Hx); simpl; tauto).
  assert (Xpd : String.eqb x "purchase_date" = false)
    by (apply (not_reserved Hx); simpl; tauto).
  assert (Xce : String.eqb x "customer_email" = false)
    by (apply (not_reserved Hx); simpl; tauto).
  assert (Xts : String.eqb x "total_sales" = false)
    by (apply (not_reserved Hx); simpl; tauto).
  assert (Xfp : String.eqb "first_purchase_date" x = false)
    by (apply (not_reserved Hx); simpl; tauto).
  assert (Hren : columns (rename_day (iloc_first4 df0))
                 = ["customer_email"; "purchase_date"; x; "total_sales"]%string).
  { cbn [rename_day iloc_first4 columns]. rewrite Hcols. cbn [firstn map].
    rewrite Xday. destruct Hd as [->| ->]; reflexivity. }
  unfold enrich, transactions, enrich_positional. rewrite Hren.
  assert (L1 : get_loc "purchase_date"
                 ["customer_email"; "purchase_date"; x; "total_sales"]%string
               = Ok 1%nat).
  { unfold get_loc. cbn [positions]. rewrite Xpd. reflexivity. }
  assert (L2 : get_loc "customer_email"
                 ["customer_email"; "purchase_date"; x; "total_sales"]%string
               = Ok 0%nat).
  { unfold get_loc. cbn [positions]. rewrite Xce. reflexivity. }
  assert (L3 : get_loc "total_sales"
                 ["customer_email"; "purchase_date"; x; "total_sales"]%string
               = Ok 3%nat).
  { unfold get_loc. cbn [positions]. rewrite Xts. reflexivity. }
  rewrite L1, L2, L3. cbn [bind existsb]. rewrite Xfp.
  cbn [rename_day iloc_first4 values].
  destruct (mapM (fun r => to_datetime (nth 1 r CNaN))
                 (map (firstn 4) (values df0))) as [dates|e]; reflexivity.
Qed.

Lemma ingestion_reads_named_columns_witness :
  enrich three_customers = enrich_positional three_customers /\
  is_ok (enrich_positional three_customers) = true.
Proof.
  split; [|reflexivity].
  assert (Hx : ~ In "order_id"%string reserved_labels).
  { unfold reserved_labels. simpl. intros H.
    repeat (destruct H as [H|H]; [discriminate|]). exact H. }
  exact (proj1 (@ingestion_reads_named_columns three_customers "day" "order_id"
                  [] eq_refl (or_introl eq_refl) Hx)).
Defined.

(** ** The three customers *)

Lemma Some_rat (o : option Qc) n d :
  option_map this o = Some (Qred (n # d)) -> o = Some (rat n d).
Proof.
  destruct o as [q|]; simpl; intros [= H].
  f_equal. apply Qc_decomp. exact H.
Qed.

Lemma three_customers_enrich :
  enrich three_customers = Ok three_customers_enriched.
Proof. vm_compute. reflexivity. Qed.

(** The counterexample to C2 as stated: the February cohort has no row in
    the repeat purchase rate report, so no rate 0 at offset 0 is read
    there. *)
Lemma february_not_in_repeat_rate :
  ~ (exists df,
       enrich three_customers = Ok df /\
       cell_at (repeat_purchase_rate_table df) feb 0 = Some 0%Qc).
Proof.
  intros (df & He & Hcell).
  rewrite three_customers_enrich in He. injection He as <-.
  vm_compute in Hcell. discriminate.
Qed.

(** C2, amended. For A (10 in January, 20 in February), B (5 in February)
    and C (15 in January): the January cohort has size 2 and the February
    cohort size 1; the January cohort has revenue 25 at offset 0 and 20 at
    offset 1, cumulative total 45 and average 22.5 at offset 1, repeat
    rate 0.5 at offset 1; the repeat purchase rate report has the January
    row and the offset 1 column only, and no February row. *)
Theorem three_customers_reports :
  exists df,
    enrich three_customers = Ok df /\
    cohort_sizes df = [(jan, 2%nat); (feb, 1%nat)] /\
    cell_at (revenue df) jan 0 = Some (rat 25 1) /\
    cell_at (revenue df) jan 1 = Some (rat 20 1) /\
    cell_at (revenue df) feb 0 = Some (rat 5 1) /\
    map (fun s => (spend_cell s, this (cumulative_total_spent s)))
        (cohort_monthly_spend df)
    = [(jan, 0, 25 # 1); (jan, 1, 45 # 1); (feb, 0, 5 # 1)] /\
    cell_at (ltv df) jan 1 = Some (rat 45 2) /\
    cell_at (repeat_purchase_rate_table df) jan 1 = Some (rat 1 2) /\
    index (repeat_purchase_rate_table df) = [jan] /\
    labels (repeat_purchase_rate_table df) = [1] /\
    cell_at (repeat_purchase_rate_table df) feb 0 = None.
Proof.
  exists three_customers_enriched. split; [apply three_customers_enrich|].
  split; [reflexivity|].
  split; [apply Some_rat; vm_compute; reflexivity|].
  split; [apply Some_rat; vm_compute; reflexivity|].
  split; [apply Some_rat; vm_compute; reflexivity|].
  split; [vm_compute; reflexivity|].
  split; [apply Some_rat; vm_compute; reflexivity|].
  split; [apply Some_rat; vm_compute; reflexivity|].
  split; [reflexivity|].
  split; reflexivity.
Qed.

(** ** The shape of the repeat purchase rate report *)

Lemma repeat_frame_key df c p :
  (exists row, In row (repeat_purchasers_frame df) /\
               repeat_cohort_month row = c /\ repeat_purchase_month row = p) <->
  (exists r, In r df /\ is_repeat_purchase r = true /\ month_key r = Some (c, p)).
Proof.
  transitivity (In (c, p) (map (fun r => (repeat_cohort_month r, repeat_purchase_month r))
                               (repeat_purchasers_frame df))).
  - rewrite in_map_iff. split.
    + intros (row & Hin & <- & <-). exists row. auto.
    + intros (row & [= <- <-] & Hin). exists row. auto.
  - rewrite repeat_keys, In_month_keys, In_somes, in_map_iff. split.
    + intros (r & Hk & Hr). apply filter_In in Hr. exists r. tauto.
    + intros (r & Hr & Hrep & Hk). exists r. split; [exact Hk|].
      apply filter_In. auto.
Qed.

Lemma spend_frame_key df c p :
  (exists s, In s (cohort_monthly_spend df) /\
             spend_cohort_month s = c /\ spend_purchase_month s = p) <->
  (exists r, In r df /\ month_key r = Some (c, p)).
Proof.
  transitivity (In (c, p) (map (fun s => (spend_cohort_month s, spend_purchase_month s))
                               (cohort_monthly_spend df))).
  - rewrite in_map_iff. split.
    + intros (s & Hin & <- & <-). exists s. auto.
    + intros (s & [= <- <-] & Hin). exists s. auto.
  - rewrite spend_keys, In_month_keys, In_somes, in_map_iff. split.
    + intros (r & Hk & Hr). exists r. tauto.
    + intros (r & Hr & Hk). exists r. tauto.
Qed.

Lemma repeat_has_months df0 df r :
  enrich df0 = Ok df -> In r df -> is_repeat_purchase r = true ->
  exists c p, month_key r = Some (c, p).
Proof.
  intros He Hr Hrep. destruct (@enrich_months df0 df r He Hr) as [Hc Hp].
  unfold is_repeat_purchase in Hrep. unfold month_key. rewrite Hc, Hp.
  destruct (purchase_date r), (first_purchase_date r); try discriminate.
  simpl. eauto.
Qed.

Lemma pivot_table_index fill rows i :
  In i (index (pivot_table fill rows)) <-> exists r, In r rows /\ fst (fst r) = i.
Proof.
  simpl. rewrite In_months, in_map_iff. split; intros (r & H1 & H2); eauto.
Qed.

Lemma pivot_table_labels fill rows c :
  In c (labels (pivot_table fill rows)) <-> exists r, In r rows /\ snd (fst r) = c.
Proof.
  simpl. rewrite In_months, in_map_iff. split; intros (r & H1 & H2); eauto.
Qed.

Lemma pivot_table_rectangular fill rows :
  length (matrix (pivot_table fill rows)) = length (index (pivot_table fill rows)) /\
  Forall (fun row => length row = length (labels (pivot_table fill rows)))
         (matrix (pivot_table fill rows)).
Proof.
  simpl. split; [apply length_map|].
  rewrite Forall_forall. intros row Hrow. apply in_map_iff in Hrow.
  destruct Hrow as (i & <- & _). apply length_map.
Qed.

(** The counterexample to C3 as stated: with three customers of whom one
    buys again, the repeat purchase rate report has one row and one
    column where the LTV report has two of each. *)
Lemma repeat_rate_shape_differs :
  ~ (forall df0 df,
       valid_input df0 = true ->
       values df0 <> [] ->
       enrich df0 = Ok df ->
       index (repeat_purchase_rate_table df) = index (ltv df) /\
       labels (repeat_purchase_rate_table df) = labels (ltv df)).
Proof.
  intros H.
  destruct (H three_customers three_customers_enriched) as [Hidx _].
  - reflexivity.
  - discriminate.
  - apply three_customers_enrich.
  - vm_compute in Hidx. discriminate.
Qed.

(** The repeat purchase rate report of a frame: its rows and columns are
    the cohort months and the offsets of the repeat purchases, all of
    them rows and columns of the LTV report; it is a full grid, and a cell
    no repeat purchase falls in holds 0. *)
Lemma repeat_rate_shape_rows (df0 : DataFrame) (df : list Row) :
  enrich df0 = Ok df ->
  (forall c, In c (index (repeat_purchase_rate_table df)) <->
     exists r, In r df /\ is_repeat_purchase r = true /\ cohort_month r = Some c) /\
  (forall o, In o (labels (repeat_purchase_rate_table df)) <->
     exists r c p, In r df /\ is_repeat_purchase r = true /\
                   month_key r = Some (c, p) /\ o = period_diff_n p c) /\
  incl (index (repeat_purchase_rate_table df)) (index (ltv df)) /\
  incl (labels (repeat_purchase_rate_table df)) (labels (ltv df)) /\
  length (matrix (repeat_purchase_rate_table df))
    = length (index (repeat_purchase_rate_table df)) /\
  Forall (fun row => length row = length (labels (repeat_purchase_rate_table df)))
         (matrix (repeat_purchase_rate_table df)) /\
  (forall c o,
     In c (index (repeat_purchase_rate_table df)) ->
     In o (labels (repeat_purchase_rate_table df)) ->
     (forall r, In r df -> is_repeat_purchase r = true ->
                month_key r <> Some (c, c + o)) ->
     cell_at (repeat_purchase_rate_table df) c o = Some 0%Qc).
Proof.
  intros He.
  assert (Hidx : forall c, In c (index (repeat_purchase_rate_table df)) <->
            exists p r, In r df /\ is_repeat_purchase r = true /\
                        month_key r = Some (c, p)).
  { intros c. unfold repeat_purchase_rate_table. rewrite pivot_table_index.
    split.
    - intros (row & Hrow & <-). apply in_map_iff in Hrow.
      destruct Hrow as (fr & <- & Hfr). simpl.
      exists (repeat_purchase_month fr). apply repeat_frame_key. eauto.
    - intros (p & Hr). apply repeat_frame_key in Hr.
      destruct Hr as (fr & Hfr & <- & _).
      eexists. split; [apply in_map, Hfr | reflexivity]. }
  assert (Hlab : forall o, In o (labels (repeat_purchase_rate_table df)) <->
            exists r c p, In r df /\ is_repeat_purchase r = true /\
                          month_key r = Some (c, p) /\ o = period_diff_n p c).
  { intros o. unfold repeat_purchase_rate_table. rewrite pivot_table_labels.
    split.
    - intros (row & Hrow & <-). apply in_map_iff in Hrow.
      destruct Hrow as (fr & <- & Hfr). simpl.
      destruct (proj1 (repeat_frame_key df (repeat_cohort_month fr)
                         (repeat_purchase_month fr))) as (r & Hr & Hrep & Hk);
        [eauto|].
      exists r, (repeat_cohort_month fr), (repeat_purchase_month fr).
      repeat split; try assumption. apply (repeat_offset _ _ Hfr).
    - intros (r & c & p & Hr & Hrep & Hk & ->).
      destruct (proj2 (repeat_frame_key df c p)) as (fr & Hfr & <- & <-);
        [eauto|].
      eexists. split; [apply in_map, Hfr|]. simpl.
      apply (repeat_offset _ _ Hfr). }
  split; [|split; [exact Hlab|split; [|split; [|split; [|split]]]]].
  - intros c. rewrite Hidx. split.
    + intros (p & r & Hr & Hrep & Hk). exists r.
      apply month_key_cohort in Hk. auto.
    + intros (r & Hr & Hrep & Hc).
      destruct (@repeat_has_months df0 df r He Hr Hrep) as (c' & p & Hk).
      pose proof (@month_key_cohort _ _ Hk) as Hc'. simpl in Hc'.
      assert (c' = c) by congruence. subst. eauto.
  - intros c Hc. apply Hidx in Hc. destruct Hc as (p & r & Hr & _ & Hk).
    destruct (proj2 (spend_frame_key df c p)) as (s & Hs & <- & _); [eauto|].
    unfold ltv. apply pivot_table_index.
    eexists. split; [apply in_map, Hs | reflexivity].
  - intros o Ho. apply Hlab in Ho.
    destruct Ho as (r & c & p & Hr & _ & Hk & ->).
    destruct (proj2 (spend_frame_key df c p)) as (s & Hs & <- & <-); [eauto|].
    unfold ltv. apply pivot_table_labels.
    eexists. split; [apply in_map, Hs|]. simpl. apply (spend_offset _ _ Hs).
  - apply pivot_table_rectangular.
  - apply pivot_table_rectangular.
  - intros c o Hc Ho Hnone. unfold repeat_purchase_rate_table in *.
    simpl in Hc, Ho. rewrite In_months in Hc, Ho.
    rewrite cell_at_pivot by assumption. f_equal.
    unfold pivot_cell. rewrite filter_nil; [reflexivity|].
    intros row Hrow. apply in_map_iff in Hrow.
    destruct Hrow as (fr & <- & Hfr). simpl.
    destruct (pair_eqb _ _) eqn:E; [|reflexivity].
    apply pair_eqb_eq in E. injection E as Ec Eo.
    rewrite (repeat_offset _ _ Hfr) in Eo. unfold period_diff_n in Eo.
    destruct (proj1 (repeat_frame_key df (repeat_cohort_month fr)
                       (repeat_purchase_month fr))) as (r & Hr & Hrep & Hk);
      [eauto|].
    exfalso. apply (Hnone r Hr Hrep). rewrite Hk. f_equal. f_equal; lia.
Qed.

(** ** Cohort sizes *)

(** The sizes lines 60 and 91 divide by are not zero: a cohort month of
    the frame has a row, and the join has kept only rows with a customer. *)
Lemma cohort_size_positive df0 df c :
  enrich df0 = Ok df ->
  In c (somes (map cohort_month df)) ->
  (0 < cohort_size_of df c)%nat.
Proof.
  intros He Hc. rewrite In_somes, in_map_iff in Hc.
  destruct Hc as (r & Hc & Hr).
  destruct (@enrich_first_purchase df0 df He) as (txs & _ & Hcust & _).
  assert (Hna : isna (customer_email r) = false).
  { apply (in_map customer_email) in Hr. rewrite Hcust in Hr.
    apply in_map_iff in Hr. destruct Hr as (t & <- & Ht).
    apply filter_In in Ht. destruct Ht as [_ Ht].
    destruct (isna (snd (fst t))); [discriminate | reflexivity]. }
  unfold cohort_size_of, nunique.
  assert (Hin : In (customer_email r)
                   (unique (map customer_email (filter (in_cohort c) df)))).
  { apply In_unique. split; [|exact Hna].
    apply in_map, filter_In. split; [exact Hr|]. apply in_cohort_iff, Hc. }
  destruct (unique _); [contradiction | simpl; lia].
Qed.

(** ** Valid tables are read *)

Lemma mapM_total {A B} (f : A -> result B) l :
  (forall a, In a l -> exists b, f a = Ok b) -> exists l', mapM f l = Ok l'.
Proof.
  induction l as [|a tl IH]; simpl; intros H.
  - eauto.
  - destruct (H a) as (b & Hb); [auto|].
    destruct IH as (bs & Hbs); [auto|].
    rewrite Hb, Hbs. simpl. eauto.
Qed.

Lemma Forall2_combine_In {A B} (P : A -> B -> Prop) l l' a b :
  Forall2 P l l' -> In (a, b) (combine l l') -> P a b.
Proof.
  induction 1 as [|x y tl tl' Hxy _ IH]; simpl; intros Hin.
  - contradiction.
  - destruct Hin as [[= <- <-]|Hin]; auto.
Qed.

(** Where a row of [with_customer] comes from. *)
Lemma with_customer_In i_date i_cust rows dates t :
  mapM (fun r => to_datetime (nth i_date r CNaN)) rows = Ok dates ->
  In t (with_customer i_cust rows dates) ->
  In (fst (fst t)) rows /\
  snd (fst t) = nth i_cust (fst (fst t)) CNaN /\
  to_datetime (nth i_date (fst (fst t)) CNaN) = Ok (snd t).
Proof.
  intros Hd Hin. unfold with_customer in Hin. apply in_map_iff in Hin.
  destruct Hin as ([r d] & <- & Hin). simpl.
  split; [apply (@in_combine_l _ _ _ _ _ _ Hin)|]. split; [reflexivity|].
  apply mapM_Forall2 in Hd.
  apply (@Forall2_combine_In _ _ _ _ _ _ _ Hd Hin).
Qed.

Lemma enrich_steps df0 df :
  enrich df0 = Ok df ->
  exists i_date dates i_cust i_sales,
    get_loc "purchase_date" (columns (rename_day (iloc_first4 df0))) = Ok i_date /\
    mapM (fun r => to_datetime (nth i_date r CNaN))
         (values (rename_day (iloc_first4 df0))) = Ok dates /\
    get_loc "customer_email" (columns (rename_day (iloc_first4 df0))) = Ok i_cust /\
    get_loc "total_sales" (columns (rename_day (iloc_first4 df0))) = Ok i_sales /\
    mapM (derive i_sales)
         (merge_first_purchase
            (with_customer i_cust (values (rename_day (iloc_first4 df0))) dates)
            (first_purchase
               (with_customer i_cust (values (rename_day (iloc_first4 df0))) dates)))
    = Ok df.
Proof.
  unfold enrich, transactions. intros H.
  apply bind_Ok in H. destruct H as (txs & H1 & H).
  apply bind_Ok in H1. destruct H1 as (i_date & Hi & H1).
  apply bind_Ok in H1. destruct H1 as (dates & Hd & H1).
  apply bind_Ok in H1. destruct H1 as (i_cust & Hc & H1).
  injection H1 as <-.
  apply bind_Ok in H. destruct H as (_ & _ & H).
  apply bind_Ok in H. destruct H as (i_sales & Hs & H).
  exists i_date, dates, i_cust, i_sales. auto.
Qed.

(** Every row of the enriched frame is a row of the table, with its
    customer, its parsed date and its converted amount. *)
Lemma enrich_row_origin df0 df r :
  enrich df0 = Ok df -> In r df ->
  exists i_date i_cust i_sales fields,
    get_loc "purchase_date" (columns (rename_day (iloc_first4 df0))) = Ok i_date /\
    get_loc "customer_email" (columns (rename_day (iloc_first4 df0))) = Ok i_cust /\
    get_loc "total_sales" (columns (rename_day (iloc_first4 df0))) = Ok i_sales /\
    In fields (values (rename_day (iloc_first4 df0))) /\
    customer_email r = nth i_cust fields CNaN /\
    to_datetime (nth i_date fields CNaN) = Ok (purchase_date r) /\
    astype_float (nth i_sales fields CNaN) = Ok (total_sales r).
Proof.
  intros He Hr. apply enrich_steps in He.
  destruct He as (i_date & dates & i_cust & i_sales & Hi & Hd & Hc & Hs & H).
  destruct (@mapM_In _ _ _ _ _ _ H Hr) as (m & Hm & Hder).
  rewrite merge_first_purchase_rows in Hm. apply in_map_iff in Hm.
  destruct Hm as (t & <- & Ht). apply filter_In in Ht. destruct Ht as [Ht _].
  destruct (@with_customer_In _ _ _ _ _ Hd Ht) as (Hf & Hcust & Hdate).
  apply derive_fields in Hder. simpl in Hder.
  destruct Hder as (E1 & E2 & _ & _ & _ & E3).
  exists i_date, i_cust, i_sales, (fst (fst t)).
  rewrite E1, E2. auto 8.
Qed.

Lemma valid_input_inv df0 :
  valid_input df0 = true ->
  exists i_date i_cust i_sales,
    get_loc "purchase_date" (columns (rename_day (iloc_first4 df0))) = Ok i_date /\
    get_loc "customer_email" (columns (rename_day (iloc_first4 df0))) = Ok i_cust /\
    get_loc "total_sales" (columns (rename_day (iloc_first4 df0))) = Ok i_sales /\
    existsb (String.eqb "first_purchase_date")
            (columns (rename_day (iloc_first4 df0))) = false /\
    forall fields, In fields (values (rename_day (iloc_first4 df0))) ->
      is_date (nth i_date fields CNaN) = true /\
      isna (nth i_cust fields CNaN) = false /\
      is_number (nth i_sales fields CNaN) = true.
Proof.
  unfold valid_input.
  destruct (get_loc "purchase_date" _) as [i_date|]; [|discriminate].
  destruct (get_loc "customer_email" _) as [i_cust|]; [|discriminate].
  destruct (get_loc "total_sales" _) as [i_sales|]; [|discriminate].
  rewrite andb_true_iff, negb_true_iff, forallb_forall.
  intros [Hfp Hrows]. exists i_date, i_cust, i_sales.
  repeat split; try reflexivity; try exact Hfp;
    specialize (Hrows fields H);
    rewrite !andb_true_iff, negb_true_iff in Hrows; tauto.
Qed.

(** A valid table is read without error, row for row, and every row of
    the frame has its date and its amount. *)
Lemma valid_input_enrich df0 :
  valid_input df0 = true ->
  exists df,
    enrich df0 = Ok df /\
    length df = length (values df0) /\
    Forall complete df.
Proof.
  intros Hv. destruct (@valid_input_inv df0 Hv)
    as (i_date & i_cust & i_sales & Hi & Hc & Hs & Hfp & Hrows).
  destruct (@mapM_total _ _ (fun r => to_datetime (nth i_date r CNaN))
                       (values (rename_day (iloc_first4 df0))))
    as (dates & Hd).
  { intros fields Hf. destruct (Hrows fields Hf) as (Hdate & _ & _).
    destruct (nth i_date fields CNaN); try discriminate. simpl. eauto. }
  set (txs := with_customer i_cust (values (rename_day (iloc_first4 df0))) dates).
  assert (Htx : transactions (rename_day (iloc_first4 df0)) = Ok txs).
  { unfold transactions. rewrite Hi. cbn [bind]. rewrite Hd. cbn [bind].
    rewrite Hc. reflexivity. }
  assert (Hna : Forall (fun t : list cell * cell * option Timestamp =>
                          isna (snd (fst t)) = false) txs).
  { rewrite Forall_forall. intros t Ht.
    destruct (@with_customer_In _ _ _ _ _ Hd Ht) as (Hf & -> & _).
    apply (Hrows _ Hf). }
  destruct (@mapM_total _ _ (derive i_sales)
                       (merge_first_purchase txs (first_purchase txs)))
    as (df & Hdf).
  { intros m Hm. rewrite merge_first_purchase_rows in Hm.
    apply in_map_iff in Hm. destruct Hm as (t & <- & Ht).
    apply filter_In in Ht. destruct Ht as [Ht _].
    destruct (@with_customer_In _ _ _ _ _ Hd Ht) as (Hf & _ & _).
    destruct (Hrows _ Hf) as (_ & _ & Hnum).
    destruct t as [[fields cust] d]. simpl in *. unfold derive.
    destruct (nth i_sales fields CNaN); try discriminate. simpl. eauto. }
  assert (He : enrich df0 = Ok df).
  { unfold enrich. rewrite Htx. cbn [bind]. rewrite Hfp. cbn [bind].
    rewrite Hs. cbn [bind]. exact Hdf. }
  exists df. split; [exact He|]. split.
  - rewrite (@mapM_length _ _ _ _ _ Hdf), merge_first_purchase_rows, length_map.
    rewrite filter_all.
    + rewrite (@transactions_length _ _ Htx). simpl. apply length_map.
    + rewrite Forall_forall in Hna. intros t Ht. rewrite (Hna t Ht). reflexivity.
  - rewrite Forall_forall. intros r Hr.
    destruct (@enrich_row_origin df0 df r He Hr)
      as (i_date' & i_cust' & i_sales' & fields & Hi' & Hc' & Hs' & Hf & _ & Hdate & Hamt).
    rewrite Hi in Hi'. injection Hi' as <-.
    rewrite Hs in Hs'. injection Hs' as <-.
    destruct (Hrows _ Hf) as (Hd1 & _ & Hn1). unfold complete.
    destruct (nth i_date fields CNaN); try discriminate.
    destruct (nth i_sales fields CNaN); try discriminate.
    simpl in Hdate, Hamt. injection Hdate as <-. injection Hamt as <-.
    split; discriminate.
Qed.

Lemma nonnegative_amounts_enrich df0 df :
  nonnegative_amounts df0 = true -> enrich df0 = Ok df ->
  Forall (fun r => (0 <= nan_to_zero (total_sales r))%Qc) df.
Proof.
  intros Hn He. rewrite Forall_forall. intros r Hr.
  destruct (@enrich_row_origin df0 df r He Hr)
    as (_ & _ & i_sales & fields & _ & _ & Hs & Hf & _ & _ & Hamt).
  unfold nonnegative_amounts in Hn. rewrite Hs in Hn.
  rewrite forallb_forall in Hn. specialize (Hn _ Hf).
  destruct (nth i_sales fields CNaN); try discriminate.
  simpl in Hn, Hamt. injection Hamt as <-. simpl.
  apply Qle_bool_iff in Hn. exact Hn.
Qed.


(** ** The join on valid tables *)



(** C3, amended. On every valid table the repeat purchase rate report is
    built from the repeat purchases alone: it has a row for each cohort
    month in which some customer bought again and a column for each offset
    at which a repeat purchase took place, all of them rows and columns of
    the LTV report; it is a full grid over these, and a cell of the grid
    that no repeat purchase falls in holds 0. *)
Theorem repeat_rate_shape (df0 : DataFrame) :
  valid_input df0 = true ->
  exists df,
    enrich df0 = Ok df /\
    (forall c, In c (index (repeat_purchase_rate_table df)) <->
       exists r, In r df /\ is_repeat_purchase r = true /\
                 cohort_month r = Some c) /\
    (forall o, In o (labels (repeat_purchase_rate_table df)) <->
       exists r c p, In r df /\ is_repeat_purchase r = true /\
                     month_key r = Some (c, p) /\ o = period_diff_n p c) /\
    incl (index (repeat_purchase_rate_table df)) (index (ltv df)) /\
    incl (labels (repeat_purchase_rate_table df)) (labels (ltv df)) /\
    length (matrix (repeat_purchase_rate_table df))
      = length (index (repeat_purchase_rate_table df)) /\
    Forall (fun row => length row = length (labels (repeat_purchase_rate_table df)))
           (matrix (repeat_purchase_rate_table df)) /\
    (forall c o,
       In c (index (repeat_purchase_rate_table df)) ->
       In o (labels (repeat_purchase_rate_table df)) ->
       (forall r, In r df -> is_repeat_purchase r = true ->
                  month_key r <> Some (c, c + o)) ->
       cell_at (repeat_purchase_rate_table df) c o = Some 0%Qc).
Proof.
  intros Hv. destruct (@valid_input_enrich df0 Hv) as (df & He & _).
  exists df. split; [exact He|].
  apply (@repeat_rate_shape_rows df0 df He).
Qed.

Lemma repeat_rate_shape_witness :
  exists df,
    enrich three_customers = Ok df /\
    incl (index (repeat_purchase_rate_table df)) (index (ltv df)).
Proof.
  destruct (@repeat_rate_shape three_customers eq_refl)
    as (df & He & _ & _ & Hincl & _).
  exists df. split; assumption.
Defined.

(** ** The claims on the three customers *)

Lemma pivot_cells_from_one_row_witness :
  exists s,
    In s (cohort_monthly_spend three_customers_enriched) /\
    cell_at (revenue three_customers_enriched)
            (spend_cohort_month s) (months_since_initial_purchase s)
    = Some (spend_total_sales s).
Proof.
  destruct (pivot_cells_from_one_row three_customers_enriched) as (_ & H & _).
  destruct (cohort_monthly_spend three_customers_enriched) as [|s tl] eqn:E;
    [vm_compute in E; discriminate|].
  exists s. split; [left; reflexivity|].
  apply (H s). left. reflexivity.
Defined.

Lemma runs_agree_witness :
  read_file ltv_path (fst (process_csv three_customers []))
  = read_file ltv_path
      (fst (process_csv three_customers [(ltv_path, SizeTable [])])).
Proof.
  destruct (runs_agree three_customers [] [(ltv_path, SizeTable [])])
    as [_ H].
  apply (H report_names).
  - vm_compute. reflexivity.
  - left. reflexivity.
Defined.

(** * Further properties of the code *)

(** ** The upload guard *)

Lemma rsplit1_no_sep sep s : contains sep s = false -> rsplit1 sep s = [s].
Proof.
  induction s as [|c tl IH]; simpl; intros H.
  - reflexivity.
  - apply orb_false_iff in H. destruct H as [Hc Htl].
    rewrite (IH Htl), Hc. reflexivity.
Qed.

(** Splitting at the last separator: what follows it has none. *)
Lemma rsplit1_last sep stem ext :
  contains sep ext = false ->
  rsplit1 sep (stem ++ String sep ext) = [stem; ext].
Proof.
  intros Hext. induction stem as [|c tl IH]; simpl.
  - rewrite (@rsplit1_no_sep sep ext Hext), Ascii.eqb_refl. reflexivity.
  - rewrite IH. reflexivity.
Qed.

Lemma rsplit1_sep sep s :
  contains sep s = true ->
  exists stem ext,
    s = (stem ++ String sep ext)%string /\ contains sep ext = false /\
    rsplit1 sep s = [stem; ext].
Proof.
  induction s as [|c tl IH]; simpl; intros H.
  - discriminate.
  - destruct (contains sep tl) eqn:Htl.
    + destruct (IH eq_refl) as (stem & ext & -> & Hext & Hsplit).
      exists (String c stem), ext. rewrite Hsplit. auto.
    + rewrite orb_false_r in H. apply Ascii.eqb_eq in H. subst c.
      exists EmptyString, tl.
      rewrite (@rsplit1_no_sep sep tl Htl), Ascii.eqb_refl. auto.
Qed.

Lemma contains_app sep a b :
  contains sep (a ++ b) = contains sep a || contains sep b.
Proof.
  induction a as [|c tl IH]; simpl; [reflexivity|].
  rewrite IH. apply orb_assoc.
Qed.

(** X1. [allowed_file] accepts a name exactly when it has a dot and what
    follows its last dot reads csv once lowered: the stem is free, also
    empty, and a name without a dot or ending in a dot is refused. *)
Theorem allowed_file_last_extension (filename : string) :
  allowed_file filename = true <->
  exists stem ext,
    filename = (stem ++ "." ++ ext)%string /\
    contains "." ext = false /\
    lower ext = "csv"%string.
Proof.
  unfold allowed_file. split.
  - rewrite andb_true_iff. intros [Hdot H].
    destruct (@rsplit1_sep "."%char filename Hdot)
      as (stem & ext & -> & Hext & Hsplit).
    rewrite Hsplit in H. simpl in H. rewrite orb_false_r in H.
    apply String.eqb_eq in H. exists stem, ext. auto.
  - intros (stem & ext & -> & Hext & Hlow).
    change ("." ++ ext)%string with (String "." ext).
    rewrite contains_app, rsplit1_last by exact Hext.
    simpl. rewrite Hlow, orb_true_r. reflexivity.
Qed.

(** ** The order of timestamps *)

Lemma ts_gtb_false_iff a b :
  ts_gtb a b = false <->
  (year a < year b \/
   (year a = year b /\
    (month a < month b \/
     (month a = month b /\
      (day a < day b \/
       (day a = day b /\ nanosecond a <= nanosecond b)))))).
Proof.
  unfold ts_gtb, ts_compare.
  destruct (Z.compare_spec (year a) (year b));
    destruct (Z.compare_spec (month a) (month b));
    destruct (Z.compare_spec (day a) (day b));
    destruct (Z.compare_spec (nanosecond a) (nanosecond b));
    split; intros; try discriminate; try reflexivity; lia.
Qed.

Lemma ts_gtb_true_iff a b :
  ts_gtb a b = true <->
  (year b < year a \/
   (year a = year b /\
    (month b < month a \/
     (month a = month b /\
      (day b < day a \/
       (day a = day b /\ nanosecond b < nanosecond a)))))).
Proof.
  unfold ts_gtb, ts_compare.
  destruct (Z.compare_spec (year a) (year b));
    destruct (Z.compare_spec (month a) (month b));
    destruct (Z.compare_spec (day a) (day b));
    destruct (Z.compare_spec (nanosecond a) (nanosecond b));
    split; intros; try discriminate; try reflexivity; lia.
Qed.

Lemma ts_gtb_irrefl a : ts_gtb a a = false.
Proof. apply ts_gtb_false_iff. lia. Qed.

Lemma ts_le_trans a b c :
  ts_gtb a b = false -> ts_gtb b c = false -> ts_gtb a c = false.
Proof. rewrite !ts_gtb_false_iff. lia. Qed.

Lemma ts_gt_le_trans a b c :
  ts_gtb a b = true -> ts_gtb c b = false -> ts_gtb a c = true.
Proof. rewrite !ts_gtb_true_iff, ts_gtb_false_iff. lia. Qed.

Lemma ts_min_le_l a b : ts_gtb (ts_min a b) a = false.
Proof.
  unfold ts_min. destruct (ts_gtb a b) eqn:E; [|apply ts_gtb_irrefl].
  apply ts_gtb_true_iff in E. apply ts_gtb_false_iff. lia.
Qed.

Lemma ts_min_le_r a b : ts_gtb (ts_min a b) b = false.
Proof.
  unfold ts_min. destruct (ts_gtb a b) eqn:E; [apply ts_gtb_irrefl | exact E].
Qed.

Lemma nanmin_In l f : nanmin l = Some f -> In (Some f) l.
Proof.
  revert f. induction l as [|[t|] tl IH]; simpl; intros f H.
  - discriminate.
  - destruct (nanmin tl) as [m|].
    + injection H as <-. unfold ts_min. destruct (ts_gtb t m); auto.
    + injection H as <-. auto.
  - auto.
Qed.

Lemma nanmin_le l f d :
  nanmin l = Some f -> In (Some d) l -> ts_gtb f d = false.
Proof.
  revert f. induction l as [|[t|] tl IH]; simpl; intros f H Hin.
  - contradiction.
  - destruct (nanmin tl) as [m|] eqn:Em.
    + injection H as <-. destruct Hin as [[= ->]|Hin].
      * apply ts_min_le_l.
      * apply ts_le_trans with (b := m); [apply ts_min_le_r | auto].
    + injection H as <-. destruct Hin as [[= ->]|Hin].
      * apply ts_gtb_irrefl.
      * exfalso. clear IH. induction tl as [|[x|] tl' IH']; simpl in *.
        -- contradiction.
        -- destruct (nanmin tl'); discriminate.
        -- destruct Hin as [Hin|Hin]; [discriminate | auto].
  - destruct Hin as [Hin|Hin]; [discriminate | auto].
Qed.

Lemma nanmin_None l : nanmin l = None <-> forall d, ~ In (Some d) l.
Proof.
  induction l as [|[t|] tl IH]; simpl.
  - split; [intros _ d H; exact H | reflexivity].
  - split.
    + destruct (nanmin tl); discriminate.
    + intros H. exfalso. apply (H t). auto.
  - rewrite IH. split.
    + intros H d [Hd|Hd]; [discriminate | apply (H d Hd)].
    + intros H d Hd. apply (H d). auto.
Qed.

(** ** The rows of the enriched frame *)

(** The enriched frame is the table without the rows that name no
    customer: the other rows in their order, each with its parsed date
    and the first purchase date of its customer. *)
Lemma enrich_rows_of_table df0 df :
  enrich df0 = Ok df ->
  exists txs,
    transactions (rename_day (iloc_first4 df0)) = Ok txs /\
    map (fun r => (customer_email r, purchase_date r)) df
    = map (fun t => (snd (fst t), snd t))
          (filter (fun t => negb (isna (snd (fst t)))) txs) /\
    forall r, In r df ->
      first_purchase_date r = first_purchase_of txs (customer_email r).
Proof.
  intros He.
  destruct (@enrich_first_purchase df0 df He) as (txs & Ht & _ & Hf).
  exists txs. split; [exact Ht|]. split; [|exact Hf]. clear Hf.
  apply enrich_inv in He. destruct He as (txs' & i & Ht' & H).
  rewrite Ht in Ht'. injection Ht' as <-.
  rewrite merge_first_purchase_rows in H.
  apply mapM_Forall2 in H. revert H.
  generalize (filter (fun t : list cell * cell * option Timestamp =>
                        negb (isna (snd (fst t)))) txs).
  intros l H. remember (map _ l) as ml eqn:E. revert l E.
  induction H as [|m r ms rs Hm _ IH]; intros [|t tl] E; simpl in *;
    try discriminate; [reflexivity|].
  injection E as -> ->. apply derive_fields in Hm. simpl in Hm.
  destruct Hm as (-> & -> & _). f_equal. apply IH. reflexivity.
Qed.

Lemma map_filter_pairs {A B K V} (f : A -> K * V) (g : B -> K * V)
    (P : K -> bool) la lb :
  map f la = map g lb ->
  map (fun a => snd (f a)) (filter (fun a => P (fst (f a))) la)
  = map (fun b => snd (g b)) (filter (fun b => P (fst (g b))) lb).
Proof.
  intros E.
  transitivity (map snd (filter (fun kv : K * V => P (fst kv)) (map f la))).
  - rewrite filter_map_comm, map_map. reflexivity.
  - rewrite E, filter_map_comm, map_map. reflexivity.
Qed.

Lemma enrich_customer_named df0 df r :
  enrich df0 = Ok df -> In r df -> isna (customer_email r) = false.
Proof.
  intros He Hr.
  destruct (@enrich_first_purchase df0 df He) as (txs & _ & Hc & _).
  apply (in_map customer_email) in Hr. rewrite Hc in Hr.
  apply in_map_iff in Hr. destruct Hr as (t & <- & Ht).
  apply filter_In in Ht. destruct Ht as [_ Ht].
  destruct (isna (snd (fst t))); [discriminate | reflexivity].
Qed.

(** The first purchase date of a row is the earliest date among the rows
    of its customer. *)
Lemma enrich_first_is_min df0 df r :
  enrich df0 = Ok df -> In r df ->
  first_purchase_date r = nanmin (map purchase_date (of_customer r df)).
Proof.
  intros He Hr.
  destruct (@enrich_rows_of_table df0 df He) as (txs & _ & Hrows & Hf).
  rewrite (Hf r Hr). unfold first_purchase_of, of_customer. f_equal.
  pose proof (@map_filter_pairs _ _ _ _
                (fun r' : Row => (customer_email r', purchase_date r'))
                (fun t : list cell * cell * option Timestamp => (snd (fst t), snd t))
                (fun c => cell_eqb c (customer_email r)) _ _ Hrows) as E.
  simpl in E. symmetry. etransitivity; [exact E|].
  rewrite filter_filter.
  change (fun b : list cell * cell * option Timestamp => snd b)
    with (@snd (list cell * cell) (option Timestamp)).
  f_equal. apply filter_ext. intros t.
  destruct (cell_eqb (snd (fst t)) (customer_email r)) eqn:Ec;
    [|rewrite andb_false_r; reflexivity].
  apply cell_eqb_eq in Ec. rewrite Ec.
  rewrite (@enrich_customer_named df0 df r He Hr). reflexivity.
Qed.

Lemma In_of_customer r r' df :
  In r' (of_customer r df) <-> In r' df /\ customer_email r' = customer_email r.
Proof. unfold of_customer. rewrite filter_In, cell_eqb_eq. reflexivity. Qed.

(** X2. The first purchase date the join attaches to a row is the
    earliest purchase date of its customer: it is the date of one of the
    customer's rows, no row of the customer is dated before it, and it is
    missing only when every row of the customer lacks a date. *)
Theorem first_purchase_is_earliest (df0 : DataFrame) (df : list Row) (r : Row) :
  enrich df0 = Ok df -> In r df ->
  (forall f, first_purchase_date r = Some f ->
     (exists r', In r' df /\ customer_email r' = customer_email r /\
                 purchase_date r' = Some f) /\
     (forall r' d, In r' df -> customer_email r' = customer_email r ->
                   purchase_date r' = Some d -> ts_gtb f d = false)) /\
  (first_purchase_date r = None <->
     forall r', In r' df -> customer_email r' = customer_email r ->
                purchase_date r' = None).
Proof.
  intros He Hr. rewrite (@enrich_first_is_min df0 df r He Hr). split.
  - intros f Hmin. split.
    + apply nanmin_In in Hmin. apply in_map_iff in Hmin.
      destruct Hmin as (r' & Hd & Hin). apply In_of_customer in Hin.
      exists r'. tauto.
    + intros r' d Hin Hc Hd. apply (@nanmin_le _ f d Hmin).
      rewrite <- Hd. apply in_map, In_of_customer. auto.
  - rewrite nanmin_None. split.
    + intros H r' Hin Hc. destruct (purchase_date r') as [d|] eqn:Hd; [|reflexivity].
      exfalso. apply (H d). rewrite <- Hd. apply in_map, In_of_customer. auto.
    + intros H d Hin. apply in_map_iff in Hin. destruct Hin as (r' & Hd & Hin).
      apply In_of_customer in Hin. rewrite (H r') in Hd by tauto. discriminate.
Qed.

Lemma first_purchase_is_earliest_witness :
  exists r,
    In r three_customers_enriched /\
    forall f, first_purchase_date r = Some f ->
      exists r', In r' three_customers_enriched /\
                 customer_email r' = customer_email r /\
                 purchase_date r' = Some f.
Proof.
  destruct three_customers_enriched as [|r tl] eqn:E; [discriminate|].
  exists r. split; [left; reflexivity|].
  intros f Hf.
  apply (proj1 (@first_purchase_is_earliest three_customers (r :: tl) r
                  (eq_trans three_customers_enrich (f_equal Ok E))
                  (or_introl eq_refl))
         f Hf).
Defined.

(** X3. A purchase counts as a repeat exactly when the same customer has
    a purchase dated strictly before it; so the earliest purchase of a
    customer, and the only purchase of a customer who bought once, is
    never a repeat. *)
Theorem repeat_iff_earlier_purchase (df0 : DataFrame) (df : list Row) (r : Row) :
  enrich df0 = Ok df -> In r df ->
  (is_repeat_purchase r = true <->
   exists r' d d',
     In r' df /\ customer_email r' = customer_email r /\
     purchase_date r = Some d /\ purchase_date r' = Some d' /\
     ts_gtb d d' = true).
Proof.
  intros He Hr.
  pose proof (@enrich_first_is_min df0 df r He Hr) as Hmin.
  unfold is_repeat_purchase. split.
  - destruct (purchase_date r) as [d|] eqn:Hd; [|discriminate].
    destruct (first_purchase_date r) as [f|] eqn:Hf; [|discriminate].
    intros Hgt. symmetry in Hmin. apply nanmin_In in Hmin.
    apply in_map_iff in Hmin. destruct Hmin as (r' & Hd' & Hin).
    apply In_of_customer in Hin. exists r', d, f. tauto.
  - intros (r' & d & d' & Hin & Hc & Hd & Hd' & Hgt). rewrite Hd.
    destruct (first_purchase_date r) as [f|] eqn:Hf.
    + symmetry in Hmin. apply (@ts_gt_le_trans d d' f Hgt).
      apply (@nanmin_le _ f d' Hmin). rewrite <- Hd'.
      apply in_map, In_of_customer. auto.
    + symmetry in Hmin. exfalso. apply (proj1 (nanmin_None _) Hmin d').
      rewrite <- Hd'. apply in_map, In_of_customer. auto.
Qed.

Lemma repeat_iff_earlier_purchase_witness :
  exists r, In r three_customers_enriched /\ is_repeat_purchase r = false.
Proof.
  destruct three_customers_enriched as [|r tl] eqn:E; [discriminate|].
  exists r. split; [left; reflexivity|].
  destruct (is_repeat_purchase r) eqn:Hrep; [|reflexivity].
  exfalso.
  destruct (proj1 (@repeat_iff_earlier_purchase three_customers (r :: tl) r
                     (eq_trans three_customers_enrich (f_equal Ok E))
                     (or_introl eq_refl)) Hrep)
    as (r' & d & d' & Hin & Hc & Hd & Hd' & Hgt).
  injection E as <- <-.
  simpl in Hin. simpl in Hd. injection Hd as <-.
  repeat (destruct Hin as [<-|Hin];
          [first [ discriminate Hc
                 | simpl in Hd'; injection Hd' as <-; vm_compute in Hgt;
                   discriminate Hgt ]|]).
  exact Hin.
Defined.

(** X4. A row of the table that names no customer is dropped by the join
    without an error, and its amount is never converted: the enriched
    frame holds exactly the rows that name a customer, in the order of the
    table, each with its customer and its parsed date. *)
Theorem rows_without_customer_dropped (df0 : DataFrame) (df : list Row) :
  enrich df0 = Ok df ->
  exists txs,
    transactions (rename_day (iloc_first4 df0)) = Ok txs /\
    length txs = length (values df0) /\
    map (fun r => (customer_email r, purchase_date r)) df
    = map (fun t => (snd (fst t), snd t))
          (filter (fun t => negb (isna (snd (fst t)))) txs) /\
    length df = length (filter (fun t => negb (isna (snd (fst t)))) txs).
Proof.
  intros He.
  destruct (@enrich_rows_of_table df0 df He) as (txs & Ht & Hrows & _).
  exists txs. split; [exact Ht|]. split; [|split; [exact Hrows|]].
  - rewrite (@transactions_length _ _ Ht). simpl. apply length_map.
  - rewrite <- (length_map (fun r => (customer_email r, purchase_date r))).
    rewrite Hrows. apply length_map.
Qed.

Lemma rows_without_customer_dropped_witness :
  exists df txs,
    enrich with_anonymous_row = Ok df /\
    transactions (rename_day (iloc_first4 with_anonymous_row)) = Ok txs /\
    length txs = 5%nat /\ length df = 4%nat.
Proof.
  destruct (enrich with_anonymous_row) as [df|e] eqn:He;
    [|vm_compute in He; discriminate].
  destruct (@rows_without_customer_dropped with_anonymous_row df He)
    as (txs & Ht & Hlen & _ & Hdf).
  exists df, txs. split; [reflexivity|]. split; [exact Ht|].
  split; [exact Hlen|].
  rewrite Hdf. vm_compute in Ht. injection Ht as <-. reflexivity.
Defined.

(** ** Month offsets *)

Lemma to_period_M_monotone f d :
  calendar_month f -> calendar_month d -> ts_gtb f d = false ->
  to_period_M f <= to_period_M d.
Proof.
  unfold calendar_month, to_period_M. rewrite ts_gtb_false_iff. lia.
Qed.

Lemma ltv_revenue_same_labels df :
  index (ltv df) = index (revenue df) /\ labels (ltv df) = labels (revenue df).
Proof. unfold ltv, revenue. simpl. rewrite !map_map. simpl. auto. Qed.

Lemma ltv_index_iff df c :
  In c (index (ltv df)) <-> exists r p, In r df /\ month_key r = Some (c, p).
Proof.
  unfold ltv. rewrite pivot_table_index. split.
  - intros (row & Hrow & <-). apply in_map_iff in Hrow.
    destruct Hrow as (s & <- & Hs). simpl.
    destruct (proj1 (spend_frame_key df (spend_cohort_month s)
                       (spend_purchase_month s))) as (r & Hr & Hk); [eauto|].
    eauto.
  - intros (r & p & Hr & Hk).
    destruct (proj2 (spend_frame_key df c p)) as (s & Hs & <- & _); [eauto|].
    eexists. split; [apply in_map, Hs | reflexivity].
Qed.

Lemma ltv_labels_iff df o :
  In o (labels (ltv df)) <->
  exists r c p, In r df /\ month_key r = Some (c, p) /\ o = period_diff_n p c.
Proof.
  unfold ltv. rewrite pivot_table_labels. split.
  - intros (row & Hrow & <-). apply in_map_iff in Hrow.
    destruct Hrow as (s & <- & Hs). simpl.
    destruct (proj1 (spend_frame_key df (spend_cohort_month s)
                       (spend_purchase_month s))) as (r & Hr & Hk); [eauto|].
    exists r, (spend_cohort_month s), (spend_purchase_month s).
    repeat split; try assumption. apply (spend_offset _ _ Hs).
  - intros (r & c & p & Hr & Hk & ->).
    destruct (proj2 (spend_frame_key df c p)) as (s & Hs & <- & <-); [eauto|].
    eexists. split; [apply in_map, Hs|]. simpl. apply (spend_offset _ _ Hs).
Qed.

(** No row is in a month before the month of its cohort. *)
Lemma cohort_month_le_purchase_month df0 df r c p :
  enrich df0 = Ok df ->
  Forall (fun r => forall d, purchase_date r = Some d -> calendar_month d) df ->
  In r df -> month_key r = Some (c, p) -> c <= p.
Proof.
  intros He Hcal Hr Hk. rewrite Forall_forall in Hcal.
  destruct (@enrich_months df0 df r He Hr) as [Hc Hp].
  pose proof (@month_key_cohort _ _ Hk) as Hc'.
  pose proof (@month_key_purchase _ _ Hk) as Hp'. simpl in Hc', Hp'.
  rewrite Hc in Hc'. rewrite Hp in Hp'.
  destruct (first_purchase_date r) as [f|] eqn:Hf; [|discriminate].
  destruct (purchase_date r) as [d|] eqn:Hd; [|discriminate].
  simpl in Hc', Hp'. injection Hc' as <-. injection Hp' as <-.
  pose proof (@enrich_first_is_min df0 df r He Hr) as Hmin.
  rewrite Hf in Hmin. symmetry in Hmin.
  apply to_period_M_monotone.
  - apply nanmin_In in Hmin. apply in_map_iff in Hmin.
    destruct Hmin as (r' & Hd' & Hin). apply In_of_customer in Hin.
    apply (Hcal r' (proj1 Hin) f Hd').
  - apply (Hcal r Hr d Hd).
  - apply (@nanmin_le _ f d Hmin). rewrite <- Hd.
    apply in_map, In_of_customer. auto.
Qed.

(** X5. On dates of the calendar no purchase month precedes its cohort
    month, so every column label of the three matrices is an offset of 0
    or more, and every cohort of the LTV and revenue matrices has a
    purchase at offset 0, the first purchases themselves. *)
Theorem offsets_nonnegative (df0 : DataFrame) (df : list Row) :
  enrich df0 = Ok df ->
  Forall (fun r => forall d, purchase_date r = Some d -> calendar_month d) df ->
  (forall o, In o (labels (ltv df)) -> 0 <= o) /\
  (forall o, In o (labels (revenue df)) -> 0 <= o) /\
  (forall o, In o (labels (repeat_purchase_rate_table df)) -> 0 <= o) /\
  (forall c, In c (index (ltv df)) ->
     In 0 (labels (ltv df)) /\
     exists r, In r df /\ month_key r = Some (c, c)).
Proof.
  intros He Hcal.
  assert (Hltv : forall o, In o (labels (ltv df)) -> 0 <= o).
  { intros o Ho. apply ltv_labels_iff in Ho.
    destruct Ho as (r & c & p & Hr & Hk & ->).
    pose proof (@cohort_month_le_purchase_month df0 df r c p He Hcal Hr Hk).
    unfold period_diff_n. lia. }
  split; [exact Hltv|]. split; [|split].
  - intros o Ho. apply Hltv.
    rewrite (proj2 (ltv_revenue_same_labels df)). exact Ho.
  - intros o Ho. unfold repeat_purchase_rate_table in Ho.
    apply pivot_table_labels in Ho. destruct Ho as (row & Hrow & <-).
    apply in_map_iff in Hrow. destruct Hrow as (fr & <- & Hfr). simpl.
    destruct (proj1 (repeat_frame_key df (repeat_cohort_month fr)
                       (repeat_purchase_month fr))) as (r & Hr & _ & Hk);
      [eauto|].
    pose proof (@cohort_month_le_purchase_month df0 df r _ _ He Hcal Hr Hk).
    rewrite (repeat_offset _ _ Hfr). unfold period_diff_n. lia.
  - intros c Hc. apply ltv_index_iff in Hc. destruct Hc as (r & p & Hr & Hk).
    assert (Hfirst : exists r', In r' df /\ month_key r' = Some (c, c)).
    { destruct (@enrich_months df0 df r He Hr) as [Hcm _].
      pose proof (@month_key_cohort _ _ Hk) as Hc'. simpl in Hc'.
      rewrite Hcm in Hc'.
      destruct (first_purchase_date r) as [f|] eqn:Hf; [|discriminate].
      simpl in Hc'. injection Hc' as Hc'.
      pose proof (@enrich_first_is_min df0 df r He Hr) as Hmin.
      rewrite Hf in Hmin. symmetry in Hmin. apply nanmin_In in Hmin.
      apply in_map_iff in Hmin. destruct Hmin as (r' & Hd' & Hin).
      apply In_of_customer in Hin. destruct Hin as [Hin Hcust].
      exists r'. split; [exact Hin|].
      destruct (@enrich_months df0 df r' He Hin) as [_ Hpm'].
      unfold month_key.
      rewrite (@cohort_of_customer df0 df r' r He Hin Hr Hcust).
      rewrite (@month_key_cohort _ _ Hk), Hpm', Hd'. simpl.
      rewrite Hc'. reflexivity. }
    split; [|exact Hfirst].
    destruct Hfirst as (r' & Hr' & Hk').
    apply ltv_labels_iff. exists r', c, c. unfold period_diff_n.
    repeat split; try assumption. lia.
Qed.

Lemma three_customers_calendar :
  Forall (fun r => forall d, purchase_date r = Some d -> calendar_month d)
         three_customers_enriched.
Proof.
  unfold three_customers_enriched.
  repeat (apply Forall_cons;
          [intros d [= <-]; unfold calendar_month; simpl; lia|]).
  apply Forall_nil.
Qed.

Lemma offsets_nonnegative_witness :
  Forall (fun o => 0 <= o) (labels (ltv three_customers_enriched)).
Proof.
  apply Forall_forall.
  exact (proj1 (@offsets_nonnegative three_customers three_customers_enriched
                  three_customers_enrich three_customers_calendar)).
Defined.

(** ** Rates and averages *)

Lemma Qc_of_nat_le n m : (n <= m)%nat -> (Qc_of_nat n <= Qc_of_nat m)%Qc.
Proof.
  intros H. unfold Qc_of_nat, Qcle. cbn [this Q2Qc]. rewrite !Qred_correct.
  rewrite <- Zle_Qle. lia.
Qed.

Lemma Qc_of_nat_pos m : (0 < m)%nat -> (0 < Qc_of_nat m)%Qc.
Proof.
  intros H. unfold Qc_of_nat, Qclt. cbn [this Q2Qc]. rewrite !Qred_correct.
  change 0%Q with (inject_Z 0). rewrite <- Zlt_Qlt. lia.
Qed.

Lemma Qc_of_nat_nonneg n : (0 <= Qc_of_nat n)%Qc.
Proof. apply (Qc_of_nat_le (n := 0)). lia. Qed.

Lemma Qcdiv_nonneg x y : (0 <= x)%Qc -> (0 < y)%Qc -> (0 <= x / y)%Qc.
Proof.
  intros Hx Hy. apply Qcmult_lt_0_le_reg_r with (z := y); [exact Hy|].
  rewrite Qcmult_0_l.
  replace (x / y * y)%Qc with x; [exact Hx|].
  unfold Qcdiv. field. intros E. rewrite E in Hy.
  apply (Qclt_not_eq _ _ Hy). reflexivity.
Qed.

Lemma Qcdiv_le_1 x y : (x <= y)%Qc -> (0 < y)%Qc -> (x / y <= 1)%Qc.
Proof.
  intros Hxy Hy. apply Qcmult_lt_0_le_reg_r with (z := y); [exact Hy|].
  rewrite Qcmult_1_l.
  replace (x / y * y)%Qc with x; [exact Hxy|].
  unfold Qcdiv. field. intros E. rewrite E in Hy.
  apply (Qclt_not_eq _ _ Hy). reflexivity.
Qed.

Lemma nunique_incl l l' :
  (forall c, In c l -> isna c = false -> In c l') -> (nunique l <= nunique l')%nat.
Proof.
  intros H. unfold nunique. apply NoDup_incl_length; [apply unique_NoDup|].
  intros c Hc. apply In_unique in Hc. apply In_unique. split; [|tauto].
  apply H; tauto.
Qed.

Lemma assoc_map_inv {A} (f : Z -> A) k keys v :
  assoc k keys (map f keys) = Some v -> In k keys /\ v = f k.
Proof.
  induction keys as [|x tl IH]; simpl; intros H.
  - discriminate.
  - destruct (x =? k) eqn:E.
    + apply Z.eqb_eq in E. subst. injection H as <-. auto.
    + destruct (IH H). auto.
Qed.

(** A cell that can be read lies on the grid and holds what the pivot put
    there. *)
Lemma cell_at_inv fill rows i c q :
  cell_at (pivot_table fill rows) i c = Some q ->
  In i (index (pivot_table fill rows)) /\
  In c (labels (pivot_table fill rows)) /\
  q = pivot_cell fill rows i c.
Proof.
  unfold cell_at, row_at. simpl.
  set (cols := sorted_unique Z.ltb (map (fun r : Z * Z * Qc => snd (fst r)) rows)).
  set (f := fun i0 => map (pivot_cell fill rows i0) cols).
  destruct (assoc i _ (map f _)) as [row|] eqn:Erow; [|discriminate].
  apply assoc_map_inv in Erow. destruct Erow as [Hi ->]. unfold f.
  intros H. apply assoc_map_inv in H. tauto.
Qed.

(** What a pivot cell holds when the keys of the rows are distinct: the
    value of the one row that falls in it, or the fill value. *)
Lemma pivot_cell_cases {A} (key : A -> Z * Z) (val : A -> Qc) fill l i c :
  NoDup (map key l) ->
  (exists x, In x l /\ key x = (i, c) /\
             pivot_cell fill (map (fun y => (key y, val y)) l) i c = val x) \/
  ((forall x, In x l -> key x <> (i, c)) /\
   pivot_cell fill (map (fun y => (key y, val y)) l) i c = fill).
Proof.
  intros Hnd.
  destruct (existsb (fun x => pair_eqb (key x) (i, c)) l) eqn:E.
  - left. apply existsb_exists in E. destruct E as (x & Hx & Hk).
    apply pair_eqb_eq in Hk. exists x. split; [exact Hx|]. split; [exact Hk|].
    pose proof (pivot_cell_single key val fill l x Hnd Hx) as H.
    rewrite Hk in H. exact H.
  - right. split.
    + intros x Hx Hk.
      assert (existsb (fun x => pair_eqb (key x) (i, c)) l = true).
      { apply existsb_exists. exists x. split; [exact Hx|].
        apply pair_eqb_eq, Hk. }
      congruence.
    + unfold pivot_cell. rewrite filter_nil; [reflexivity|].
      intros row Hrow. apply in_map_iff in Hrow.
      destruct Hrow as (x & <- & Hx). simpl.
      destruct (pair_eqb (key x) (i, c)) eqn:Ek; [|reflexivity].
      assert (existsb (fun x => pair_eqb (key x) (i, c)) l = true).
      { apply existsb_exists. exists x. auto. }
      congruence.
Qed.

Lemma repeat_frame_counts df0 df fr :
  enrich df0 = Ok df -> In fr (repeat_purchasers_frame df) ->
  (repeat_purchasers fr <= repeat_cohort_size fr)%nat /\
  (0 < repeat_cohort_size fr)%nat /\
  repeat_purchase_rate fr
  = (Qc_of_nat (repeat_purchasers fr) / Qc_of_nat (repeat_cohort_size fr))%Qc.
Proof.
  intros He Hfr.
  pose proof Hfr as Hfr'. rewrite repeat_purchasers_frame_rows in Hfr'.
  apply in_map_iff in Hfr'. destruct Hfr' as ([[c p] n] & <- & Hin).
  unfold repeat_counts in Hin. apply in_map_iff in Hin.
  destruct Hin as (k & [= -> <-] & Hk). simpl.
  rewrite In_month_keys, In_somes, in_map_iff in Hk.
  destruct Hk as (r & Hk & Hr). apply filter_In in Hr. destruct Hr as [Hr _].
  split; [|split; [|reflexivity]].
  - apply nunique_incl. intros cust Hc _. apply in_map_iff in Hc.
    destruct Hc as (r' & <- & Hr'). apply filter_In in Hr'.
    destruct Hr' as [Hr' Hk']. apply filter_In in Hr'. destruct Hr' as [Hr' _].
    apply in_map, filter_In. split; [exact Hr'|].
    apply in_cohort_iff. apply has_month_key_iff in Hk'.
    apply (@month_key_cohort _ _ Hk').
  - apply (@cohort_size_positive df0 df c He).
    rewrite In_somes, in_map_iff. exists r. split; [|exact Hr].
    apply (@month_key_cohort _ _ Hk).
Qed.

(** X6. Every repeat purchase rate is a fraction: the repeat purchasers
    of a cohort in a month are customers of that cohort, whose size is
    not zero, so each rate computed, and each cell of the repeat purchase
    rate matrix, lies between 0 and 1. *)
Theorem repeat_rate_is_fraction (df0 : DataFrame) (df : list Row) :
  enrich df0 = Ok df ->
  (forall fr, In fr (repeat_purchasers_frame df) ->
     (repeat_purchasers fr <= repeat_cohort_size fr)%nat /\
     (0 < repeat_cohort_size fr)%nat /\
     (0 <= repeat_purchase_rate fr <= 1)%Qc) /\
  (forall c o q,
     cell_at (repeat_purchase_rate_table df) c o = Some q ->
     (0 <= q <= 1)%Qc).
Proof.
  intros He.
  assert (Hrow : forall fr, In fr (repeat_purchasers_frame df) ->
     (repeat_purchasers fr <= repeat_cohort_size fr)%nat /\
     (0 < repeat_cohort_size fr)%nat /\
     (0 <= repeat_purchase_rate fr <= 1)%Qc).
  { intros fr Hfr.
    destruct (@repeat_frame_counts df0 df fr He Hfr) as (Hle & Hpos & ->).
    split; [exact Hle|]. split; [exact Hpos|]. split.
    - apply Qcdiv_nonneg; [apply Qc_of_nat_nonneg | apply Qc_of_nat_pos, Hpos].
    - apply Qcdiv_le_1; [apply Qc_of_nat_le, Hle | apply Qc_of_nat_pos, Hpos]. }
  split; [exact Hrow|].
  intros c o q Hcell. unfold repeat_purchase_rate_table in Hcell.
  apply cell_at_inv in Hcell. destruct Hcell as (_ & _ & ->).
  change (map (fun r : Repeat =>
                 (repeat_cohort_month r, repeat_months_since_initial_purchase r,
                  repeat_purchase_rate r))
              (repeat_purchasers_frame df))
    with (map (fun y => (repeat_cell y, repeat_purchase_rate y))
              (repeat_purchasers_frame df)).
  destruct (pivot_cell_cases repeat_cell repeat_purchase_rate 0%Qc
              (repeat_purchasers_frame df) c o (repeat_cells_NoDup df))
    as [(fr & Hfr & _ & ->)|[_ ->]].
  - apply (Hrow fr Hfr).
  - split; [apply Qcle_refl | discriminate].
Qed.

Lemma repeat_rate_is_fraction_witness :
  Forall (fun fr => (0 <= repeat_purchase_rate fr <= 1)%Qc)
         (repeat_purchasers_frame three_customers_enriched).
Proof.
  apply Forall_forall. intros fr Hfr.
  apply (proj1 (@repeat_rate_is_fraction three_customers
                  three_customers_enriched three_customers_enrich) fr Hfr).
Defined.

(** ** The LTV matrix against the revenue matrix *)

Lemma combine_map_r {A B} (f : A -> B) l :
  combine l (map f l) = map (fun a => (a, f a)) l.
Proof. induction l as [|a tl IH]; simpl; [reflexivity | rewrite IH; reflexivity]. Qed.

(** The cells of a row of a pivot table under the labels that pass [q]
    add up to the values of the frame with that index and such a label. *)
Lemma pivot_row_sum_where rows i (q : Z -> bool) :
  NoDup (map fst rows) ->
  Qcsum (map (pivot_cell 0%Qc rows i)
             (filter q (sorted_unique Z.ltb (map (fun r => snd (fst r)) rows))))
  = Qcsum (map snd (filter (fun r => (fst (fst r) =? i) && q (snd (fst r))) rows)).
Proof.
  intros Hnd.
  set (cols := filter q (sorted_unique Z.ltb (map (fun r => snd (fst r)) rows))).
  set (mine := filter (fun r : Z * Z * Qc => (fst (fst r) =? i) && q (snd (fst r)))
                      rows).
  rewrite <- (Qcsum_partition (fun c (r : Z * Z * Qc) => snd (fst r) =? c)
                              snd cols mine).
  - f_equal. apply map_ext_in. intros c Hc. unfold cols in Hc.
    apply filter_In in Hc. destruct Hc as [_ Hq].
    rewrite pivot_cell_sum by exact Hnd.
    unfold mine. rewrite filter_filter. do 2 f_equal.
    apply filter_ext. intros [[a b] v]. unfold pair_eqb. simpl.
    destruct (b =? c) eqn:E; [|rewrite !andb_false_r; reflexivity].
    apply Z.eqb_eq in E. subst. rewrite Hq, !andb_true_r. reflexivity.
  - intros x Hx. unfold mine in Hx. apply filter_In in Hx.
    destruct Hx as [Hx Hsel]. apply andb_true_iff in Hsel.
    apply Qcsum_select_one with (k0 := snd (fst x)).
    + apply NoDup_filter, months_NoDup.
    + apply filter_In. split; [|tauto].
      apply In_months. apply in_map_iff. exists x. auto.
    + intros k _. rewrite Z.eqb_eq. split; congruence.
Qed.

(** The cumulative total of a row is the sum of the monthly totals of its
    cohort up to its month. *)
Lemma cumulative_is_running_sum df s :
  In s (cohort_monthly_spend df) ->
  cumulative_total_spent s
  = Qcsum (map spend_total_sales
               (filter (fun s' => months_upto s (spend_key s'))
                       (cohort_monthly_spend df))).
Proof.
  intros Hs. rewrite (spend_totals_filter df (months_upto s)).
  rewrite cohort_monthly_spend_rows in Hs.
  apply in_map_iff in Hs. destruct Hs as ([[[c p] v] cum] & <- & Hin).
  apply cumsum_running in Hin. exact Hin.
Qed.

Lemma spend_row_size df s :
  In s (cohort_monthly_spend df) ->
  cohort_size s = cohort_size_of df (spend_cohort_month s) /\
  avg_cumulative_total_spent s
  = (cumulative_total_spent s / Qc_of_nat (cohort_size s))%Qc.
Proof.
  rewrite cohort_monthly_spend_rows, in_map_iff.
  intros ([[[c p] v] cum] & <- & _). simpl. auto.
Qed.

Lemma cells_upto_revenue df c o :
  In c (index (revenue df)) ->
  Qcsum (cells_upto (revenue df) c o)
  = Qcsum (map spend_total_sales
               (filter (fun s' => (spend_cohort_month s' =? c)
                                  && (months_since_initial_purchase s' <=? o))
                       (cohort_monthly_spend df))).
Proof.
  intros Hc. unfold cells_upto, row_at, revenue in *. simpl in *.
  set (rows := map (fun s => (spend_cohort_month s, months_since_initial_purchase s,
                              spend_total_sales s))
                   (cohort_monthly_spend df)) in *.
  set (cols := sorted_unique Z.ltb (map (fun r : Z * Z * Qc => snd (fst r)) rows)).
  rewrite (assoc_map (fun i => map (pivot_cell 0%Qc rows i) cols) c _ Hc).
  rewrite combine_map_r, filter_map_comm, map_map. simpl.
  change (map (fun x => pivot_cell 0%Qc rows c x) (filter (fun a => a <=? o) cols))
    with (map (pivot_cell 0%Qc rows c) (filter (fun a => a <=? o) cols)).
  unfold cols. rewrite pivot_row_sum_where by apply revenue_rows_NoDup.
  unfold rows. rewrite filter_map_comm, map_map. reflexivity.
Qed.

(** ** The grid of the matrices *)

Lemma sorted_Zlt l :
  StronglySorted (lt_key Z.ltb) l -> StronglySorted Z.lt l.
Proof.
  induction 1 as [|x tl _ IH Hall]; constructor; [exact IH|].
  rewrite Forall_forall in *. intros y Hy. apply Z.ltb_lt, Hall, Hy.
Qed.

Lemma pivot_table_ascending fill rows :
  StronglySorted Z.lt (index (pivot_table fill rows)) /\
  StronglySorted Z.lt (labels (pivot_table fill rows)).
Proof. simpl. split; apply sorted_Zlt, months_sorted. Qed.

Lemma spend_cell_row df s c o :
  In s (cohort_monthly_spend df) -> spend_cell s = (c, o) ->
  exists r, In r df /\ month_key r = Some (c, c + o).
Proof.
  intros Hs [= <- <-].
  destruct (proj1 (spend_frame_key df (spend_cohort_month s)
                     (spend_purchase_month s))) as (r & Hr & Hk); [eauto|].
  exists r. split; [exact Hr|]. rewrite Hk, (spend_offset _ _ Hs).
  unfold period_diff_n. do 2 f_equal. lia.
Qed.

(** X8. The LTV and revenue matrices are laid on one grid: the same
    cohort months as rows and the same offsets as columns, both in
    strictly ascending order, one cell for every row and column; and a cell
    of the grid at which the cohort has no purchase holds 0 in both, so
    the LTV of such a month reads 0 and not the total reached before. *)
Theorem ltv_and_revenue_grid (df : list Row) :
  index (ltv df) = index (revenue df) /\
  labels (ltv df) = labels (revenue df) /\
  StronglySorted Z.lt (index (ltv df)) /\
  StronglySorted Z.lt (labels (ltv df)) /\
  length (matrix (ltv df)) = length (index (ltv df)) /\
  length (matrix (revenue df)) = length (index (revenue df)) /\
  Forall (fun row => length row = length (labels (ltv df))) (matrix (ltv df)) /\
  Forall (fun row => length row = length (labels (revenue df)))
         (matrix (revenue df)) /\
  (forall c o,
     In c (index (ltv df)) -> In o (labels (ltv df)) ->
     (forall r, In r df -> month_key r <> Some (c, c + o)) ->
     cell_at (ltv df) c o = Some 0%Qc /\ cell_at (revenue df) c o = Some 0%Qc).
Proof.
  destruct (ltv_revenue_same_labels df) as [Hi Hl].
  split; [exact Hi|]. split; [exact Hl|].
  split; [apply pivot_table_ascending|]. split; [apply pivot_table_ascending|].
  split; [apply pivot_table_rectangular|].
  split; [apply pivot_table_rectangular|].
  split; [apply pivot_table_rectangular|].
  split; [apply pivot_table_rectangular|].
  intros c o Hc Ho Hnone.
  assert (Hc' := Hc). assert (Ho' := Ho). rewrite Hi in Hc'. rewrite Hl in Ho'.
  unfold ltv, revenue in *. simpl in Hc, Ho, Hc', Ho'.
  rewrite In_months in Hc, Ho, Hc', Ho'.
  rewrite !cell_at_pivot by assumption. split; f_equal.
  - change (map (fun s : Spend =>
                   (spend_cohort_month s, months_since_initial_purchase s,
                    avg_cumulative_total_spent s))
                (cohort_monthly_spend df))
      with (map (fun y => (spend_cell y, avg_cumulative_total_spent y))
                (cohort_monthly_spend df)).
    destruct (pivot_cell_cases spend_cell avg_cumulative_total_spent 0%Qc
                (cohort_monthly_spend df) c o (spend_cells_NoDup df))
      as [(s & Hs & Hk & _)|[_ H]]; [|exact H].
    destruct (@spend_cell_row df s c o Hs Hk) as (r & Hr & Hkey).
    exfalso. apply (Hnone r Hr Hkey).
  - change (map (fun s : Spend =>
                   (spend_cohort_month s, months_since_initial_purchase s,
                    spend_total_sales s))
                (cohort_monthly_spend df))
      with (map (fun y => (spend_cell y, spend_total_sales y))
                (cohort_monthly_spend df)).
    destruct (pivot_cell_cases spend_cell spend_total_sales 0%Qc
                (cohort_monthly_spend df) c o (spend_cells_NoDup df))
      as [(s & Hs & Hk & _)|[_ H]]; [|exact H].
    destruct (@spend_cell_row df s c o Hs Hk) as (r & Hr & Hkey).
    exfalso. apply (Hnone r Hr Hkey).
Qed.

Lemma ltv_and_revenue_grid_witness :
  index (ltv three_customers_enriched) = index (revenue three_customers_enriched).
Proof. exact (proj1 (ltv_and_revenue_grid three_customers_enriched)). Defined.

(** ** Cohort sizes *)

Lemma list_sum_map_zero {K} (keys : list K) :
  list_sum (map (fun _ => 0%nat) keys) = 0%nat.
Proof. induction keys; simpl; auto. Qed.

Lemma list_sum_map_plus {K} (f g : K -> nat) keys :
  list_sum (map (fun k => (f k + g k)%nat) keys)
  = (list_sum (map f keys) + list_sum (map g keys))%nat.
Proof. induction keys as [|k tl IH]; simpl; [reflexivity | rewrite IH; lia]. Qed.

Lemma count_select_one {K} (f : K -> bool) keys k0 :
  NoDup keys -> In k0 keys ->
  (forall k, In k keys -> (f k = true <-> k = k0)) ->
  list_sum (map (fun k => if f k then 1%nat else 0%nat) keys) = 1%nat.
Proof.
  induction keys as [|k tl IH]; simpl; intros Hnd Hin Hsel.
  - contradiction.
  - inversion Hnd as [|? ? Hnotin Hnd']; subst.
    destruct (f k) eqn:E.
    + assert (k = k0) by (apply Hsel; auto). subst.
      replace (list_sum (map (fun k => if f k then 1%nat else 0%nat) tl))
        with 0%nat; [reflexivity|].
      symmetry.
      transitivity (list_sum (map (fun _ : K => 0%nat) tl));
        [|apply list_sum_map_zero].
      f_equal. apply map_ext_in. intros k Hk.
      destruct (f k) eqn:E'; [|reflexivity].
      exfalso. apply Hnotin.
      assert (k = k0) by (apply Hsel; auto). subst. exact Hk.
    + simpl. apply IH; auto.
      destruct Hin as [->|Hin]; [|exact Hin].
      assert (f k0 = true) by (apply Hsel; auto). congruence.
Qed.

(** Counting group by group counts every element once, when every element
    falls in the group of one key. *)
Lemma length_partition {A K} (sel : K -> A -> bool) keys l :
  (forall x, In x l ->
     list_sum (map (fun k => if sel k x then 1%nat else 0%nat) keys) = 1%nat) ->
  list_sum (map (fun k => length (filter (sel k) l)) keys) = length l.
Proof.
  induction l as [|x tl IH]; simpl; intros H.
  - apply list_sum_map_zero.
  - transitivity
      (list_sum (map (fun k => if sel k x then 1%nat else 0%nat) keys)
       + list_sum (map (fun k => length (filter (sel k) tl)) keys))%nat.
    + rewrite <- list_sum_map_plus. f_equal. apply map_ext. intros k.
      destruct (sel k x); reflexivity.
    + rewrite (H x), IH by auto. reflexivity.
Qed.

Lemma cohort_of_row df0 df r :
  enrich df0 = Ok df -> In r df ->
  cohort_of df (customer_email r) = cohort_month r.
Proof.
  intros He Hr. unfold cohort_of.
  destruct (find (fun r' => cell_eqb (customer_email r') (customer_email r)) df)
    as [r0|] eqn:E.
  - apply find_some in E. destruct E as [Hr0 Hc]. apply cell_eqb_eq in Hc.
    apply (@cohort_of_customer df0 df r0 r He Hr0 Hr Hc).
  - exfalso.
    pose proof (find_none _ _ E r Hr) as H. simpl in H.
    rewrite cell_eqb_refl in H. discriminate.
Qed.

(** The customers of a cohort are the customers of the frame whose cohort
    it is. *)
Lemma cohort_customers df0 df c :
  enrich df0 = Ok df ->
  cohort_size_of df c
  = length (filter (customer_in_cohort df c)
                   (unique (map customer_email (filter has_cohort df)))).
Proof.
  intros He. unfold cohort_size_of, nunique.
  apply Permutation_length, NoDup_Permutation.
  - apply unique_NoDup.
  - apply NoDup_filter, unique_NoDup.
  - intros k. rewrite filter_In, !In_unique, !in_map_iff.
    unfold customer_in_cohort. split.
    + intros [(r & <- & Hr) Hna]. apply filter_In in Hr.
      destruct Hr as [Hr Hc]. apply in_cohort_iff in Hc.
      rewrite (@cohort_of_row df0 df r He Hr), Hc, Z.eqb_refl.
      split; [|reflexivity]. split; [|exact Hna].
      exists r. split; [reflexivity|]. apply filter_In.
      unfold has_cohort. rewrite Hc. auto.
    + intros [[(r & <- & Hr) Hna] Hsel]. apply filter_In in Hr.
      destruct Hr as [Hr _].
      rewrite (@cohort_of_row df0 df r He Hr) in Hsel.
      split; [|exact Hna]. exists r. split; [reflexivity|].
      apply filter_In. split; [exact Hr|]. unfold in_cohort.
      destruct (cohort_month r); [exact Hsel | discriminate].
Qed.

(** X9. The cohort size table lists each cohort month once, in ascending
    order, with a size of at least 1, and counts every customer in
    exactly one cohort: the sizes add up to the number of distinct
    customers with a dated purchase, all the customers of the frame when
    every transaction has its date. *)
Theorem cohort_sizes_count_each_customer_once (df0 : DataFrame) (df : list Row) :
  enrich df0 = Ok df ->
  StronglySorted Z.lt (map fst (cohort_sizes df)) /\
  (forall c n, In (c, n) (cohort_sizes df) -> (0 < n)%nat) /\
  list_sum (map snd (cohort_sizes df))
  = nunique (map customer_email (filter has_cohort df)) /\
  (Forall (fun r => purchase_date r <> None) df ->
   list_sum (map snd (cohort_sizes df)) = nunique (map customer_email df)).
Proof.
  intros He.
  assert (Hkeys : map fst (cohort_sizes df)
                  = sorted_unique Z.ltb (somes (map cohort_month df))).
  { unfold cohort_sizes. rewrite map_map. simpl. apply map_id. }
  assert (Hsum : list_sum (map snd (cohort_sizes df))
                 = nunique (map customer_email (filter has_cohort df))).
  { unfold cohort_sizes. rewrite map_map. simpl.
    fold (cohort_size_of df).
    transitivity
      (list_sum
         (map (fun c => length
                          (filter (customer_in_cohort df c)
                                  (unique (map customer_email
                                               (filter has_cohort df)))))
              (sorted_unique Z.ltb (somes (map cohort_month df))))).
    - f_equal. apply map_ext. intros c.
      apply (@cohort_customers df0 df c He).
    - unfold nunique. apply length_partition. intros k Hk.
      apply In_unique in Hk. destruct Hk as [Hk _].
      apply in_map_iff in Hk. destruct Hk as (r & <- & Hr).
      apply filter_In in Hr. destruct Hr as [Hr Hc]. unfold has_cohort in Hc.
      destruct (cohort_month r) as [c0|] eqn:Ec; [|discriminate].
      apply count_select_one with (k0 := c0).
      + apply months_NoDup.
      + apply In_months, In_somes, in_map_iff. exists r. auto.
      + intros c _. unfold customer_in_cohort.
        rewrite (@cohort_of_row df0 df r He Hr), Ec, Z.eqb_eq.
        split; congruence. }
  split; [rewrite Hkeys; apply sorted_Zlt, months_sorted|].
  split; [|split; [exact Hsum|]].
  - intros c n Hin. unfold cohort_sizes in Hin. apply in_map_iff in Hin.
    destruct Hin as (c' & [= -> <-] & Hc). rewrite In_months in Hc.
    apply (@cohort_size_positive df0 df c He Hc).
  - intros Hdates. rewrite Hsum. do 2 f_equal.
    apply filter_all. intros r Hr. unfold has_cohort.
    destruct (@enrich_months df0 df r He Hr) as [-> _].
    rewrite (@enrich_first_is_min df0 df r He Hr).
    destruct (nanmin (map purchase_date (of_customer r df))) eqn:Emin;
      [reflexivity|].
    exfalso. rewrite Forall_forall in Hdates.
    destruct (purchase_date r) as [d|] eqn:Hd; [|apply (Hdates r Hr Hd)].
    apply (proj1 (nanmin_None _) Emin d). rewrite <- Hd.
    apply in_map, In_of_customer. auto.
Qed.

Lemma cohort_sizes_count_each_customer_once_witness :
  list_sum (map snd (cohort_sizes three_customers_enriched)) = 3%nat.
Proof.
  rewrite (proj1 (proj2 (proj2
             (@cohort_sizes_count_each_customer_once three_customers
                three_customers_enriched three_customers_enrich)))).
  reflexivity.
Defined.

(** ** When the table is read *)

Lemma mapM_Raise {A B} (f : A -> result B) l e :
  mapM f l = Raise e -> exists a, In a l /\ f a = Raise e.
Proof.
  induction l as [|a tl IH]; simpl; intros H.
  - discriminate.
  - destruct (f a) as [b|e'] eqn:Ea; simpl in H.
    + destruct (mapM f tl) as [bs|e'] eqn:Etl; simpl in H; [discriminate|].
      injection H as ->. destruct (IH eq_refl) as (a' & Ha' & Hf). eauto.
    + injection H as ->. eauto.
Qed.

Lemma to_datetime_Raise c e : to_datetime c = Raise e -> e = ValueError.
Proof. destruct c; simpl; intros [= <-]; reflexivity. Qed.

Lemma derive_Raise i m e : derive i m = Raise e -> e = ValueError.
Proof.
  destruct m as [[[fields cust] date] first]. unfold derive.
  destruct (nth i fields CNaN); simpl; intros [= <-]; reflexivity.
Qed.

Lemma in_combine_exists {A B} (l : list A) (l' : list B) a :
  length l = length l' -> In a l -> exists b, In (a, b) (combine l l').
Proof.
  revert l'. induction l as [|x tl IH]; intros [|y tl'] Hlen Hin;
    simpl in *; try contradiction; try discriminate.
  destruct Hin as [->|Hin]; [eauto|].
  destruct (IH tl') as (b & Hb); [lia | exact Hin | eauto].
Qed.

Lemma enrich_readable df0 df : enrich df0 = Ok df -> readable df0.
Proof.
  intros He. pose proof He as Hsteps. apply enrich_steps in Hsteps.
  destruct Hsteps as (i_date & dates & i_cust & i_sales & Hi & Hd & Hc & Hs & H).
  exists i_date, i_cust, i_sales.
  split; [exact Hi|]. split; [exact Hc|]. split; [exact Hs|]. split; [|split].
  - unfold enrich, transactions in He. rewrite Hi in He. cbn [bind] in He.
    rewrite Hd in He. cbn [bind] in He. rewrite Hc in He. cbn [bind] in He.
    destruct (existsb _ _); [discriminate | reflexivity].
  - intros row Hrow.
    destruct (@in_combine_exists _ _ _ dates row
                (eq_sym (@mapM_length _ _ _ _ _ Hd)) Hrow) as (d & Hin).
    exists d. apply mapM_Forall2 in Hd.
    apply (@Forall2_combine_In _ _ _ _ _ _ _ Hd Hin).
  - intros row Hrow Hna.
    destruct (@in_combine_exists _ _ _ dates row
                (eq_sym (@mapM_length _ _ _ _ _ Hd)) Hrow) as (d & Hin).
    set (txs := with_customer i_cust (values (rename_day (iloc_first4 df0))) dates)
      in *.
    assert (Hm : In ((row, nth i_cust row CNaN, d),
                     first_purchase_of txs (nth i_cust row CNaN))
                    (merge_first_purchase txs (first_purchase txs))).
    { rewrite merge_first_purchase_rows.
      apply (in_map (fun r => (r, first_purchase_of txs (snd (fst r))))
                    _ (row, nth i_cust row CNaN, d)).
      apply filter_In. split; [|simpl; rewrite Hna; reflexivity].
      unfold txs, with_customer.
      apply (in_map (fun rd => (fst rd, nth i_cust (fst rd) CNaN, snd rd))
                    _ (row, d)). exact Hin. }
    apply mapM_Forall2 in H.
    clear - H Hm. induction H as [|m r ms rs Hmr _ IH]; simpl in Hm.
    + contradiction.
    + destruct Hm as [->|Hm]; [|auto].
      unfold derive in Hmr.
      destruct (astype_float (nth i_sales row CNaN)) as [x|e]; [eauto|].
      discriminate.
Qed.

Lemma readable_enrich df0 : readable df0 -> exists df, enrich df0 = Ok df.
Proof.
  intros (i_date & i_cust & i_sales & Hi & Hc & Hs & Hfp & Hdates & Hamts).
  destruct (@mapM_total _ _ (fun r => to_datetime (nth i_date r CNaN))
                        (values (rename_day (iloc_first4 df0))) Hdates)
    as (dates & Hd).
  set (txs := with_customer i_cust (values (rename_day (iloc_first4 df0))) dates).
  destruct (@mapM_total _ _ (derive i_sales)
                        (merge_first_purchase txs (first_purchase txs)))
    as (df & Hdf).
  { intros m Hm. rewrite merge_first_purchase_rows in Hm.
    apply in_map_iff in Hm. destruct Hm as (t & <- & Ht).
    apply filter_In in Ht. destruct Ht as [Ht Hna].
    destruct (@with_customer_In _ _ _ _ _ Hd Ht) as (Hf & Hcust & _).
    destruct t as [[fields cust] d]. simpl in *. subst cust.
    destruct (Hamts fields Hf) as (x & Hx).
    { destruct (isna (nth i_cust fields CNaN)); [discriminate | reflexivity]. }
    unfold derive. rewrite Hx. simpl. eauto. }
  exists df. unfold enrich, transactions.
  rewrite Hi. cbn [bind]. rewrite Hd. cbn [bind]. rewrite Hc. cbn [bind].
  rewrite Hfp. cbn [bind]. rewrite Hs. cbn [bind]. exact Hdf.
Qed.


Lemma enrich_Raise df0 e : enrich df0 = Raise e -> In e process_csv_errors.
Proof.
  unfold enrich, transactions, process_csv_errors.
  set (t := rename_day (iloc_first4 df0)).
  destruct (get_loc "purchase_date" (columns t)) as [i_date|e1] eqn:Hi;
    cbn [bind].
  2:{ intros [= <-]. destruct (get_loc_Raise _ _ Hi) as [->| ->]; in_list. }
  destruct (mapM _ (values t)) as [dates|e2] eqn:Hd; cbn [bind].
  2:{ intros [= <-]. apply mapM_Raise in Hd. destruct Hd as (a & _ & Ha).
      apply to_datetime_Raise in Ha. subst. in_list. }
  destruct (get_loc "customer_email" (columns t)) as [i_cust|e3] eqn:Hc;
    cbn [bind].
  2:{ intros [= <-]. destruct (get_loc_Raise _ _ Hc) as [->| ->]; in_list. }
  destruct (existsb _ (columns t)); cbn [bind].
  { intros [= <-]. in_list. }
  destruct (get_loc "total_sales" (columns t)) as [i_sales|e4] eqn:Hs;
    cbn [bind].
  2:{ intros [= <-]. destruct (get_loc_Raise _ _ Hs) as [->| ->]; in_list. }
  intros H. apply mapM_Raise in H. destruct H as (m & _ & Hm).
  apply derive_Raise in Hm. subst. in_list.
Qed.

(** X10. [process_csv] returns exactly on the readable tables: the three
    labels each found once among the first four columns, no column called
    first_purchase_date, every date field a date or empty, and the amount
    of every row that names a customer a number or empty.  On any other
    table it raises one of five exceptions, a KeyError for one of the
    four labels or a ValueError. *)
Theorem process_csv_returns_iff_readable (df0 : DataFrame) (fs : Store) :
  (snd (process_csv df0 fs) = Ok report_names <-> readable df0) /\
  (forall e, snd (process_csv df0 fs) = Raise e -> In e process_csv_errors) /\
  (forall names, snd (process_csv df0 fs) = Ok names -> names = report_names).
Proof.
  rewrite process_csv_run. split; [|split].
  - split.
    + destruct (enrich df0) as [df|e] eqn:He; [|discriminate].
      intros _. apply (@enrich_readable df0 df He).
    + intros Hr. destruct (readable_enrich Hr) as (df & ->). reflexivity.
  - intros e. destruct (enrich df0) as [df|e'] eqn:He; simpl; [discriminate|].
    intros [= <-]. apply (@enrich_Raise df0 e' He).
  - intros names. destruct (enrich df0) as [df|e']; simpl; [|discriminate].
    intros [= <-]. reflexivity.
Qed.

Lemma process_csv_returns_iff_readable_witness :
  readable with_anonymous_row /\
  In (KeyError "purchase_date") process_csv_errors.
Proof.
  split.
  - apply (proj1 (proj1 (process_csv_returns_iff_readable with_anonymous_row []))).
    vm_compute. reflexivity.
  - apply (proj1 (proj2 (process_csv_returns_iff_readable
                           three_customers_renamed []))).
    vm_compute. reflexivity.
Defined.

(** ** The files of the folder *)

Lemma filter_keep (p q : string) (a : artifact) l :
  String.eqb p q = false ->
  filter (fun e : string * artifact => negb (String.eqb (fst e) q)) ((p, a) :: l)
  = (p, a) :: filter (fun e : string * artifact => negb (String.eqb (fst e) q)) l.
Proof. intros H. simpl. rewrite H. reflexivity. Qed.

(** The folder after a run: the four reports, then the files that were
    there under other names. *)
Lemma written_normal df fs :
  written df fs
  = (sizes_path, SizeTable (cohort_sizes df))
    :: (repeat_path, Matrix (repeat_purchase_rate_table df))
    :: (revenue_path, Matrix (revenue df))
    :: (ltv_path, Matrix (ltv df))
    :: filter not_a_report fs.
Proof.
  unfold written, to_csv. cbn [fst].
  rewrite !filter_keep by reflexivity. do 4 f_equal.
  rewrite !filter_filter. apply filter_ext. intros [p a].
  unfold not_a_report, report_paths. cbn [fst existsb].
  destruct (String.eqb p ltv_path), (String.eqb p revenue_path),
    (String.eqb p repeat_path), (String.eqb p sizes_path); reflexivity.
Qed.

Lemma filter_drop_report (p : string) (a : artifact) l :
  In p report_paths ->
  filter not_a_report ((p, a) :: l) = filter not_a_report l.
Proof.
  intros H. simpl. unfold not_a_report at 1. cbn [fst].
  replace (existsb (String.eqb p) report_paths) with true; [reflexivity|].
  symmetry. apply existsb_exists. exists p. split; [exact H|].
  apply String.eqb_refl.
Qed.

Lemma read_file_not_a_report p fs :
  ~ In p report_paths -> read_file p (filter not_a_report fs) = read_file p fs.
Proof.
  intros Hp. induction fs as [|[q a] tl IH]; simpl; [reflexivity|].
  unfold not_a_report at 1. cbn [fst].
  destruct (existsb (String.eqb q) report_paths) eqn:E; simpl.
  - destruct (String.eqb q p) eqn:Eq; [|exact IH].
    apply String.eqb_eq in Eq. subst. exfalso. apply Hp.
    apply existsb_exists in E. destruct E as (x & Hx & Ex).
    apply String.eqb_eq in Ex. subst. exact Hx.
  - rewrite IH. reflexivity.
Qed.

(** X11. [process_csv] writes under the four report names and nowhere
    else: every other file of the upload folder reads after the run as
    before, whether the run returns or raises; and a second run on the
    same table leaves the folder as the first run left it. *)
Theorem process_csv_touches_only_reports (df0 : DataFrame) (fs : Store) :
  (forall p, ~ In p report_paths ->
     read_file p (fst (process_csv df0 fs)) = read_file p fs) /\
  fst (process_csv df0 (fst (process_csv df0 fs))) = fst (process_csv df0 fs).
Proof.
  rewrite !process_csv_run. destruct (enrich df0) as [df|e] eqn:He; cbn [fst].
  - split.
    + intros p Hp. rewrite written_normal.
      assert (Hne : forall q, In q report_paths -> String.eqb q p = false).
      { intros q Hq. apply String.eqb_neq. intros ->. auto. }
      cbn [read_file].
      rewrite !Hne by (unfold report_paths; simpl; tauto).
      apply read_file_not_a_report, Hp.
    + rewrite (written_normal df (written df fs)), (written_normal df fs).
      do 4 f_equal.
      rewrite !filter_drop_report by (unfold report_paths; simpl; tauto).
      rewrite filter_filter. apply filter_ext. intros e.
      destruct (not_a_report e); reflexivity.
  - split; reflexivity.
Qed.

Lemma process_csv_touches_only_reports_witness :
  read_file "uploads/orders.csv"
    (fst (process_csv three_customers [("uploads/orders.csv"%string, SizeTable [])]))
  = Some (SizeTable []).
Proof.
  rewrite (proj1 (process_csv_touches_only_reports three_customers
                    [("uploads/orders.csv"%string, SizeTable [])])).
  - reflexivity.
  - unfold report_paths. simpl. intros H.
    repeat (destruct H as [H|H]; [discriminate|]). exact H.
Defined.

(** ** The web handlers *)

Lemma read_folder_save_same p b fd : read_folder p (save p b fd) = Some b.
Proof. simpl. rewrite String.eqb_refl. reflexivity. Qed.

Lemma read_folder_save_other p q b fd :
  p <> q -> read_folder p (save q b fd) = read_folder p fd.
Proof.
  intros Hpq. simpl. destruct (String.eqb q p) eqn:E.
  - apply String.eqb_eq in E. congruence.
  - induction fd as [|[p' b'] tl IH]; simpl; [reflexivity|].
    destruct (String.eqb p' q) eqn:Eq; simpl.
    + apply String.eqb_eq in Eq. subst.
      rewrite E. exact IH.
    + rewrite IH. reflexivity.
Qed.

Lemma process_csv_writes df0 df :
  enrich df0 = Ok df ->
  process_csv df0 []
  = ([(sizes_path, SizeTable (cohort_sizes df));
      (repeat_path, Matrix (repeat_purchase_rate_table df));
      (revenue_path, Matrix (revenue df));
      (ltv_path, Matrix (ltv df))],
     Ok report_names).
Proof.
  intros He. rewrite process_csv_run, He, written_normal. reflexivity.
Qed.

Lemma process_csv_raises df0 e :
  enrich df0 = Raise e -> process_csv df0 [] = ([], Raise e).
Proof. intros He. rewrite process_csv_run, He. reflexivity. Qed.

Lemma allowed_file_empty : allowed_file "" = false.
Proof. reflexivity. Qed.

Section WebFacts.
Variable secure_filename : string -> string.
Variable read_csv : string -> result DataFrame.
Variable render : artifact -> string.

Lemma upload_file_allowed request fd file :
  files_get "file" (files request) = Some file ->
  allowed_file (filename file) = true ->
  secure_filename (filename file) <> ""%string ->
  upload_file secure_filename read_csv render request fd
  = match process_csv_at read_csv render
            (path_join UPLOAD_FOLDER (secure_filename (filename file)))
            (save (path_join UPLOAD_FOLDER (secure_filename (filename file)))
                  (stream file) fd) with
    | (fd', Returned (avg, total, rep, sizes)) =>
        (fd', Returned (Json avg total rep sizes))
    | (fd', Failed e) => (fd', Failed e)
    end.
Proof.
  intros Hfile Hok Hname. unfold upload_file. rewrite Hfile.
  destruct (String.eqb (filename file) "") eqn:E.
  - apply String.eqb_eq in E. rewrite E, allowed_file_empty in Hok.
    discriminate.
  - rewrite Hok. apply String.eqb_neq in Hname. rewrite Hname. reflexivity.
Qed.

(** X12. [upload_file] answers with a redirect exactly when the request
    has no part called file or when [allowed_file] refuses its name, an
    empty name included; the redirect goes back to the URL of the request
    and the upload folder is left as it was. *)
Theorem upload_refused (request : Request) (fd : Folder) :
  ((files_get "file" (files request) = None \/
    exists file, files_get "file" (files request) = Some file /\
                 allowed_file (filename file) = false) ->
   upload_file secure_filename read_csv render request fd
   = (fd, Returned (Redirect (url request)))) /\
  (forall location,
     snd (upload_file secure_filename read_csv render request fd)
     = Returned (Redirect location) ->
     files_get "file" (files request) = None \/
     exists file, files_get "file" (files request) = Some file /\
                  allowed_file (filename file) = false).
Proof.
  split.
  - intros [Hnone|(file & Hfile & Hno)]; unfold upload_file.
    + rewrite Hnone. reflexivity.
    + rewrite Hfile, Hno, andb_false_r.
      destruct (String.eqb (filename file) ""); reflexivity.
  - intros location H.
    destruct (files_get "file" (files request)) as [file|] eqn:Hfile; [|auto].
    right. exists file. split; [reflexivity|].
    destruct (allowed_file (filename file)) eqn:Hok; [|reflexivity].
    destruct (String.eqb (secure_filename (filename file)) "") eqn:Hname.
    + unfold upload_file in H. rewrite Hfile, Hok, Hname in H.
      destruct (String.eqb (filename file) "") eqn:E.
      * apply String.eqb_eq in E. rewrite E, allowed_file_empty in Hok.
        discriminate.
      * simpl in H. discriminate.
    + apply String.eqb_neq in Hname.
      rewrite (@upload_file_allowed request fd file Hfile Hok Hname) in H.
      destruct (process_csv_at _ _ _ _) as [fd' [[[[a b] c] d]|e]];
        simpl in H; discriminate.
Qed.

(** X13. An accepted upload whose table is read ends in the answer with
    the four report names, and each name then downloads the report of
    that table, also when the upload was saved under the name of a report
    and is overwritten by it; the upload itself stays in the folder
    otherwise, and no other file changes. *)
Theorem upload_then_download (request : Request) (fd : Folder)
    (file : FileStorage) (df0 : DataFrame) (df : list Row) :
  files_get "file" (files request) = Some file ->
  allowed_file (filename file) = true ->
  secure_filename (filename file) <> ""%string ->
  read_csv (stream file) = Ok df0 ->
  enrich df0 = Ok df ->
  exists fd',
    upload_file secure_filename read_csv render request fd
    = (fd', Returned (Json "ltv.csv" "revenue_monthly.csv"
                           "repeat_purchase_rate.csv" "cohort_sizes.csv")) /\
    download_file "ltv.csv" fd' = Returned (Attachment (render (Matrix (ltv df)))) /\
    download_file "revenue_monthly.csv" fd'
    = Returned (Attachment (render (Matrix (revenue df)))) /\
    download_file "repeat_purchase_rate.csv" fd'
    = Returned (Attachment (render (Matrix (repeat_purchase_rate_table df)))) /\
    download_file "cohort_sizes.csv" fd'
    = Returned (Attachment (render (SizeTable (cohort_sizes df)))) /\
    (~ In (path_join UPLOAD_FOLDER (secure_filename (filename file))) report_paths ->
     read_folder (path_join UPLOAD_FOLDER (secure_filename (filename file))) fd'
     = Some (stream file)) /\
    (forall p,
       ~ In p report_paths ->
       p <> path_join UPLOAD_FOLDER (secure_filename (filename file)) ->
       read_folder p fd' = read_folder p fd).
Proof.
  intros Hfile Hok Hname Hcsv He.
  rewrite (@upload_file_allowed request fd file Hfile Hok Hname).
  set (up := path_join UPLOAD_FOLDER (secure_filename (filename file))).
  unfold process_csv_at. rewrite read_folder_save_same, Hcsv.
  rewrite (@process_csv_writes df0 df He). cbn [fold_right fst snd report_names].
  eexists. split; [reflexivity|].
  assert (Hne : forall p q, In q report_paths -> ~ In p report_paths -> p <> q).
  { intros p q Hq Hp ->. auto. }
  unfold download_file.
  change (path_join UPLOAD_FOLDER "ltv.csv") with ltv_path.
  change (path_join UPLOAD_FOLDER "revenue_monthly.csv") with revenue_path.
  change (path_join UPLOAD_FOLDER "repeat_purchase_rate.csv") with repeat_path.
  change (path_join UPLOAD_FOLDER "cohort_sizes.csv") with sizes_path.
  split; [|split; [|split; [|split; [|split]]]].
  - rewrite !read_folder_save_other by (vm_compute; discriminate).
    rewrite read_folder_save_same. reflexivity.
  - rewrite !read_folder_save_other by (vm_compute; discriminate).
    rewrite read_folder_save_same. reflexivity.
  - rewrite !read_folder_save_other by (vm_compute; discriminate).
    rewrite read_folder_save_same. reflexivity.
  - rewrite read_folder_save_same. reflexivity.
  - intros Hup.
    rewrite !read_folder_save_other
      by (apply Hne; [unfold report_paths; simpl; tauto | exact Hup]).
    apply read_folder_save_same.
  - intros p Hp Hpu.
    rewrite !read_folder_save_other
      by (apply Hne; [unfold report_paths; simpl; tauto | exact Hp]).
    apply read_folder_save_other, Hpu.
Qed.

(** X14. When the parser or [process_csv] raises on an accepted upload,
    the exception leaves [upload_file] uncaught, the uploaded file stays
    saved under its secured name, and nothing else changes: the reports
    of an earlier upload stay in the folder for [download_file]. *)
Theorem upload_failure_keeps_file (request : Request) (fd : Folder)
    (file : FileStorage) (e : exn) :
  files_get "file" (files request) = Some file ->
  allowed_file (filename file) = true ->
  secure_filename (filename file) <> ""%string ->
  (read_csv (stream file) = Raise e \/
   exists df0, read_csv (stream file) = Ok df0 /\ enrich df0 = Raise e) ->
  upload_file secure_filename read_csv render request fd
  = (save (path_join UPLOAD_FOLDER (secure_filename (filename file)))
          (stream file) fd,
     Failed (Uncaught e)) /\
  read_folder (path_join UPLOAD_FOLDER (secure_filename (filename file)))
              (fst (upload_file secure_filename read_csv render request fd))
  = Some (stream file) /\
  (forall p,
     p <> path_join UPLOAD_FOLDER (secure_filename (filename file)) ->
     read_folder p (fst (upload_file secure_filename read_csv render request fd))
     = read_folder p fd).
Proof.
  intros Hfile Hok Hname Hfail.
  assert (Hrun : upload_file secure_filename read_csv render request fd
                 = (save (path_join UPLOAD_FOLDER (secure_filename (filename file)))
                         (stream file) fd,
                    Failed (Uncaught e))).
  { rewrite (@upload_file_allowed request fd file Hfile Hok Hname).
    unfold process_csv_at. rewrite read_folder_save_same.
    destruct Hfail as [Hcsv|(df0 & Hcsv & He)]; rewrite Hcsv.
    - reflexivity.
    - rewrite (@process_csv_raises df0 e He). reflexivity. }
  rewrite Hrun. cbn [fst]. split; [reflexivity|]. split.
  - apply read_folder_save_same.
  - intros p Hp. apply read_folder_save_other, Hp.
Qed.
End WebFacts.

Lemma upload_refused_witness :
  upload_file (fun s => s) (fun _ => Ok three_customers) (fun _ => "report"%string)
              (mkRequest "/" [("file"%string, mkFileStorage "orders.txt" "a,b")])
              []
  = ([], Returned (Redirect "/")).
Proof.
  apply (proj1 (upload_refused (fun s => s) (fun _ => Ok three_customers)
                  (fun _ => "report"%string)
                  (mkRequest "/" [("file"%string, mkFileStorage "orders.txt" "a,b")])
                  [])).
  right. eexists. split; reflexivity.
Defined.

Lemma upload_then_download_witness :
  exists fd',
    upload_file (fun s => s) (fun _ => Ok three_customers)
                (fun _ => "report"%string) upload_as_ltv []
    = (fd', Returned (Json "ltv.csv" "revenue_monthly.csv"
                           "repeat_purchase_rate.csv" "cohort_sizes.csv")) /\
    download_file "ltv.csv" fd' = Returned (Attachment "report").
Proof.
  destruct (@upload_then_download (fun s => s) (fun _ => Ok three_customers)
              (fun _ => "report"%string) upload_as_ltv []
              (mkFileStorage "ltv.csv" "three customers")
              three_customers three_customers_enriched
              eq_refl eq_refl ltac:(discriminate) eq_refl
              three_customers_enrich)
    as (fd' & Hrun & Hltv & _).
  exists fd'. split; assumption.
Defined.

Lemma upload_failure_keeps_file_witness :
  read_folder "uploads/ltv.csv"
    (fst (upload_file (fun s => s) (fun _ => Ok three_customers_renamed)
                      (fun _ => "report"%string) upload_as_ltv []))
  = Some "three customers"%string.
Proof.
  apply (@upload_failure_keeps_file (fun s => s)
           (fun _ => Ok three_customers_renamed) (fun _ => "report"%string)
           upload_as_ltv [] (mkFileStorage "ltv.csv" "three customers")
           (KeyError "purchase_date") eq_refl eq_refl ltac:(discriminate)).
  right. exists three_customers_renamed. split; reflexivity.
Defined.

(** * Sums in double precision *)

(** ** Sums that are not rounded *)

Lemma round64_zero : round64 0%Qc = 0%Qc.
Proof. apply Qc_is_canon. reflexivity. Qed.

Lemma is_float64_round x : is_float64 x = true -> round64 x = x.
Proof.
  unfold is_float64, Qc_eqb. rewrite !andb_true_iff. intros [[H _] _].
  apply Qc_is_canon. apply Qeq_bool_iff. exact H.
Qed.

Lemma kahan_step_exact (s v : Qc) :
  is_float64 v = true -> is_float64 (s + v)%Qc = true ->
  kahan_step (s, 0%Qc) v = ((s + v)%Qc, 0%Qc).
Proof.
  intros Hv Hs. unfold kahan_step, sub64, add64.
  replace (v - 0)%Qc with v by ring.
  rewrite (@is_float64_round _ Hv), (@is_float64_round _ Hs).
  replace (s + v - s)%Qc with v by ring.
  rewrite (@is_float64_round _ Hv).
  replace (v - v)%Qc with 0%Qc by ring.
  rewrite round64_zero. reflexivity.
Qed.

Lemma fold_kahan_exact l : forall acc,
  adds_exactly acc l = true ->
  fold_left kahan_step l (acc, 0%Qc) = ((acc + Qcsum l)%Qc, 0%Qc).
Proof.
  induction l as [|v tl IH]; intros acc H;
    cbn [fold_left adds_exactly] in *.
  - change (Qcsum []) with 0%Qc. rewrite Qcplus_0_r. reflexivity.
  - rewrite !andb_true_iff in H. destruct H as [[Hv Hs] Htl].
    rewrite (@kahan_step_exact _ _ Hv Hs), (IH _ Htl).
    change (Qcsum (v :: tl)) with (v + Qcsum tl)%Qc.
    rewrite Qcplus_assoc. reflexivity.
Qed.

Lemma adds_exactly_float64 l : forall acc,
  adds_exactly acc l = true -> Forall (fun v => is_float64 v = true) l.
Proof.
  induction l as [|v tl IH]; simpl; intros acc H; constructor.
  - rewrite !andb_true_iff in H. tauto.
  - rewrite !andb_true_iff in H. apply (IH (acc + v)%Qc). tauto.
Qed.

Lemma nansum_somes l : nansum l = Qcsum (somes l).
Proof.
  unfold nansum. induction l as [|[v|] tl IH]; simpl.
  - reflexivity.
  - rewrite IH. reflexivity.
  - rewrite IH. ring.
Qed.

(** [astype(float)] leaves a float64 as it is. *)
Lemma total_sales64_float64 rows :
  Forall (fun v => is_float64 v = true) (somes (map total_sales rows)) ->
  map total_sales64 rows = map total_sales rows.
Proof.
  induction rows as [|r tl IH]; simpl; intros H; [reflexivity|].
  unfold total_sales64 at 1. destruct (total_sales r) as [v|]; simpl in *.
  - inversion H as [|? ? Hv Htl]; subst.
    rewrite (@is_float64_round _ Hv), (IH Htl). reflexivity.
  - rewrite (IH H). reflexivity.
Qed.

Lemma group_sum_exact rows :
  adds_exactly 0%Qc (somes (map total_sales rows)) = true ->
  group_sum (map total_sales64 rows) = nansum (map total_sales rows).
Proof.
  intros H. rewrite total_sales64_float64
    by (apply (@adds_exactly_float64 _ _ H)).
  unfold group_sum. rewrite (@fold_kahan_exact _ _ H), nansum_somes.
  simpl. ring.
Qed.

Lemma sums_exactly_totals df :
  sums_exactly df = true -> totals_exactly df = true.
Proof. unfold sums_exactly. rewrite andb_true_iff. tauto. Qed.

Lemma monthly_sum64_exact df :
  totals_exactly df = true -> monthly_sum64 df = monthly_sum df.
Proof.
  unfold totals_exactly. rewrite forallb_forall. intros H.
  unfold monthly_sum64, monthly_sum. apply map_ext_in. intros k Hk.
  rewrite (@group_sum_exact _ (H k Hk)). reflexivity.
Qed.

Lemma groupby_cumsum64_exact rows : forall acc64 acc,
  (forall c, acc64 c = (acc c, 0%Qc)) ->
  cumsum_exactly acc rows = true ->
  groupby_cumsum64 acc64 rows = groupby_cumsum acc rows.
Proof.
  induction rows as [|[[c p] v] tl IH]; intros acc64 acc Hacc H;
    cbn [groupby_cumsum64 groupby_cumsum cumsum_exactly] in *.
  - reflexivity.
  - rewrite !andb_true_iff in H. destruct H as [[Hv Hs] Htl].
    rewrite Hacc, (@kahan_step_exact _ _ Hv Hs). cbn [fst]. f_equal.
    apply IH; [|exact Htl].
    intros c'. destruct (c' =? c); [reflexivity | apply Hacc].
Qed.

(** ** The float64 frames *)

Lemma groupby_cumsum64_length rows : forall acc,
  length (groupby_cumsum64 acc rows) = length rows.
Proof.
  induction rows as [|[[c p] v] tl IH]; intros acc;
    cbn [groupby_cumsum64 length].
  - reflexivity.
  - rewrite IH. reflexivity.
Qed.

Lemma monthly_sum64_keys df :
  map fst (monthly_sum64 df) = sorted_unique pair_ltb (somes (map month_key df)).
Proof. unfold monthly_sum64. rewrite map_map. simpl. apply map_id. Qed.

(** Rounding changes no key: the join of line 57 keeps every row of the
    monthly sums, once. *)
Lemma cohort_monthly_spend64_rows df :
  cohort_monthly_spend64 df =
  map (spend_row64 df)
      (combine (monthly_sum64 df)
               (groupby_cumsum64 (fun _ => (0%Qc, 0%Qc)) (monthly_sum64 df))).
Proof.
  unfold cohort_monthly_spend64. apply flat_map_singleton.
  intros [[[c p] v] cum] Hin.
  rewrite cohort_sizes_lookup; [reflexivity|].
  apply in_combine_l in Hin.
  apply (in_map fst) in Hin. rewrite monthly_sum64_keys in Hin. simpl in Hin.
  rewrite In_month_keys in Hin. apply In_month_key_cohort in Hin. exact Hin.
Qed.

Lemma spend_keys64 df :
  map spend_key (cohort_monthly_spend64 df)
  = sorted_unique pair_ltb (somes (map month_key df)).
Proof.
  rewrite cohort_monthly_spend64_rows, map_map.
  rewrite <- monthly_sum64_keys.
  transitivity (map fst (map fst (combine (monthly_sum64 df)
                  (groupby_cumsum64 (fun _ => (0%Qc, 0%Qc)) (monthly_sum64 df))))).
  - rewrite map_map. apply map_ext. intros [[[c p] v] cum]. reflexivity.
  - rewrite map_fst_combine by (symmetry; apply groupby_cumsum64_length).
    reflexivity.
Qed.

(** Without rounding the float64 frame is the exact one, the average
    apart, which is the rounded quotient. *)
Lemma cohort_monthly_spend64_exact df :
  sums_exactly df = true ->
  cohort_monthly_spend64 df
  = map (spend_row64 df)
        (combine (monthly_sum df)
                 (groupby_cumsum (fun _ => 0%Qc) (monthly_sum df))).
Proof.
  intros H. rewrite cohort_monthly_spend64_rows.
  rewrite (@monthly_sum64_exact df (@sums_exactly_totals df H)).
  rewrite (@groupby_cumsum64_exact (monthly_sum df) (fun _ => (0%Qc, 0%Qc))
             (fun _ => 0%Qc)); [reflexivity | reflexivity |].
  unfold sums_exactly in H. rewrite andb_true_iff in H. apply H.
Qed.

Lemma sums_of_exact df :
  sums_exactly df = true ->
  map sums_of (cohort_monthly_spend64 df) = map sums_of (cohort_monthly_spend df).
Proof.
  intros H. rewrite (@cohort_monthly_spend64_exact df H).
  rewrite cohort_monthly_spend_rows, !map_map.
  apply map_ext. intros [[[c p] v] cum]. reflexivity.
Qed.

Lemma map_through {A B C} (h : A -> B) (g : B -> C) (l1 l2 : list A) :
  map h l1 = map h l2 -> map (fun a => g (h a)) l1 = map (fun a => g (h a)) l2.
Proof. intros E. rewrite <- !(map_map h g), E. reflexivity. Qed.

Lemma filter_through {A B C} (h : A -> B) (q : B -> bool) (g : B -> C)
    (l1 l2 : list A) :
  map h l1 = map h l2 ->
  map (fun a => g (h a)) (filter (fun a => q (h a)) l1)
  = map (fun a => g (h a)) (filter (fun a => q (h a)) l2).
Proof.
  intros E. rewrite <- !(map_map h g).
  rewrite <- !(filter_map_comm h q). rewrite E. reflexivity.
Qed.

(** The rows the revenue matrix is pivoted from are the monthly totals
    with their offsets; the running sums have no part in them. *)
Lemma revenue64_rows df :
  map (fun s => (spend_cohort_month s, months_since_initial_purchase s,
                 spend_total_sales s))
      (cohort_monthly_spend64 df)
  = map (fun r => (fst (fst r), period_diff_n (snd (fst r)) (fst (fst r)), snd r))
        (monthly_sum64 df).
Proof.
  rewrite cohort_monthly_spend64_rows, map_map.
  transitivity
    (map (fun x => (fst (fst (fst x)),
                    period_diff_n (snd (fst (fst x))) (fst (fst (fst x))),
                    snd (fst x)))
         (combine (monthly_sum64 df)
                  (groupby_cumsum64 (fun _ => (0%Qc, 0%Qc)) (monthly_sum64 df)))).
  - apply map_ext. intros [[[c p] v] cum]. reflexivity.
  - rewrite <- (map_map fst
                  (fun r => (fst (fst r),
                             period_diff_n (snd (fst r)) (fst (fst r)), snd r))).
    rewrite map_fst_combine by (symmetry; apply groupby_cumsum64_length).
    reflexivity.
Qed.

Lemma revenue_rows df :
  map (fun s => (spend_cohort_month s, months_since_initial_purchase s,
                 spend_total_sales s))
      (cohort_monthly_spend df)
  = map (fun r => (fst (fst r), period_diff_n (snd (fst r)) (fst (fst r)), snd r))
        (monthly_sum df).
Proof.
  rewrite cohort_monthly_spend_rows, map_map.
  transitivity
    (map (fun x => (fst (fst (fst x)),
                    period_diff_n (snd (fst (fst x))) (fst (fst (fst x))),
                    snd (fst x)))
         (combine (monthly_sum df)
                  (groupby_cumsum (fun _ => 0%Qc) (monthly_sum df)))).
  - apply map_ext. intros [[[c p] v] cum]. reflexivity.
  - rewrite <- (map_map fst
                  (fun r => (fst (fst r),
                             period_diff_n (snd (fst r)) (fst (fst r)), snd r))).
    rewrite map_fst_combine by (symmetry; apply groupby_cumsum_length).
    reflexivity.
Qed.

Lemma revenue64_exact df :
  totals_exactly df = true -> revenue64 df = revenue df.
Proof.
  intros H. unfold revenue64, revenue.
  rewrite revenue64_rows, revenue_rows, (@monthly_sum64_exact df H).
  reflexivity.
Qed.

(** A row of the float64 frame and the row of the exact frame it is,
    when nothing is rounded. *)
Lemma spend64_exact_In df s :
  sums_exactly df = true ->
  In s (cohort_monthly_spend64 df) ->
  exists s0, In s0 (cohort_monthly_spend df) /\ sums_of s = sums_of s0.
Proof.
  intros H Hs. apply (in_map sums_of) in Hs.
  rewrite (@sums_of_exact df H) in Hs. apply in_map_iff in Hs.
  destruct Hs as (s0 & E & Hs0). exists s0. split; [exact Hs0 | symmetry; exact E].
Qed.

(** ** The running sum in float64 *)

(** Each running sum is the compensated sum, from what the cohort carried
    in, of the totals of the rows of that cohort met so far. *)
Lemma groupby_cumsum64_prefix rows : forall acc r cum,
  In (r, cum) (combine rows (groupby_cumsum64 acc rows)) ->
  exists pre post,
    rows = pre ++ r :: post /\
    cum = fst (fold_left kahan_step
                 (map snd (filter (fun r' => fst (fst r') =? fst (fst r))
                                  (pre ++ [r])))
                 (acc (fst (fst r)))).
Proof.
  induction rows as [|[[c p] v] tl IH]; intros acc r cum Hin;
    cbn [groupby_cumsum64 combine] in Hin.
  - contradiction.
  - destruct Hin as [[= <- <-]|Hin].
    + exists [], tl. split; [reflexivity|].
      cbn [app filter fst]. rewrite Z.eqb_refl. reflexivity.
    + apply IH in Hin. destruct Hin as (pre & post & -> & ->).
      exists ((c, p, v) :: pre), post. split; [reflexivity|].
      cbn [app filter fst]. rewrite (Z.eqb_sym c).
      destruct (fst (fst r) =? c) eqn:E; [|reflexivity].
      apply Z.eqb_eq in E. rewrite E. reflexivity.
Qed.

Lemma monthly_sum64_sorted df :
  StronglySorted (lt_key pair_ltb) (map fst (monthly_sum64 df)).
Proof. rewrite monthly_sum64_keys. apply month_keys_sorted. Qed.

Lemma cumsum64_running df r cum :
  In (r, cum) (combine (monthly_sum64 df)
                 (groupby_cumsum64 (fun _ => (0%Qc, 0%Qc)) (monthly_sum64 df))) ->
  cum = fst (fold_left kahan_step
               (map snd
                  (filter (fun r' => (fst (fst r') =? fst (fst r))
                                     && (snd (fst r') <=? snd (fst r)))
                          (monthly_sum64 df)))
               (0%Qc, 0%Qc)).
Proof.
  intros Hin. apply groupby_cumsum64_prefix in Hin.
  destruct Hin as (pre & post & E & ->).
  pose proof (monthly_sum64_sorted df) as Hs. rewrite E in Hs |- *.
  rewrite sorted_prefix_filter by exact Hs. reflexivity.
Qed.

Lemma spend_totals_filter64 df (P : Z * Z -> bool) :
  map spend_total_sales
      (filter (fun s => P (spend_key s)) (cohort_monthly_spend64 df))
  = map snd (filter (fun r => P (fst r)) (monthly_sum64 df)).
Proof.
  rewrite cohort_monthly_spend64_rows.
  set (X := combine (monthly_sum64 df)
              (groupby_cumsum64 (fun _ => (0%Qc, 0%Qc)) (monthly_sum64 df))).
  assert (E : monthly_sum64 df = map fst X).
  { unfold X. rewrite map_fst_combine;
      [reflexivity | symmetry; apply groupby_cumsum64_length]. }
  rewrite E. rewrite !filter_map_comm, !map_map.
  replace (filter (fun a => P (spend_key (spend_row64 df a))) X)
    with (filter (fun a => P (fst (fst a))) X).
  - apply map_ext. intros [[[c p] v] cum]. reflexivity.
  - apply filter_ext. intros [[[c p] v] cum]. reflexivity.
Qed.

(** The cumulative total of a row of the float64 frame: the compensated
    sum of the monthly totals of its cohort up to its month, taken in
    ascending order of the months. *)
Lemma cumulative64_running df s :
  In s (cohort_monthly_spend64 df) ->
  cumulative_total_spent s
  = fst (fold_left kahan_step
           (map spend_total_sales
              (filter (fun s' => months_upto s (spend_key s'))
                      (cohort_monthly_spend64 df)))
           (0%Qc, 0%Qc)).
Proof.
  intros Hs. rewrite (spend_totals_filter64 df (months_upto s)).
  rewrite cohort_monthly_spend64_rows in Hs. apply in_map_iff in Hs.
  destruct Hs as ([[[c p] v] cum] & <- & Hin).
  apply cumsum64_running in Hin. exact Hin.
Qed.

(** ** The float64 matrices *)

Lemma spend_offset64 s df :
  In s (cohort_monthly_spend64 df) ->
  months_since_initial_purchase s
  = period_diff_n (spend_purchase_month s) (spend_cohort_month s).
Proof.
  rewrite cohort_monthly_spend64_rows, in_map_iff.
  intros ([[[c p] v] cum] & <- & _). reflexivity.
Qed.

Lemma spend_cells64_NoDup df :
  NoDup (map spend_cell (cohort_monthly_spend64 df)).
Proof.
  assert (E : map spend_cell (cohort_monthly_spend64 df)
              = map (fun k => (fst k, period_diff_n (snd k) (fst k)))
                    (map spend_key (cohort_monthly_spend64 df))).
  { rewrite map_map. apply map_ext_in. intros s Hs. unfold spend_cell. simpl.
    rewrite (@spend_offset64 s df Hs). reflexivity. }
  rewrite E, spend_keys64. apply NoDup_offset_keys, month_keys_NoDup.
Qed.

(** The monthly total of a row of the float64 frame is the float64 sum
    of the amounts of the rows of [df] with its months. *)
Lemma spend64_total df s :
  In s (cohort_monthly_spend64 df) ->
  spend_total_sales s
  = group_sum (map total_sales64 (filter (has_month_key (spend_key s)) df)).
Proof.
  rewrite cohort_monthly_spend64_rows, in_map_iff.
  intros ([[[c p] v] cum] & <- & Hin).
  apply in_combine_l in Hin. unfold monthly_sum64 in Hin.
  apply in_map_iff in Hin. destruct Hin as (k & [= -> <-] & _).
  reflexivity.
Qed.

(** Every cell of the float64 revenue matrix is the float64 sum of the
    amounts of the rows of its cohort and month; the sum of no row is the
    0 that fills the cell. *)
Lemma revenue64_cell df c o :
  In c (index (revenue64 df)) -> In o (labels (revenue64 df)) ->
  cell_at (revenue64 df) c o
  = Some (group_sum (map total_sales64 (filter (has_month_key (c, c + o)) df))).
Proof.
  intros Hc Ho. unfold revenue64 in *. cbn [index labels pivot_table] in Hc, Ho.
  rewrite In_months in Hc, Ho.
  rewrite cell_at_pivot by assumption. f_equal.
  change (map (fun s => (spend_cohort_month s, months_since_initial_purchase s,
                         spend_total_sales s)) (cohort_monthly_spend64 df))
    with (map (fun y => (spend_cell y, spend_total_sales y))
              (cohort_monthly_spend64 df)).
  destruct (@pivot_cell_cases _ spend_cell spend_total_sales 0%Qc
              (cohort_monthly_spend64 df) c o (spend_cells64_NoDup df))
    as [(x & Hx & Hk & ->)|[Hnone ->]].
  - unfold spend_cell in Hk. injection Hk as Hkc Hko.
    rewrite (@spend_offset64 x df Hx) in Hko. unfold period_diff_n in Hko.
    assert (Hp : spend_purchase_month x = c + o) by lia.
    rewrite (@spend64_total df x Hx). unfold spend_key.
    rewrite Hkc, Hp. reflexivity.
  - rewrite filter_nil; [reflexivity|].
    intros r Hr. destruct (has_month_key (c, c + o) r) eqn:E; [|reflexivity].
    exfalso. apply has_month_key_iff in E.
    assert (Hin : In (c, c + o) (map spend_key (cohort_monthly_spend64 df))).
    { rewrite spend_keys64, In_month_keys, In_somes, in_map_iff.
      exists r. split; assumption. }
    apply in_map_iff in Hin. destruct Hin as (x & Hkey & Hx).
    apply (Hnone x Hx). unfold spend_cell, spend_key in *.
    injection Hkey as Hkc Hkp.
    rewrite (@spend_offset64 x df Hx). unfold period_diff_n.
    rewrite Hkc, Hkp. replace (c + o - c) with o by lia. reflexivity.
Qed.

(** ** Revenue through grouping and pivoting *)

(** The counterexample to C6 as stated: one customer buys for 0.1 in
    January, then for 0.1 and for 0.4 in February.  The February cell of
    the revenue matrix is the float64 0.5, less than the two amounts it
    sums are together, so the row does not add up to the three amounts,
    whether the two sides are added exactly or in float64 from the
    left. *)
Lemma rounding_breaks_conservation :
  valid_input tenths = true /\
  exists df row,
    enrich tenths = Ok df /\
    Forall (fun r => cohort_month r = Some jan) df /\
    row_at (revenue64 df) jan = Some row /\
    map this row = [3602879701896397 # 36028797018963968; 1 # 2]%Q /\
    Qcsum row <> Qcsum (somes (map total_sales (filter (in_cohort jan) df))) /\
    sum64 row <> sum64 (somes (map total_sales (filter (in_cohort jan) df))).
Proof.
  split; [reflexivity|].
  exists tenths_enriched.
  destruct (row_at (revenue64 tenths_enriched) jan) as [row|] eqn:Hrow;
    [|vm_compute in Hrow; discriminate].
  exists row. split; [reflexivity|].
  split; [repeat constructor|]. split; [reflexivity|].
  vm_compute in Hrow. injection Hrow as <-.
  split; [reflexivity|].
  split; intros H; apply (f_equal this) in H; vm_compute in H; discriminate.
Qed.

(** C6, amended. On every valid table the pipeline reads the
    transactions, the cohort of a transaction is that of its customer,
    and every cell of the revenue matrix holds the float64 sum of the
    sale amounts of the transactions of that cohort in that month, 0
    where there is none.  When no addition of the monthly totals is
    rounded, as with whole amounts of moderate size, the cells of the row
    of every cohort month, over all offsets, add up to the sale amounts of
    the transactions of the customers of that cohort. *)
Theorem revenue_conservation (df0 : DataFrame) :
  valid_input df0 = true ->
  exists df,
    enrich df0 = Ok df /\
    (forall r1 r2, In r1 df -> In r2 df ->
       customer_email r1 = customer_email r2 ->
       cohort_month r1 = cohort_month r2) /\
    (forall c o,
       In c (index (revenue64 df)) -> In o (labels (revenue64 df)) ->
       cell_at (revenue64 df) c o
       = Some (group_sum (map total_sales64
                              (filter (has_month_key (c, c + o)) df)))) /\
    (totals_exactly df = true ->
     forall c, (exists r, In r df /\ cohort_month r = Some c) ->
       exists row,
         row_at (revenue64 df) c = Some row /\
         Qcsum row
         = Qcsum (somes (map total_sales (filter (in_cohort c) df)))).
Proof.
  intros Hv. destruct (@valid_input_enrich df0 Hv) as (df & He & _ & Hcomplete).
  exists df. split; [exact He|]. split; [|split].
  - intros r1 r2 H1 H2. apply (@cohort_of_customer df0 df r1 r2 He H1 H2).
  - intros c o. apply revenue64_cell.
  - intros Hex c Hc.
    rewrite (@revenue64_exact df Hex).
    rewrite <- nansum_somes.
    apply (@revenue_conservation_rows df0 df c He); [|exact Hc].
    rewrite Forall_forall in *. intros r Hr. apply (Hcomplete r Hr).
Qed.

Lemma revenue_conservation_witness :
  exists df,
    enrich three_customers = Ok df /\
    (exists row,
       row_at (revenue64 df) jan = Some row /\
       Qcsum row
       = Qcsum (somes (map total_sales (filter (in_cohort jan) df)))).
Proof.
  destruct (@revenue_conservation three_customers eq_refl)
    as (df & He & _ & _ & H).
  exists df. split; [exact He|].
  rewrite three_customers_enrich in He. injection He as <-.
  apply H.
  - vm_compute. reflexivity.
  - eexists. split; [left; reflexivity | reflexivity].
Defined.

(** ** Cumulative totals *)

(** The counterexample to C7 as stated: one customer buys for 0.05 in
    January, for 0.15 in February and has an order of 0 in March.  The
    compensated running sum reaches the float64 0.2 in February and gives
    the float64 just below it in March: without a negative amount the
    cumulative total decreases. *)
Lemma cumulative_total_decreases :
  valid_input free_order = true /\
  nonnegative_amounts free_order = true /\
  exists df s1 s2,
    enrich free_order = Ok df /\
    In s1 (cohort_monthly_spend64 df) /\
    In s2 (cohort_monthly_spend64 df) /\
    spend_cohort_month s1 = spend_cohort_month s2 /\
    spend_purchase_month s1 < spend_purchase_month s2 /\
    this (cumulative_total_spent s1) = (3602879701896397 # 18014398509481984)%Q /\
    this (cumulative_total_spent s2) = (7205759403792793 # 36028797018963968)%Q /\
    (cumulative_total_spent s2 < cumulative_total_spent s1)%Qc.
Proof.
  split; [reflexivity|]. split; [reflexivity|].
  exists free_order_enriched.
  destruct (cohort_monthly_spend64 free_order_enriched)
    as [|s0 [|s1 [|s2 tl]]] eqn:E; try (vm_compute in E; discriminate).
  exists s1, s2. split; [reflexivity|].
  split; [right; left; reflexivity|].
  split; [right; right; left; reflexivity|].
  vm_compute in E. injection E as _ <- <- _.
  split; [reflexivity|]. split; [reflexivity|].
  split; [reflexivity|]. split; [reflexivity|].
  unfold Qclt. vm_compute. reflexivity.
Qed.

(** C7, amended. On every valid table without a negative sale amount,
    the rows of the monthly totals are in ascending order of cohort month
    and purchase month, and the cumulative total of a row is the running
    sum, compensated and in float64 as pandas takes it, of the monthly
    totals of its cohort up to its purchase month.  When no addition of
    the sums is rounded, the cumulative total is that sum exactly, and
    within a cohort the cumulative totals never decrease as the purchase
    month, or the offset, grows. *)
Theorem cumulative_total_nondecreasing (df0 : DataFrame) :
  valid_input df0 = true ->
  nonnegative_amounts df0 = true ->
  exists df,
    enrich df0 = Ok df /\
    StronglySorted (lt_key pair_ltb)
                   (map spend_key (cohort_monthly_spend64 df)) /\
    (forall s, In s (cohort_monthly_spend64 df) ->
       cumulative_total_spent s
       = fst (fold_left kahan_step
                (map spend_total_sales
                   (filter (fun s' => months_upto s (spend_key s'))
                           (cohort_monthly_spend64 df)))
                (0%Qc, 0%Qc))) /\
    (sums_exactly df = true ->
     (forall s, In s (cohort_monthly_spend64 df) ->
        cumulative_total_spent s
        = Qcsum (map spend_total_sales
                     (filter (fun s' => months_upto s (spend_key s'))
                             (cohort_monthly_spend64 df)))) /\
     (forall s1 s2,
        In s1 (cohort_monthly_spend64 df) ->
        In s2 (cohort_monthly_spend64 df) ->
        spend_cohort_month s1 = spend_cohort_month s2 ->
        (spend_purchase_month s1 <= spend_purchase_month s2
         \/ months_since_initial_purchase s1
            <= months_since_initial_purchase s2) ->
        (cumulative_total_spent s1 <= cumulative_total_spent s2)%Qc)).
Proof.
  intros Hv Hn. destruct (@valid_input_enrich df0 Hv) as (df & He & _).
  exists df. split; [exact He|]. split; [|split].
  - rewrite spend_keys64. apply month_keys_sorted.
  - intros s Hs. apply (@cumulative64_running df s Hs).
  - intros Hexact.
    destruct (@cumulative_total_rows df
                (@nonnegative_amounts_enrich df0 df Hn He))
      as (_ & Hsum & Hmono).
    split.
    + intros s Hs.
      destruct (@spend64_exact_In df s Hexact Hs) as (s0 & Hs0 & E).
      unfold sums_of in E. injection E as Ec Ep Ev Ecum Esize Eo.
      rewrite Ecum, (Hsum s0 Hs0).
      f_equal.
      transitivity
        (map (fun a => snd (fst (fst (fst (sums_of a)))))
             (filter (fun a => months_upto s0 (fst (fst (fst (fst (sums_of a))))))
                     (cohort_monthly_spend64 df))).
      * symmetry. apply (@filter_through _ _ _ sums_of
                           (fun t => months_upto s0 (fst (fst (fst (fst t)))))
                           (fun t => snd (fst (fst (fst t))))
                           _ _ (@sums_of_exact df Hexact)).
      * f_equal. apply filter_ext. intros s'.
        unfold months_upto, sums_of, spend_key. simpl.
        rewrite Ec, Ep. reflexivity.
    + intros s1 s2 H1 H2 Hc Hle.
      destruct (@spend64_exact_In df s1 Hexact H1) as (a1 & Ha1 & E1).
      destruct (@spend64_exact_In df s2 Hexact H2) as (a2 & Ha2 & E2).
      unfold sums_of in E1, E2.
      injection E1 as Ec1 Ep1 Ev1 Ecum1 Esize1 Eo1.
      injection E2 as Ec2 Ep2 Ev2 Ecum2 Esize2 Eo2.
      rewrite Ecum1, Ecum2. apply (Hmono a1 a2 Ha1 Ha2).
      * rewrite <- Ec1, <- Ec2. exact Hc.
      * rewrite <- Ep1, <- Ep2, <- Eo1, <- Eo2. exact Hle.
Qed.

Lemma cumulative_total_nondecreasing_witness :
  exists df,
    enrich three_customers = Ok df /\
    StronglySorted (lt_key pair_ltb)
                   (map spend_key (cohort_monthly_spend64 df)) /\
    (forall s1 s2,
        In s1 (cohort_monthly_spend64 df) ->
        In s2 (cohort_monthly_spend64 df) ->
        spend_cohort_month s1 = spend_cohort_month s2 ->
        spend_purchase_month s1 <= spend_purchase_month s2 ->
        (cumulative_total_spent s1 <= cumulative_total_spent s2)%Qc).
Proof.
  destruct (@cumulative_total_nondecreasing three_customers eq_refl eq_refl)
    as (df & He & Hs & _ & H).
  exists df. split; [exact He|]. split; [exact Hs|].
  rewrite three_customers_enrich in He. injection He as <-.
  assert (Hex : sums_exactly three_customers_enriched = true)
    by (vm_compute; reflexivity).
  destruct (H Hex) as [_ Hmono].
  intros s1 s2 H1 H2 Hc Hp. apply (Hmono s1 s2 H1 H2 Hc). left. exact Hp.
Defined.

(** ** The LTV matrix in float64 *)

(** In exact arithmetic the cumulative total of a row is the sum of the
    cells of its cohort in the revenue matrix up to its offset. *)
Lemma cumulative_is_cells_upto df s :
  In s (cohort_monthly_spend df) ->
  cumulative_total_spent s
  = Qcsum (cells_upto (revenue df) (spend_cohort_month s)
                      (months_since_initial_purchase s)).
Proof.
  intros Hs.
  assert (Hc : In (spend_cohort_month s) (index (revenue df))).
  { unfold revenue. simpl. apply In_months. rewrite map_map. simpl.
    apply (in_map spend_cohort_month) in Hs. exact Hs. }
  rewrite (cells_upto_revenue df _ _ Hc), (cumulative_is_running_sum df s Hs).
  do 2 f_equal.
  apply filter_ext_in. intros s' Hs'. unfold months_upto, spend_key. simpl.
  rewrite (spend_offset _ _ Hs), (spend_offset _ _ Hs').
  unfold period_diff_n.
  destruct (spend_cohort_month s' =? spend_cohort_month s) eqn:E;
    [|reflexivity].
  apply Z.eqb_eq in E. rewrite E. simpl.
  destruct (Z.leb_spec (spend_purchase_month s') (spend_purchase_month s));
    symmetry; [apply Z.leb_le | apply Z.leb_gt]; lia.
Qed.

Lemma spend_row64_size df s :
  In s (cohort_monthly_spend64 df) ->
  cohort_size s = cohort_size_of df (spend_cohort_month s) /\
  avg_cumulative_total_spent s
  = div64 (cumulative_total_spent s) (Qc_of_nat (cohort_size s)).
Proof.
  rewrite cohort_monthly_spend64_rows, in_map_iff.
  intros ([[[c p] v] cum] & <- & _). split; reflexivity.
Qed.

(** X7. When no addition of the sums is rounded, the float64 LTV matrix
    is the revenue matrix accumulated along each row and divided by the
    cohort size: where a cohort has a purchase at an offset, its LTV cell
    is the float64 quotient of the sum of its revenue cells up to that
    offset by its size in the cohort size table. *)
Theorem ltv_is_cumulative_revenue_per_customer (df : list Row) (s : Spend) :
  sums_exactly df = true ->
  In s (cohort_monthly_spend64 df) ->
  In (spend_cohort_month s, cohort_size s) (cohort_sizes df) /\
  cell_at (ltv64 df) (spend_cohort_month s) (months_since_initial_purchase s)
  = Some (div64 (Qcsum (cells_upto (revenue64 df) (spend_cohort_month s)
                                   (months_since_initial_purchase s)))
                (Qc_of_nat (cohort_size s))).
Proof.
  intros Hexact Hs.
  destruct (@spend_row64_size df s Hs) as [Hsize Havg].
  assert (Hkey : In (spend_key s)
                    (sorted_unique pair_ltb (somes (map month_key df)))).
  { rewrite <- spend_keys64. apply (in_map spend_key) in Hs. exact Hs. }
  split.
  - rewrite In_month_keys in Hkey. apply In_month_key_cohort in Hkey.
    simpl in Hkey. rewrite Hsize. unfold cohort_sizes.
    apply (in_map (fun c => (c, cohort_size_of df c))).
    apply In_months. exact Hkey.
  - destruct (@spend64_exact_In df s Hexact Hs) as (s0 & Hs0 & E).
    unfold sums_of in E. injection E as Ec Ep Ev Ecum Esize Eo.
    rewrite (@revenue64_exact df (@sums_exactly_totals df Hexact)).
    unfold ltv64. rewrite cell_at_pivot.
    + f_equal.
      etransitivity;
        [apply (pivot_cell_single spend_cell avg_cumulative_total_spent);
           [apply spend_cells64_NoDup | exact Hs]|].
      rewrite Havg, Ecum, Ec, Eo.
      rewrite (@cumulative_is_cells_upto df s0 Hs0). reflexivity.
    + rewrite map_map. simpl.
      apply (in_map spend_cohort_month) in Hs. exact Hs.
    + rewrite map_map. simpl.
      apply (in_map months_since_initial_purchase) in Hs. exact Hs.
Qed.

Lemma ltv_is_cumulative_revenue_per_customer_witness :
  exists s,
    In s (cohort_monthly_spend64 three_customers_enriched) /\
    In (spend_cohort_month s, cohort_size s)
       (cohort_sizes three_customers_enriched).
Proof.
  destruct (cohort_monthly_spend64 three_customers_enriched) as [|s tl] eqn:E;
    [vm_compute in E; discriminate|].
  exists s. split; [left; reflexivity|].
  apply (@ltv_is_cumulative_revenue_per_customer three_customers_enriched s).
  - vm_compute. reflexivity.
  - rewrite E. left. reflexivity.
Defined.

(** ** Whole amounts are not rounded *)

Lemma this_Qc_of_Z z : this (Qc_of_Z z) = inject_Z z.
Proof.
  unfold Qc_of_Z, Q2Qc. cbn [this]. apply Qred_identity.
  cbn [Qnum Qden inject_Z]. apply Z.gcd_1_r.
Qed.

Lemma round64_Q_whole z :
  Z.abs z < 2 ^ 53 -> (round64_Q (inject_Z z) == inject_Z z)%Q.
Proof.
  intros Hz. unfold round64_Q. cbn [Qnum Qden inject_Z].
  destruct (Z.eqb_spec (Z.abs z) 0) as [E|E].
  - assert (z = 0) by lia. subst. reflexivity.
  - set (a := Z.abs z) in *. assert (Ha : 0 < a) by lia.
    assert (Hlog : 0 <= Z.log2 a < 53).
    { split; [apply Z.log2_nonneg|]. apply Z.log2_lt_pow2; lia. }
    destruct (Z.log2_spec a Ha) as [Hlo _].
    assert (E0 : floor_log2 a 1 = Z.log2 a).
    { unfold floor_log2, scale2. change (Z.log2 1) with 0. rewrite Z.sub_0_r.
      destruct (Z.leb_spec 0 (Z.log2 a)); [|lia].
      rewrite Z.mul_1_l. destruct (Z.leb_spec (2 ^ Z.log2 a) a); [reflexivity|lia]. }
    rewrite E0. rewrite Z.max_l by lia.
    unfold scale2. destruct (Z.leb_spec 0 (Z.log2 a - 52)) as [Hq|Hq].
    + assert (Eq : Z.log2 a - 52 = 0) by lia. rewrite Eq.
      change (2 ^ 0) with 1. rewrite !Z.mul_1_r, Z.div_1_r, Z.mod_1_r.
      cbn [Z.mul Z.compare].
      destruct (Z.ltb_spec 0 z); unfold Qeq, inject_Z, Qopp; cbn [Qnum Qden]; lia.
    + rewrite Z.div_1_r, Z.mod_1_r. cbn [Z.mul Z.compare].
      assert (Hp : 0 < 2 ^ (- (Z.log2 a - 52))) by (apply Z.pow_pos_nonneg; lia).
      destruct (Z.ltb_spec 0 z); unfold Qeq, inject_Z, Qopp; cbn [Qnum Qden];
        rewrite Z2Pos.id by exact Hp; lia.
Qed.

Lemma round64_whole z : Z.abs z < 2 ^ 53 -> round64 (Qc_of_Z z) = Qc_of_Z z.
Proof.
  intros Hz. apply Qc_is_canon. unfold round64. rewrite this_Qc_of_Z.
  unfold Q2Qc at 1. cbn [this]. rewrite Qred_correct.
  apply (@round64_Q_whole z Hz).
Qed.

Lemma is_float64_whole z : Z.abs z < 2 ^ 53 -> is_float64 (Qc_of_Z z) = true.
Proof.
  intros Hz. unfold is_float64, Qc_eqb.
  rewrite (@round64_whole z Hz). rewrite !andb_true_iff. split; [split|].
  - apply Qeq_bool_iff. reflexivity.
  - apply Qle_bool_iff. rewrite this_Qc_of_Z.
    unfold max_float64, Qle, Qopp, inject_Z. cbn [Qnum Qden].
    assert (2 ^ 53 <= (2 ^ 53 - 1) * 2 ^ 971)
      by (intros H; vm_compute in H; discriminate).
    lia.
  - apply Qle_bool_iff. rewrite this_Qc_of_Z.
    unfold max_float64, Qle, inject_Z. cbn [Qnum Qden].
    assert (2 ^ 53 <= (2 ^ 53 - 1) * 2 ^ 971)
      by (intros H; vm_compute in H; discriminate).
    lia.
Qed.

Lemma Qc_of_Z_plus a b : (Qc_of_Z a + Qc_of_Z b)%Qc = Qc_of_Z (a + b).
Proof.
  apply Qc_is_canon. unfold Qcplus, Qc_of_Z. cbn [this Q2Qc].
  rewrite !Qred_correct. rewrite inject_Z_plus. reflexivity.
Qed.

Lemma abs_sum_nonneg l : 0 <= abs_sum l.
Proof. unfold abs_sum. induction l; simpl; lia. Qed.

Lemma adds_exactly_whole zs : forall a,
  Z.abs a + abs_sum zs < 2 ^ 53 ->
  adds_exactly (Qc_of_Z a) (map Qc_of_Z zs) = true.
Proof.
  induction zs as [|z tl IH]; intros a H; cbn [adds_exactly map].
  - reflexivity.
  - unfold abs_sum in H. cbn [map fold_right] in H. fold (abs_sum tl) in H.
    pose proof (abs_sum_nonneg tl).
    rewrite Qc_of_Z_plus, !andb_true_iff. split; [split|].
    + apply is_float64_whole. lia.
    + apply is_float64_whole. lia.
    + apply IH. lia.
Qed.

Lemma cumsum_exactly_whole zrows : forall acc,
  (forall c, exists a,
     acc c = Qc_of_Z a /\ Z.abs a + abs_sum (map snd zrows) < 2 ^ 53) ->
  cumsum_exactly acc (map (fun t : Z * Z * Z => (fst t, Qc_of_Z (snd t))) zrows)
  = true.
Proof.
  induction zrows as [|[[c p] z] tl IH]; intros acc H;
    cbn [cumsum_exactly map fst snd].
  - reflexivity.
  - destruct (H c) as (a & Ea & Ha).
    unfold abs_sum in Ha. cbn [map fold_right snd] in Ha.
    fold (abs_sum (map snd tl)) in Ha.
    pose proof (abs_sum_nonneg (map snd tl)).
    rewrite Ea, Qc_of_Z_plus, !andb_true_iff. split; [split|].
    + apply is_float64_whole. lia.
    + apply is_float64_whole. lia.
    + apply IH. intros c'. destruct (c' =? c).
      * exists (a + z). split; [reflexivity | lia].
      * destruct (H c') as (a' & Ea' & Ha'). exists a'. split; [exact Ea'|].
        unfold abs_sum in Ha'. cbn [map fold_right snd] in Ha'.
        fold (abs_sum (map snd tl)) in Ha'. lia.
Qed.

Lemma whole_amount_num r :
  whole_amount r = true -> nan_to_zero (total_sales r) = Qc_of_Z (amount_num r).
Proof.
  unfold whole_amount, amount_num.
  destruct (total_sales r) as [x|]; cbn [nan_to_zero].
  - intros H. apply Pos.eqb_eq in H. apply Qc_is_canon.
    rewrite this_Qc_of_Z. destruct x as [[n d] Hc]. cbn [this Qden Qnum] in *.
    subst d. reflexivity.
  - intros _. apply Qc_is_canon. reflexivity.
Qed.

Lemma nansum_whole rows :
  forallb whole_amount rows = true ->
  nansum (map total_sales rows) = Qc_of_Z (Zsum (map amount_num rows)).
Proof.
  unfold nansum. induction rows as [|r tl IH]; cbn [forallb map]; intros H.
  - apply Qc_is_canon. reflexivity.
  - rewrite andb_true_iff in H. destruct H as [Hr Htl].
    change (Qcsum (nan_to_zero (total_sales r)
                   :: map nan_to_zero (map total_sales tl)))
      with (nan_to_zero (total_sales r)
            + Qcsum (map nan_to_zero (map total_sales tl)))%Qc.
    rewrite (IH Htl), (whole_amount_num r Hr), Qc_of_Z_plus. reflexivity.
Qed.

Lemma somes_whole rows :
  forallb whole_amount rows = true ->
  exists zs,
    somes (map total_sales rows) = map Qc_of_Z zs /\
    abs_sum zs <= abs_sum (map amount_num rows).
Proof.
  induction rows as [|r tl IH]; cbn [forallb map somes]; intros H.
  - exists []. split; [reflexivity | reflexivity].
  - rewrite andb_true_iff in H. destruct H as [Hr Htl].
    destruct (IH Htl) as (zs & E & Hle).
    pose proof (whole_amount_num r Hr) as En.
    unfold abs_sum. cbn [map fold_right].
    fold (abs_sum (map amount_num tl)).
    destruct (total_sales r) as [x|] eqn:Ex; cbn [somes].
    + exists (amount_num r :: zs). split.
      * cbn [map]. rewrite E. f_equal. exact En.
      * cbn [map fold_right]. fold (abs_sum zs). lia.
    + exists zs. split; [exact E|]. fold (abs_sum zs). lia.
Qed.

Lemma forallb_filter {A} (f g : A -> bool) l :
  forallb f l = true -> forallb f (filter g l) = true.
Proof.
  rewrite !forallb_forall. intros H x Hx. apply filter_In in Hx. apply H, Hx.
Qed.

Lemma abs_sum_filter {A} (w : A -> Z) (g : A -> bool) l :
  abs_sum (map w (filter g l)) <= abs_sum (map w l).
Proof.
  unfold abs_sum. induction l as [|x tl IH]; simpl; [lia|].
  destruct (g x); simpl; lia.
Qed.

Lemma Zsum_abs l : Z.abs (Zsum l) <= abs_sum l.
Proof. unfold Zsum, abs_sum. induction l; simpl; lia. Qed.

Lemma select_none {K} (f : K -> bool) (w : Z) keys :
  (forall k, In k keys -> f k = false) ->
  Zsum (map (fun k => if f k then w else 0) keys) = 0.
Proof.
  induction keys as [|k tl IH]; simpl; intros H; [reflexivity|].
  rewrite (H k) by (left; reflexivity). apply IH.
  intros k' Hk'. apply H. right. exact Hk'.
Qed.

(** A key that selects an element is the only one of the keys to do so. *)
Lemma select_at_most_one {K} (f : K -> bool) (w : Z) keys :
  0 <= w ->
  (forall k k', In k keys -> In k' keys -> f k = true -> f k' = true -> k = k') ->
  NoDup keys ->
  Zsum (map (fun k => if f k then w else 0) keys) <= w.
Proof.
  intros Hw Huniq Hnd. induction Hnd as [|k ks Hnotin Hnd IH]; simpl; [lia|].
  assert (IH' : Zsum (map (fun k => if f k then w else 0) ks) <= w).
  { apply IH. intros a b Ha Hb. apply Huniq; right; assumption. }
  destruct (f k) eqn:Ek; [|exact IH'].
  rewrite select_none; [lia|].
  intros k' Hk'. destruct (f k') eqn:Ek'; [|reflexivity].
  exfalso. apply Hnotin.
  rewrite (Huniq k k' (or_introl eq_refl) (or_intror Hk') Ek Ek'). exact Hk'.
Qed.

Lemma Zsum_map_plus {K} (f g : K -> Z) keys :
  Zsum (map (fun k => f k + g k) keys) = Zsum (map f keys) + Zsum (map g keys).
Proof. unfold Zsum. induction keys as [|k tl IH]; simpl; lia. Qed.

(** Sums over groups that no element belongs to twice do not exceed the
    sum over all elements. *)
Lemma Zsum_groups_le {A K} (sel : K -> A -> bool) (w : A -> Z) keys l :
  (forall x, 0 <= w x) ->
  (forall x k k', In k keys -> In k' keys ->
     sel k x = true -> sel k' x = true -> k = k') ->
  NoDup keys ->
  Zsum (map (fun k => Zsum (map w (filter (sel k) l))) keys) <= Zsum (map w l).
Proof.
  intros Hw Huniq Hnd. induction l as [|x tl IH].
  - simpl. assert (E : forall ks : list K, Zsum (map (fun _ => 0) ks) = 0)
      by (induction ks; simpl; auto).
    change (fun k : K => Zsum (map w [])) with (fun _ : K => 0).
    rewrite E. simpl. lia.
  - assert (E : map (fun k => Zsum (map w (filter (sel k) (x :: tl)))) keys
              = map (fun k => (if sel k x then w x else 0)
                              + Zsum (map w (filter (sel k) tl))) keys).
    { apply map_ext. intros k. simpl. destruct (sel k x); reflexivity. }
    rewrite E, Zsum_map_plus.
    pose proof (@select_at_most_one K (fun k => sel k x) (w x) keys (Hw x)
                  (fun k k' Hk Hk' => Huniq x k k' Hk Hk') Hnd) as Hone.
    cbv beta in Hone.
    change (Zsum (map w (x :: tl))) with (w x + Zsum (map w tl)). lia.
Qed.

Lemma Zsum_map_le {K} (f g : K -> Z) keys :
  (forall k, In k keys -> f k <= g k) ->
  Zsum (map f keys) <= Zsum (map g keys).
Proof.
  unfold Zsum. induction keys as [|k tl IH]; simpl; intros H; [lia|].
  pose proof (H k (or_introl eq_refl)).
  assert (fold_right Z.add 0 (map f tl) <= fold_right Z.add 0 (map g tl))
    by (apply IH; intros k' Hk'; apply H; right; exact Hk').
  lia.
Qed.

Lemma monthly_sum_whole df :
  forallb whole_amount df = true ->
  monthly_sum df
  = map (fun t : Z * Z * Z => (fst t, Qc_of_Z (snd t))) (monthly_num df).
Proof.
  intros H. unfold monthly_sum, monthly_num. rewrite map_map.
  apply map_ext. intros k. cbn [fst snd].
  rewrite (@nansum_whole _ (@forallb_filter _ whole_amount (has_month_key k) df H)).
  reflexivity.
Qed.

Lemma monthly_num_bound df :
  abs_sum (map snd (monthly_num df)) <= abs_sum (map amount_num df).
Proof.
  unfold monthly_num, abs_sum. rewrite !map_map. cbn [snd].
  fold (Zsum (map (fun k => Z.abs (Zsum (map amount_num
                                              (filter (has_month_key k) df))))
                  (sorted_unique pair_ltb (somes (map month_key df))))).
  fold (Zsum (map (fun r => Z.abs (amount_num r)) df)).
  etransitivity.
  - apply (@Zsum_map_le _ _
             (fun k => Zsum (map (fun r => Z.abs (amount_num r))
                                 (filter (has_month_key k) df)))).
    intros k _.
    pose proof (Zsum_abs (map amount_num (filter (has_month_key k) df))) as H.
    unfold abs_sum in H. rewrite map_map in H. exact H.
  - apply (@Zsum_groups_le _ _ has_month_key (fun r => Z.abs (amount_num r))).
    + intros r. lia.
    + intros r k k' _ _ Hk Hk'. apply has_month_key_iff in Hk, Hk'. congruence.
    + apply month_keys_NoDup.
Qed.

Lemma Qc_of_Z_zero : 0%Qc = Qc_of_Z 0.
Proof. apply Qc_is_canon. reflexivity. Qed.

Lemma whole_amounts_sums_exactly df :
  whole_amounts df = true -> sums_exactly df = true.
Proof.
  unfold whole_amounts. rewrite andb_true_iff. intros [Hw Hb].
  apply Z.ltb_lt in Hb.
  unfold sums_exactly, totals_exactly.
  rewrite andb_true_iff, forallb_forall. split.
  - intros k _.
    destruct (@somes_whole (filter (has_month_key k) df)
                (@forallb_filter _ whole_amount (has_month_key k) df Hw))
      as (zs & -> & Hle).
    rewrite Qc_of_Z_zero. apply adds_exactly_whole.
    pose proof (abs_sum_filter amount_num (has_month_key k) df). simpl. lia.
  - rewrite (@monthly_sum_whole df Hw). apply cumsum_exactly_whole.
    intros c. exists 0. split; [apply Qc_of_Z_zero|].
    pose proof (monthly_num_bound df). simpl. lia.
Qed.

(** X15. When every sale amount is a whole number and the absolute
    values of the amounts add up to less than 2 ^ 53, no addition of
    lines 47 and 50 is rounded: the monthly totals, the cumulative totals
    and the revenue matrix computed in float64 are the exact ones. *)
Theorem whole_amounts_are_not_rounded (df : list Row) :
  whole_amounts df = true ->
  sums_exactly df = true /\
  map sums_of (cohort_monthly_spend64 df)
  = map sums_of (cohort_monthly_spend df) /\
  revenue64 df = revenue df.
Proof.
  intros Hw. pose proof (@whole_amounts_sums_exactly df Hw) as Hexact.
  split; [exact Hexact|]. split.
  - apply (@sums_of_exact df Hexact).
  - apply (@revenue64_exact df (@sums_exactly_totals df Hexact)).
Qed.

Lemma whole_amounts_are_not_rounded_witness :
  sums_exactly three_customers_enriched = true /\
  revenue64 three_customers_enriched = revenue three_customers_enriched.
Proof.
  destruct (@whole_amounts_are_not_rounded three_customers_enriched eq_refl)
    as (H1 & _ & H2).
  split; assumption.
Defined.
